(** * Two-stage smoke/fire pipeline: shallow embedding and verification

    Embedded source: [jetson_yolo11_two_stage_mjpeg_server_v5_4_telegram.py]
    (the Telegram alerter, NMS and decoding, the ROI utilities, the fire
    worker process and the body of the main loop).

    Conventions of the embedding.
    - Python floats (confidences, coordinates, [time.time()] readings) are
      rationals [Q]; float rounding is not modelled.  Where numpy divides by
      zero (NaN or infinity, no exception) the outcome of the comparison that
      follows is written out.
    - Python ints are [Z].
    - A [try: ... except Exception:] block is a match on an [exc] value.
    - OpenCV, TensorRT and the wall clock are the environment: the codec is
      an instance of the class [Cv2], clock readings are inputs.
    - Queues ([queue.Queue], [mp.Queue]) are lists, oldest element first. *)

From Stdlib Require Import String Ascii.
From Stdlib Require DecimalString DecimalNat.
From Stdlib Require Import ZArith QArith Qminmax Qround Bool List.
From Stdlib Require Import Lia Lqa Permutation Sorted.
From Equations Require Import Equations.
Import ListNotations.

Local Open Scope Z_scope.

(** ** Exceptions, comparisons on floats, bounded queues *)

Definition bytes := list Byte.byte.

Inductive exc (A : Type) : Type :=
| Ok (a : A)
| Raised (msg : string).
Arguments Ok {A} a.
Arguments Raised {A} msg.

(** [x < y] on floats. *)
Definition Qltb (x y : Q) : bool := negb (Qle_bool y x).

(** [int(x)] of a float: truncation toward zero. *)
Definition int_of_float (x : Q) : Z := Z.quot (Qnum x) (Zpos (Qden x)).

Section BoundedQueue.
Context {A : Type}.

(** [Queue(maxsize).put_nowait(x)] for a positive [maxsize]: raises
    [Full] when the queue already holds [maxsize] items. *)
Definition put_nowait (maxsize : nat) (q : list A) (x : A) : exc (list A) :=
  if (length q <? maxsize)%nat then Ok (q ++ [x]) else Raised "Full".

(** [Queue.get_nowait()]: raises [Empty] on an empty queue. *)
Definition get_nowait (q : list A) : exc (A * list A) :=
  match q with
  | [] => Raised "Empty"
  | x :: rest => Ok (x, rest)
  end.
End BoundedQueue.

(** ** Detections and the codec *)

(** Corner-form box [x1, y1, x2, y2]. *)
Record Box := { bx1 : Q; by1 : Q; bx2 : Q; by2 : Q }.

(** A detection dict [{"box", "score", "class_id"}]. *)
Record Detection := { box : Box; score : Q; class_id : Z }.

Class Cv2 (Image : Type) := {
  (** [cv2.imdecode(np.frombuffer(jb, np.uint8), cv2.IMREAD_COLOR)]:
      [Ok None] when the buffer is not an image. *)
  imdecode : bytes -> exc (option Image);
  (** [cv2.imencode(".jpg", img, [IMWRITE_JPEG_QUALITY, q])]: the bytes
      when the returned flag is true, [Ok None] when it is false; the call
      raises on an image that cannot be encoded at all (an empty one). *)
  cv2_imencode : Z -> Image -> exc (option bytes);
  (** [img.shape[:2]], that is (H, W). *)
  shape : Image -> Z * Z;
  (** [img[y1:y2, x1:x2].copy()]. *)
  slice : Image -> Z -> Z -> Z -> Z -> Image;
  (** Lines 878-889: the boxes, labels and banner drawn on a copy of the
      frame for the smoke alert.  [cv2.rectangle] raises when a corner does
      not fit its integer type. *)
  cv2_draw_smoke : Image -> list Detection -> Q -> exc Image;
  (** Lines 580-589: the box, label and banner drawn on a copy of the best
      ROI of a job; it raises like the smoke drawing. *)
  draw_fire : Image -> Box -> Q -> exc Image;
  (** Lines 981-1007: the boxes and banners drawn on the live frame, given
      the smoke detections, the smoke banner (maximal confidence and
      counter) when smoke is confirmed and the fire banner (time left on
      hold) when fire is held. *)
  draw_overlay : Image -> list Detection -> option (Q * Z) -> option Q
                 -> exc Image;
  (** [cv2.imwrite(fp, img, ...)]. *)
  imwrite : string -> Image -> exc bool
}.

(** [cv2.imencode] inside a [try] block whose handler does what a false
    flag does: the bytes, if any. *)
Definition imencode {Image : Type} `{Cv2 Image} (quality : Z) (img : Image)
    : option bytes :=
  match cv2_imencode quality img with
  | Ok r => r
  | Raised _ => None
  end.

(** The alert frame when its drawing does not raise (the frame itself
    stands for the case that it does). *)
Definition draw_smoke {Image : Type} `{Cv2 Image} (frame : Image)
    (smoke_dets : list Detection) (smoke_max : Q) : Image :=
  match cv2_draw_smoke frame smoke_dets smoke_max with
  | Ok img => img
  | Raised _ => frame
  end.

(** ** TelegramAlerter *)

Inductive Kind := Smoke | Fire.

(** The caption text, by its variable parts (the clock text is left out). *)
Record Caption := {
  cap_kind : Kind;
  cap_confidence : Q;
  cap_num_boxes : Z;
  cap_location : option (Q * Q)
}.

(** A queued task [(self._send_photo_sync, (photo_bytes, caption), {})]. *)
Record Task := { photo_bytes : bytes; caption : Caption }.

Record TelegramAlerter := {
  bot_token : option string;
  chat_id : option string;
  smoke_cooldown : Q;
  fire_cooldown : Q;
  min_confidence : Q;
  _last_smoke_time : Q;
  _last_fire_time : Q;
  _queue : list Task;
  enabled : bool
}.

Definition upper_ascii (c : ascii) : ascii :=
  let n := nat_of_ascii c in
  if ((97 <=? n) && (n <=? 122))%nat then ascii_of_nat (n - 32) else c.

Fixpoint upper (s : string) : string :=
  match s with
  | EmptyString => EmptyString
  | String c rest => String (upper_ascii c) (upper rest)
  end.

(** [needle in hay]. *)
Fixpoint contains (needle hay : string) : bool :=
  prefix needle hay ||
  match hay with
  | EmptyString => false
  | String _ rest => contains needle rest
  end.

(** [not s] for a value that is [None] or a string. *)
Definition falsy (s : option string) : bool :=
  match s with
  | None => true
  | Some EmptyString => true
  | Some _ => false
  end.

Definition str (s : option string) : string :=
  match s with
  | None => "None"
  | Some s => s
  end.

Definition _validate (HAS_REQUESTS : bool) (token chat : option string) : bool :=
  if negb HAS_REQUESTS then false
  else if falsy token || contains "YOUR" (upper (str token)) then false
  else if falsy chat || contains "YOUR" (upper (str chat)) then false
  else true.

(** [TelegramAlerter.__init__]. *)
Definition TelegramAlerter_init (HAS_REQUESTS : bool) (token chat : option string)
    (smoke_cd fire_cd min_conf : Q) : TelegramAlerter :=
  {| bot_token := token; chat_id := chat;
     smoke_cooldown := smoke_cd; fire_cooldown := fire_cd;
     min_confidence := min_conf;
     _last_smoke_time := 0; _last_fire_time := 0;
     _queue := [];
     enabled := _validate HAS_REQUESTS token chat |}.

Definition set_last_smoke_time (self : TelegramAlerter) (t : Q) : TelegramAlerter :=
  {| bot_token := bot_token self; chat_id := chat_id self;
     smoke_cooldown := smoke_cooldown self; fire_cooldown := fire_cooldown self;
     min_confidence := min_confidence self;
     _last_smoke_time := t; _last_fire_time := _last_fire_time self;
     _queue := _queue self; enabled := enabled self |}.

Definition set_last_fire_time (self : TelegramAlerter) (t : Q) : TelegramAlerter :=
  {| bot_token := bot_token self; chat_id := chat_id self;
     smoke_cooldown := smoke_cooldown self; fire_cooldown := fire_cooldown self;
     min_confidence := min_confidence self;
     _last_smoke_time := _last_smoke_time self; _last_fire_time := t;
     _queue := _queue self; enabled := enabled self |}.

Definition set_queue (self : TelegramAlerter) (q : list Task) : TelegramAlerter :=
  {| bot_token := bot_token self; chat_id := chat_id self;
     smoke_cooldown := smoke_cooldown self; fire_cooldown := fire_cooldown self;
     min_confidence := min_confidence self;
     _last_smoke_time := _last_smoke_time self;
     _last_fire_time := _last_fire_time self;
     _queue := q; enabled := enabled self |}.

(** The caption's location line is added only when both are given. *)
Definition location (lat lon : option Q) : option (Q * Q) :=
  match lat, lon with
  | Some a, Some o => Some (a, o)
  | _, _ => None
  end.

(** One round of [_send_worker]: the oldest task leaves the queue (its
    delivery is a network effect outside the model). *)
Definition _send_worker_step (self : TelegramAlerter) : TelegramAlerter :=
  match get_nowait (_queue self) with
  | Ok (_, rest) => set_queue self rest
  | Raised _ => self
  end.

Section Alerter.
Context {Image : Type} `{Cv2 Image}.

(** [send_smoke_alert]; [now] is the reading of [time.time()]. *)
Definition send_smoke_alert (self : TelegramAlerter) (now : Q)
    (frame_bgr : Image) (confidence : Q) (num_boxes : Z)
    (lat lon : option Q) : bool * TelegramAlerter :=
  if negb (enabled self) then (false, self)
  else if Qltb confidence (min_confidence self) then (false, self)
  else if Qltb (now - _last_smoke_time self) (smoke_cooldown self)
  then (false, self)
  else
    let self := set_last_smoke_time self now in
    match imencode 85 frame_bgr with
    | None => (false, self)
    | Some jpeg =>
        let cap := {| cap_kind := Smoke; cap_confidence := confidence;
                      cap_num_boxes := num_boxes;
                      cap_location := location lat lon |} in
        match put_nowait 10 (_queue self)
                {| photo_bytes := jpeg; caption := cap |} with
        | Ok q => (true, set_queue self q)
        | Raised _ => (false, self)
        end
    end.

(** [send_fire_alert]. *)
Definition send_fire_alert (self : TelegramAlerter) (now : Q)
    (frame_bgr : Image) (confidence : Q) (num_boxes : Z)
    (lat lon : option Q) : bool * TelegramAlerter :=
  if negb (enabled self) then (false, self)
  else if Qltb confidence (min_confidence self) then (false, self)
  else if Qltb (now - _last_fire_time self) (fire_cooldown self)
  then (false, self)
  else
    let self := set_last_fire_time self now in
    match imencode 90 frame_bgr with
    | None => (false, self)
    | Some jpeg =>
        let cap := {| cap_kind := Fire; cap_confidence := confidence;
                      cap_num_boxes := num_boxes;
                      cap_location := location lat lon |} in
        match put_nowait 10 (_queue self)
                {| photo_bytes := jpeg; caption := cap |} with
        | Ok q => (true, set_queue self q)
        | Raised _ => (false, self)
        end
    end.

(** The contract [enqueue(kind, ...)] of the two methods. *)
Definition enqueue (kind : Kind) :=
  match kind with
  | Smoke => send_smoke_alert
  | Fire => send_fire_alert
  end.
End Alerter.

Definition cooldown_of (kind : Kind) (self : TelegramAlerter) : Q :=
  match kind with
  | Smoke => smoke_cooldown self
  | Fire => fire_cooldown self
  end.

Definition last_time_of (kind : Kind) (self : TelegramAlerter) : Q :=
  match kind with
  | Smoke => _last_smoke_time self
  | Fire => _last_fire_time self
  end.

Definition set_last_time (kind : Kind) :=
  match kind with
  | Smoke => set_last_smoke_time
  | Fire => set_last_fire_time
  end.

Definition quality_of (kind : Kind) : Z :=
  match kind with
  | Smoke => 85
  | Fire => 90
  end.

(** ** Postprocess: NMS and decode *)

Local Open Scope Q_scope.

(** [areas = (x2 - x1 + 1) * (y2 - y1 + 1)]. *)
Definition area (b : Box) : Q := (bx2 b - bx1 b + 1) * (by2 b - by1 b + 1).

(** [w * h] of the intersection of two boxes, as the loop of [nms_xyxy]
    computes it. *)
Definition inter (a b : Box) : Q :=
  let xx1 := Qmax (bx1 a) (bx1 b) in
  let yy1 := Qmax (by1 a) (by1 b) in
  let xx2 := Qmin (bx2 a) (bx2 b) in
  let yy2 := Qmin (by2 a) (by2 b) in
  let w := Qmax 0 (xx2 - xx1 + 1) in
  let h := Qmax 0 (yy2 - yy1 + 1) in
  w * h.

(** [iou <= iou_thres] for [iou = inter / (areas[i] + areas[j] - inter)].
    numpy does not raise on a zero denominator: the quotient is NaN or
    infinite and the comparison is false. *)
Definition iou_le (iou_thres : Q) (a b : Box) : bool :=
  let denom := area a + area b - inter a b in
  if Qeq_bool denom 0 then false
  else Qle_bool (inter a b / denom) iou_thres.

(** [scores.argsort()] with numpy's default kind: the indices of the
    scores in ascending order of score.  numpy does not say in which
    order it leaves the indices of equal scores (the default sort is not
    stable, and which algorithm runs depends on the build, the element
    type and the length), so the sort is part of the environment: any
    function that returns a permutation of the indices along which the
    score never decreases. *)
Class Numpy := {
  argsort : list Q -> list nat;
  argsort_permutes :
    forall scores, Permutation (argsort scores) (seq 0 (length scores));
  argsort_ascends :
    forall scores,
      StronglySorted (fun i j => nth i scores 0 <= nth j scores 0)
                     (argsort scores)
}.

(** Two sorts that numpy is free to run.  The insertion sort of its
    quicksort on short arrays keeps equal scores in input order. *)
Fixpoint insert_idx (scores : list Q) (i : nat) (sorted : list nat) : list nat :=
  match sorted with
  | [] => [i]
  | k :: rest =>
      if Qltb (nth i scores 0) (nth k scores 0)
      then i :: k :: rest
      else k :: insert_idx scores i rest
  end.

Definition stable_argsort (scores : list Q) : list nat :=
  fold_left (fun sorted i => insert_idx scores i sorted)
            (seq 0 (length scores)) [].

(** A sort that leaves equal scores in the reverse of their input order. *)
Definition reversing_argsort (scores : list Q) : list nat :=
  rev (stable_argsort (map Qopp scores)).

Definition zero_box : Box := {| bx1 := 0; by1 := 0; bx2 := 0; by2 := 0 |}.

Section NMS.
Variable boxes : list Box.
Variable iou_thres : Q.

(** Row [i] of [boxes] (the only caller passes as many boxes as scores). *)
Definition box_at (i : nat) : Box := nth i boxes zero_box.

(** The [while order.size > 0] loop: [order[0]] is kept, and of the rest
    those whose IoU with it is at most the threshold stay in [order]. *)
Equations? nms_loop (order : list nat) : list nat by wf (length order) lt :=
  nms_loop [] := [];
  nms_loop (i :: rest) :=
    i :: nms_loop (filter (fun j => iou_le iou_thres (box_at i) (box_at j)) rest).
Proof.
  apply Nat.lt_succ_r, filter_length_le.
Qed.
End NMS.

Definition nms_xyxy {np : Numpy} (boxes : list Box) (scores : list Q)
    (iou_thres : Q) : list nat :=
  match boxes with
  | [] => []
  | _ :: _ => nms_loop boxes iou_thres (rev (argsort scores))
  end.

(** One column of the raw output [arr[0, :, k]]: cx, cy, w, h, conf and,
    when the tensor has at least 6 rows, the class. *)
Record Column := {
  cx : Q; cy : Q; cw : Q; ch : Q; conf : Q; cls : Q
}.

(** The raw output of shape [1, cdim, n]. *)
Record Tensor := { cdim : Z; columns : list Column }.

(** [x.astype(np.int32)] of a float: truncation toward zero; a value
    outside the range of int32 comes out as the least int32 (what the
    conversion instruction of the processor returns). *)
Definition astype_int32 (x : Q) : Z :=
  let z := int_of_float x in
  if ((-2147483648 <=? z) && (z <=? 2147483647))%Z then z else (-2147483648)%Z.

Definition cls_id (t : Tensor) (c : Column) : Z :=
  if (6 <=? cdim t)%Z then astype_int32 (cls c) else 0%Z.

Definition decode_yolov11 {np : Numpy} (out : option Tensor) (conf_thres : Q)
    (img_in_wh img_out_wh : Z * Z) (target_class_id : option Z)
    (iou_thres : Q) : exc (list Detection) :=
  match out with
  | None => Ok []
  | Some arr =>
      match columns arr with
      | [] => Ok []
      | _ :: _ =>
          if (cdim arr <? 5)%Z then Raised "IndexError" else
          let keep c :=
            Qle_bool conf_thres (conf c) &&
            match target_class_id with
            | Some t => if (6 <=? cdim arr)%Z then (cls_id arr c =? t)%Z else true
            | None => true
            end in
          match filter keep (columns arr) with
          | [] => Ok []
          | kept =>
              let in_w := inject_Z (fst img_in_wh) in
              let in_h := inject_Z (snd img_in_wh) in
              let out_w := inject_Z (fst img_out_wh) in
              let out_h := inject_Z (snd img_out_wh) in
              if Qeq_bool in_w 0 || Qeq_bool in_h 0
              then Raised "ZeroDivisionError" else
              let sx := out_w / in_w in
              let sy := out_h / in_h in
              let to_box c :=
                {| bx1 := (cx c - cw c / 2) * sx;
                   by1 := (cy c - ch c / 2) * sy;
                   bx2 := (cx c + cw c / 2) * sx;
                   by2 := (cy c + ch c / 2) * sy |} in
              let boxes := map to_box kept in
              let confs := map conf kept in
              let keep_idx := nms_xyxy boxes confs iou_thres in
              Ok (map (fun i =>
                         {| box := nth i boxes zero_box;
                            score := nth i confs 0;
                            class_id :=
                              nth i (map (cls_id arr) kept) 0%Z |})
                      keep_idx)
          end
      end
  end.

(** ** ROI utilities *)

Definition union_boxes (dets : list Detection) : option Box :=
  match dets with
  | [] => None
  | d :: rest =>
      Some {| bx1 := fold_left Qmin (map (fun d => bx1 (box d)) rest) (bx1 (box d));
              by1 := fold_left Qmin (map (fun d => by1 (box d)) rest) (by1 (box d));
              bx2 := fold_left Qmax (map (fun d => bx2 (box d)) rest) (bx2 (box d));
              by2 := fold_left Qmax (map (fun d => by2 (box d)) rest) (by2 (box d)) |}
  end.

Definition expand_box (b : Box) (margin : Q) (W H : Z) : Box :=
  let bw := bx2 b - bx1 b in
  let bh := by2 b - by1 b in
  let x1 := bx1 b - bw * margin in
  let y1 := by1 b - bh * margin in
  let x2 := bx2 b + bw * margin in
  let y2 := by2 b + bh * margin in
  let x1 := Qmax 0 (Qmin (inject_Z (W - 1)) x1) in
  let y1 := Qmax 0 (Qmin (inject_Z (H - 1)) y1) in
  let x2 := Qmax 0 (Qmin (inject_Z (W - 1)) x2) in
  let y2 := Qmax 0 (Qmin (inject_Z (H - 1)) y2) in
  if Qle_bool x2 (x1 + 2) || Qle_bool y2 (y1 + 2)
  then {| bx1 := 0; by1 := 0;
          bx2 := inject_Z (W - 1); by2 := inject_Z (H - 1) |}
  else {| bx1 := x1; by1 := y1; bx2 := x2; by2 := y2 |}.

Definition crop_roi {Image : Type} `{Cv2 Image} (frame_bgr : Image)
    (roi_box : Box) : Image :=
  slice frame_bgr (int_of_float (by1 roi_box)) (int_of_float (by2 roi_box))
        (int_of_float (bx1 roi_box)) (int_of_float (bx2 roi_box)).

(** ** Jobs and results *)

(** The ["meta"] dict of a job. *)
Record Meta := {
  ts : Q;
  roi_box : Box;
  meta_smoke_max : Q;
  meta_smoke_consec : Z
}.

(** A job dict [{"rois_jpeg": burst, "meta": {...}}]. *)
Record Job := { rois_jpeg : list bytes; meta : Meta }.

(** The payload of a result dict with ["ok": True]. *)
Record FireResult := {
  fire_hits : Z;
  best_score : Q;
  saved : list string;
  res_meta : Meta;
  t_job : Q;
  t_done : Q
}.

(** A result dict: [{"ok": True, ...}] or [{"ok": False, "error": ...}]. *)
Inductive Result :=
| ResOk (r : FireResult)
| ResErr (error : string).

(** ** Fire worker (separate process) *)

(** The clock readings taken while one job is handled, and the number of
    alert tasks the alerter's sender thread delivered since the last job. *)
Record WorkerClock := {
  wc_t_job : Q;
  wc_t_alert : Q;
  wc_t_done : Q;
  wc_sent : nat
}.

Section FireWorker.
Context {Image : Type} `{Cv2 Image} {np : Numpy}.

(** [best = {"score", "img", "box"}]. *)
Record Best := {
  b_score : Q;
  b_img : option Image;
  b_box : option Box
}.

Variable fire_input : Z.
Variable fire_conf : Q.
Variable snap_count : Z.
Variable iou_thres : Q.
Variable fire_class_id : option Z.

(** [fire_trt.infer], the loaded engine. *)
Variable infer : Image -> exc Tensor.

(** [max(dets, key=lambda d: d["score"])]: the first detection of maximal
    score. *)
Definition max_by_score (d : Detection) (rest : list Detection) : Detection :=
  fold_left (fun top d => if Qltb (score top) (score d) then d else top) rest d.

(** The detections of one burst frame that count: the [try] body up to
    the area filter.  [Ok None] is the [continue] on an undecodable frame. *)
Definition fire_dets (jb : bytes) : exc (option (Image * list Detection)) :=
  match imdecode jb with
  | Raised e => Raised e
  | Ok None => Ok None
  | Ok (Some roi) =>
      let '(H, W) := shape roi in
      match infer roi with
      | Raised e => Raised e
      | Ok out =>
          let tcls :=
            match fire_class_id with
            | Some c => if (cdim out =? 6)%Z then Some c else None
            | None => None
            end in
          match decode_yolov11 (Some out) fire_conf (fire_input, fire_input)
                  (W, H) tcls iou_thres with
          | Raised e => Raised e
          | Ok dets =>
              Ok (Some (roi,
                        filter (fun d =>
                                  Qltb 4 ((bx2 (box d) - bx1 (box d)) *
                                          (by2 (box d) - by1 (box d))))
                               dets))
          end
      end
  end.

(** One round of [for jb in rois_jpeg], on [(fire_hits, best)]; the list
    [results] that the source also appends to is never read. *)
Definition fire_frame (acc : Z * Best) (jb : bytes) : Z * Best :=
  let '(hits, best) := acc in
  match fire_dets jb with
  | Raised _ => acc
  | Ok None => acc
  | Ok (Some (roi, [])) => acc
  | Ok (Some (roi, d :: rest)) =>
      let top := max_by_score d rest in
      ((hits + 1)%Z,
       if Qltb (b_score best) (score top)
       then {| b_score := score top; b_img := Some roi;
               b_box := Some (box top) |}
       else best)
  end.

Definition snap_name (i : nat) : string :=
  ("snap_" ++ DecimalString.NilEmpty.string_of_uint (Nat.to_uint i) ++ ".jpg")%string.

(** The snapshot loop: a name is recorded unless [cv2.imwrite] raised. *)
Definition write_snaps (snap_dir : string) (img : Image) : list string :=
  flat_map (fun i =>
              let fn := snap_name i in
              match imwrite (snap_dir ++ "/" ++ fn)%string img with
              | Ok _ => [fn]
              | Raised _ => []
              end)
           (seq 0 (Z.to_nat snap_count)).

(** The body of [while True] for one job that is not the sentinel
    ([best["img"]] and [best["box"]] are only ever set together).  The
    drawing on the best ROI (lines 580-589) is outside any [try]: when it
    raises, the exception leaves [fire_worker_main] before the snapshots,
    the alert and [out_q.put]. *)
Definition fire_worker_job (snap_dir : string) (tg : option TelegramAlerter)
    (job : Job) (clk : WorkerClock)
    : exc (Result * option TelegramAlerter) :=
  let '(hits, best) :=
    fold_left fire_frame (rois_jpeg job)
              (0%Z, {| b_score := 0; b_img := None; b_box := None |}) in
  match b_img best, b_box best with
  | Some roi, Some bx =>
      match draw_fire roi bx (b_score best) with
      | Raised e => Raised e
      | Ok img =>
          let saved := write_snaps snap_dir img in
          let tg :=
            match tg with
            | Some a =>
                if enabled a
                then Some (snd (send_fire_alert a (wc_t_alert clk) img
                                  (b_score best) hits None None))
                else tg
            | None => None
            end in
          Ok (ResOk {| fire_hits := hits; best_score := b_score best;
                       saved := saved; res_meta := meta job;
                       t_job := wc_t_job clk; t_done := wc_t_done clk |},
              tg)
      end
  | _, _ =>
      Ok (ResOk {| fire_hits := hits; best_score := b_score best;
                   saved := []; res_meta := meta job;
                   t_job := wc_t_job clk; t_done := wc_t_done clk |},
          tg)
  end.

(** A burst frame for which the loop counts a hit. *)
Definition frame_hit (jb : bytes) : bool :=
  match fire_dets jb with
  | Ok (Some (_, _ :: _)) => true
  | _ => false
  end.

(** A burst frame with at least one qualifying detection, as the
    specification words it: the frame decodes, the engine runs on it, its
    output decodes, and one of the detections has an area above 4. *)
Definition hit_as_specified (jb : bytes) : bool :=
  match imdecode jb with
  | Ok (Some roi) =>
      match infer roi with
      | Ok out =>
          let tcls :=
            match fire_class_id with
            | Some c => if (cdim out =? 6)%Z then Some c else None
            | None => None
            end in
          match decode_yolov11 (Some out) fire_conf (fire_input, fire_input)
                  (snd (shape roi), fst (shape roi)) tcls iou_thres with
          | Ok dets =>
              existsb (fun d => Qltb 4 ((bx2 (box d) - bx1 (box d)) *
                                        (by2 (box d) - by1 (box d))))
                      dets
          | Raised _ => false
          end
      | Raised _ => false
      end
  | _ => false
  end.

(** A job on which the drawing raises, and a job for which the worker
    puts a result, whatever the snapshot folder, the alerter and the
    clock. *)
Definition job_raises (job : Job) : Prop :=
  forall snap_dir tg clk,
    exists e, fire_worker_job snap_dir tg job clk = Raised e.

Definition job_returns (job : Job) : Prop :=
  forall snap_dir tg clk,
    exists res tg', fire_worker_job snap_dir tg job clk = Ok (res, tg').

(** The [while True] loop over what [job_q.get()] returns: [None] is the
    sentinel; when the inbox is used up the worker waits and emits
    nothing more; an exception that leaves the body of the loop ends the
    process.  The value is the sequence of [out_q.put]s. *)
Fixpoint fire_worker_loop (snap_dir : string) (tg : option TelegramAlerter)
    (inbox : list (option Job * WorkerClock)) : list Result :=
  match inbox with
  | [] => []
  | (None, _) :: _ => []
  | (Some job, clk) :: rest =>
      let tg := option_map (Nat.iter (wc_sent clk) _send_worker_step) tg in
      match fire_worker_job snap_dir tg job clk with
      | Raised _ => []
      | Ok (res, tg) => res :: fire_worker_loop snap_dir tg rest
      end
  end.
End FireWorker.

(** [fire_worker_main]; [loaded] is the outcome of
    [TRTInfer(fire_engine, fire_input)]. *)
Definition fire_worker_main {Image : Type} `{Cv2 Image} {np : Numpy}
    (loaded : exc (Image -> exc Tensor)) (fire_input : Z) (fire_conf : Q)
    (inbox : list (option Job * WorkerClock)) (snap_dir : string)
    (snap_count : Z) (iou_thres : Q) (fire_class_id : option Z)
    (HAS_REQUESTS : bool) (telegram_token telegram_chat : option string)
    : list Result :=
  match loaded with
  | Raised e => [ResErr ("Failed to load fire engine: " ++ e)%string]
  | Ok fire_trt =>
      let tg :=
        if negb (falsy telegram_token) && negb (falsy telegram_chat)
        then Some (TelegramAlerter_init HAS_REQUESTS telegram_token
                     telegram_chat 30 10 (3 # 10))
        else None in
      fire_worker_loop fire_input fire_conf snap_count iou_thres
        fire_class_id fire_trt snap_dir tg inbox
  end.

(** ** Main loop *)

(** The options of [args] the loop body reads. *)
Module Args.
Record t := {
  smoke_min_area : Q;
  smoke_consec : Z;
  burst_frames : Z;
  burst_stride : Z;
  roi_margin : Q;
  fire_confirm : Z;
  fire_check_cooldown : Q;
  fire_hold : Q
}.
End Args.

(** The control variables of [run_loop], the ring buffer, the job queue
    and the alerter of the main process. *)
Record LoopState := {
  smoke_consec : Z;
  last_fire_check : Q;
  fire_hold_until : Q;
  last_fire_confirm : Q;
  last_fire_snapshot : Q;
  last_smoke_telegram : Q;
  smoke_alert_sent : bool;
  ring : list bytes;
  job_q : list Job;
  telegram_alerter : option TelegramAlerter
}.

Definition init_state (alerter : option TelegramAlerter) : LoopState :=
  {| smoke_consec := 0; last_fire_check := 0; fire_hold_until := 0;
     last_fire_confirm := 0; last_fire_snapshot := 0;
     last_smoke_telegram := 0; smoke_alert_sent := false;
     ring := []; job_q := []; telegram_alerter := alerter |}.

(** What one iteration computes besides the state: the locals that the
    status document and the overlay are filled from, and whether the fire
    check branch was taken and its job entered the queue. *)
Record TickOut := {
  has_smoke : bool;
  smoke_confirmed : bool;
  smoke_max : Q;
  smoke_boxes : Z;
  should_check_fire : bool;
  fire_hit : Z;
  fire_best : Q;
  has_fire : bool;
  fire_check : option Job;
  job_queued : bool
}.

(** [collections.deque(maxlen=n).append]. *)
Definition deque_append {A : Type} (maxlen : nat) (d : list A) (x : A) : list A :=
  if (length d <? maxlen)%nat then d ++ [x] else tl d ++ [x].

(** Lines 863-869: the consecutive counter, the alert flag and
    [smoke_confirmed]. *)
Definition confirmation_gate (N : Z) (has_smoke : bool) (consec : Z)
    (alert_sent : bool) : Z * bool * bool :=
  let '(consec, alert_sent) :=
    if has_smoke then ((consec + 1)%Z, alert_sent) else (0%Z, false) in
  (consec, alert_sent, (N <=? consec)%Z).

(** Lines 850-859: the detections of at least the minimum area, and the
    greatest of their scores. *)
Definition filter_smoke (smoke_min_area : Q) (W H : Z) (dets : list Detection)
    : list Detection * Q :=
  let min_area := smoke_min_area * inject_Z (W * H) in
  let smoke_dets :=
    filter (fun d =>
              Qle_bool min_area
                (Qmax 0 (bx2 (box d) - bx1 (box d)) *
                 Qmax 0 (by2 (box d) - by1 (box d))))
           dets in
  (smoke_dets,
   fold_left (fun m d => if Qltb m (score d) then score d else m) smoke_dets 0).

(** The timers that the drain loop assigns. *)
Definition set_fire_timers (st : LoopState) (check hold confirm snapshot : Q)
    : LoopState :=
  {| smoke_consec := smoke_consec st;
     last_fire_check := check; fire_hold_until := hold;
     last_fire_confirm := confirm; last_fire_snapshot := snapshot;
     last_smoke_telegram := last_smoke_telegram st;
     smoke_alert_sent := smoke_alert_sent st;
     ring := ring st; job_q := job_q st;
     telegram_alerter := telegram_alerter st |}.

(** Lines 907-920: what one result taken from [out_q] does, on the state
    and on [(fire_hit, fire_best)]. *)
Definition drain_result (args : Args.t) (now : Q)
    (acc : LoopState * (Z * Q)) (res : Result) : LoopState * (Z * Q) :=
  match res with
  | ResOk r =>
      let st := fst acc in
      let st :=
        if (Args.fire_confirm args <=? fire_hits r)%Z
        then
          match saved r with
          | [] =>
              set_fire_timers st now (now + Args.fire_hold args) now
                (last_fire_snapshot st)
          | _ :: _ =>
              set_fire_timers st now (now + Args.fire_hold args) now now
          end
        else
          set_fire_timers st now (fire_hold_until st) (last_fire_confirm st)
            (last_fire_snapshot st) in
      (st, (fire_hits r, best_score r))
  | ResErr _ => acc
  end.

(** Lines 902-922: [out_q.get_nowait()] until it raises [Empty]. *)
Definition drain (args : Args.t) (now : Q) (st : LoopState)
    (out_q : list Result) : LoopState * (Z * Q) :=
  fold_left (drain_result args now) out_q (st, (0%Z, 0)).

Section MainLoop.
Context {Image : Type} `{Cv2 Image}.

(** What the environment supplies to one iteration in which [cap.read()]
    returned a frame. *)
Record Tick := {
  frame : Image;
  (** [decode_yolov11(smoke_trt.infer(frame), ...)]. *)
  dets : list Detection;
  (** [now = time.time()]. *)
  now : Q;
  (** The reading of the clock inside [send_smoke_alert]. *)
  t_alert : Q;
  (** The results that [out_q] holds when it is drained. *)
  out_q : list Result;
  (** The jobs that the worker took from [job_q] since the last iteration. *)
  jobs_taken : nat;
  (** The alert tasks that the sender thread delivered since then. *)
  alerts_sent : nat
}.

(** The [try] body of the burst loop for one ring entry: the bytes that
    are appended, if any. *)
Definition burst_sample (roi : Box) (jb : bytes) : option bytes :=
  match imdecode jb with
  | Raised _ => None
  | Ok None => None
  | Ok (Some fr) => imencode 85 (crop_roi fr roi)
  end.

(** Lines 939-953: [while idx >= 0 and taken < need]. *)
Equations? burst_walk (buf : list bytes) (roi : Box) (stride need : Z)
    (idx taken : Z) (burst : list bytes) : list bytes
    by wf (Z.to_nat (idx + 1)) lt :=
  burst_walk buf roi stride need idx taken burst
    with Z_le_dec 0 idx, Z_lt_dec taken need => {
    | left _, left _ with burst_sample roi (nth (Z.to_nat idx) buf []) => {
      | Some jbr :=
          burst_walk buf roi stride need (idx - Z.max 1 stride)
            (taken + 1) (burst ++ [jbr]);
      | None :=
          burst_walk buf roi stride need (idx - Z.max 1 stride) taken burst };
    | _, _ := burst }.
Proof.
  all: lia.
Qed.

(** Lines 927-935: the ROI of the burst, the union of the smoke boxes
    (the whole frame when there is none) expanded by the margin. *)
Definition burst_roi (args : Args.t) (frame : Image)
    (smoke_dets : list Detection) : Box :=
  let '(H, W) := shape frame in
  let ub :=
    match union_boxes smoke_dets with
    | Some ub => ub
    | None => {| bx1 := 0; by1 := 0;
                 bx2 := inject_Z (W - 1); by2 := inject_Z (H - 1) |}
    end in
  expand_box ub (Args.roi_margin args) W H.

(** Lines 927-959: the ROI and the burst.  The fallback encodes the
    cropped live frame outside any [try]: an exception of [cv2.imencode]
    there leaves [run_loop]. *)
Definition build_burst (args : Args.t) (buf : list bytes) (frame : Image)
    (smoke_dets : list Detection) : exc (Box * list bytes) :=
  let '(H, W) := shape frame in
  let ub :=
    match union_boxes smoke_dets with
    | Some ub => ub
    | None => {| bx1 := 0; by1 := 0;
                 bx2 := inject_Z (W - 1); by2 := inject_Z (H - 1) |}
    end in
  let roi_box := expand_box ub (Args.roi_margin args) W H in
  let burst :=
    burst_walk buf roi_box (Args.burst_stride args) (Args.burst_frames args)
      (Z.of_nat (length buf) - 1) 0 [] in
  match burst with
  | [] =>
      match cv2_imencode 85 (crop_roi frame roi_box) with
      | Raised e => Raised e
      | Ok (Some jbr) => Ok (roi_box, [jbr])
      | Ok None => Ok (roi_box, [])
      end
  | _ :: _ => Ok (roi_box, burst)
  end.

(** The ROI and the burst of an iteration that goes on: what
    [build_burst] returns, with an exception of the fallback taken as a
    false flag. *)
Definition burst_or_empty (args : Args.t) (buf : list bytes) (frame : Image)
    (smoke_dets : list Detection) : Box * list bytes :=
  let '(H, W) := shape frame in
  let ub :=
    match union_boxes smoke_dets with
    | Some ub => ub
    | None => {| bx1 := 0; by1 := 0;
                 bx2 := inject_Z (W - 1); by2 := inject_Z (H - 1) |}
    end in
  let roi_box := expand_box ub (Args.roi_margin args) W H in
  let burst :=
    burst_walk buf roi_box (Args.burst_stride args) (Args.burst_frames args)
      (Z.of_nat (length buf) - 1) 0 [] in
  (roi_box,
   match burst with
   | [] =>
       match imencode 85 (crop_roi frame roi_box) with
       | Some jbr => [jbr]
       | None => []
       end
   | _ :: _ => burst
   end).

(** One iteration of [while True] for a frame that was read, as it goes
    when no exception leaves it: the drawing of the alert frame, the
    fallback encoding of the burst and the overlay are outside any [try],
    and [run_loop_step] below says when they raise. *)
Definition run_loop_iter (args : Args.t) (st : LoopState) (tk : Tick)
    : LoopState * TickOut :=
  let '(H, W) := shape (frame tk) in
  let job_q := skipn (jobs_taken tk) (job_q st) in
  let alerter :=
    option_map (Nat.iter (alerts_sent tk) _send_worker_step)
               (telegram_alerter st) in
  let ring :=
    match imencode 80 (frame tk) with
    | Some jb => deque_append 60 (ring st) jb
    | None => ring st
    end in
  let '(smoke_dets, smoke_max) :=
    filter_smoke (Args.smoke_min_area args) W H (dets tk) in
  let has_smoke := negb (length smoke_dets =? 0)%nat in
  let '(smoke_consec, smoke_alert_sent, smoke_confirmed) :=
    confirmation_gate (Args.smoke_consec args) has_smoke (smoke_consec st)
      (smoke_alert_sent st) in
  let now := now tk in
  let '(alerter, smoke_alert_sent, last_smoke_telegram) :=
    match alerter with
    | Some a =>
        if smoke_confirmed && negb smoke_alert_sent
        then
          let alert_frame := draw_smoke (frame tk) smoke_dets smoke_max in
          let '(sent, a) :=
            send_smoke_alert a (t_alert tk) alert_frame smoke_max
              (Z.of_nat (length smoke_dets)) None None in
          if sent then (Some a, true, now)
          else (Some a, smoke_alert_sent, last_smoke_telegram st)
        else (alerter, smoke_alert_sent, last_smoke_telegram st)
    | None => (alerter, smoke_alert_sent, last_smoke_telegram st)
    end in
  let should_check_fire :=
    smoke_confirmed &&
    Qle_bool (Args.fire_check_cooldown args) (now - last_fire_check st) in
  let '(drained, (fire_hit, fire_best)) := drain args now st (out_q tk) in
  let has_fire := Qltb now (fire_hold_until drained) in
  let '(fire_check, job_queued, job_q, last_fire_check) :=
    if should_check_fire && negb has_fire
    then
      let '(roi_box, burst) := burst_or_empty args ring (frame tk) smoke_dets in
      let job :=
        {| rois_jpeg := burst;
           meta := {| ts := now; roi_box := roi_box;
                      meta_smoke_max := smoke_max;
                      meta_smoke_consec := smoke_consec |} |} in
      match put_nowait 1 job_q job with
      | Ok q => (Some job, true, q, now)
      | Raised _ => (Some job, false, job_q, now)
      end
    else (None, false, job_q, last_fire_check drained) in
  ({| smoke_consec := smoke_consec;
      last_fire_check := last_fire_check;
      fire_hold_until := fire_hold_until drained;
      last_fire_confirm := last_fire_confirm drained;
      last_fire_snapshot := last_fire_snapshot drained;
      last_smoke_telegram := last_smoke_telegram;
      smoke_alert_sent := smoke_alert_sent;
      ring := ring; job_q := job_q; telegram_alerter := alerter |},
   {| has_smoke := has_smoke;
      smoke_confirmed := smoke_confirmed;
      smoke_max := smoke_max;
      smoke_boxes := Z.of_nat (length smoke_dets);
      should_check_fire := should_check_fire;
      fire_hit := fire_hit;
      fire_best := fire_best;
      has_fire := has_fire;
      fire_check := fire_check;
      job_queued := job_queued |}).

(** One iteration of [while True] for a frame that was read (lines
    828-1032), with the exceptions that leave it. *)
Definition run_loop_step (args : Args.t) (st : LoopState) (tk : Tick)
    : exc (LoopState * TickOut) :=
  let '(H, W) := shape (frame tk) in
  let job_q := skipn (jobs_taken tk) (job_q st) in
  let alerter :=
    option_map (Nat.iter (alerts_sent tk) _send_worker_step)
               (telegram_alerter st) in
  let ring :=
    match imencode 80 (frame tk) with
    | Some jb => deque_append 60 (ring st) jb
    | None => ring st
    end in
  let '(smoke_dets, smoke_max) :=
    filter_smoke (Args.smoke_min_area args) W H (dets tk) in
  let has_smoke := negb (length smoke_dets =? 0)%nat in
  let '(smoke_consec, smoke_alert_sent, smoke_confirmed) :=
    confirmation_gate (Args.smoke_consec args) has_smoke (smoke_consec st)
      (smoke_alert_sent st) in
  let now := now tk in
  let alerted :=
    match alerter with
    | Some a =>
        if smoke_confirmed && negb smoke_alert_sent
        then
          match cv2_draw_smoke (frame tk) smoke_dets smoke_max with
          | Raised e => Raised e
          | Ok alert_frame =>
              let '(sent, a) :=
                send_smoke_alert a (t_alert tk) alert_frame smoke_max
                  (Z.of_nat (length smoke_dets)) None None in
              if sent then Ok (Some a, true, now)
              else Ok (Some a, smoke_alert_sent, last_smoke_telegram st)
          end
        else Ok (alerter, smoke_alert_sent, last_smoke_telegram st)
    | None => Ok (alerter, smoke_alert_sent, last_smoke_telegram st)
    end in
  match alerted with
  | Raised e => Raised e
  | Ok (alerter, smoke_alert_sent, last_smoke_telegram) =>
      let should_check_fire :=
        smoke_confirmed &&
        Qle_bool (Args.fire_check_cooldown args) (now - last_fire_check st) in
      let '(drained, (fire_hit, fire_best)) := drain args now st (out_q tk) in
      let has_fire := Qltb now (fire_hold_until drained) in
      let submitted :=
        if should_check_fire && negb has_fire
        then
          match build_burst args ring (frame tk) smoke_dets with
          | Raised e => Raised e
          | Ok (roi_box, burst) =>
              let job :=
                {| rois_jpeg := burst;
                   meta := {| ts := now; roi_box := roi_box;
                              meta_smoke_max := smoke_max;
                              meta_smoke_consec := smoke_consec |} |} in
              match put_nowait 1 job_q job with
              | Ok q => Ok (Some job, true, q, now)
              | Raised _ => Ok (Some job, false, job_q, now)
              end
          end
        else Ok (None, false, job_q, last_fire_check drained) in
      match submitted with
      | Raised e => Raised e
      | Ok (fire_check, job_queued, job_q, last_fire_check) =>
          match draw_overlay (frame tk) smoke_dets
                  (if smoke_confirmed then Some (smoke_max, smoke_consec)
                   else None)
                  (if has_fire
                   then Some (Qmax 0 (fire_hold_until drained - now))
                   else None) with
          | Raised e => Raised e
          | Ok _ =>
              Ok ({| smoke_consec := smoke_consec;
                     last_fire_check := last_fire_check;
                     fire_hold_until := fire_hold_until drained;
                     last_fire_confirm := last_fire_confirm drained;
                     last_fire_snapshot := last_fire_snapshot drained;
                     last_smoke_telegram := last_smoke_telegram;
                     smoke_alert_sent := smoke_alert_sent;
                     ring := ring; job_q := job_q;
                     telegram_alerter := alerter |},
                  {| has_smoke := has_smoke;
                     smoke_confirmed := smoke_confirmed;
                     smoke_max := smoke_max;
                     smoke_boxes := Z.of_nat (length smoke_dets);
                     should_check_fire := should_check_fire;
                     fire_hit := fire_hit;
                     fire_best := fire_best;
                     has_fire := has_fire;
                     fire_check := fire_check;
                     job_queued := job_queued |})
          end
      end
  end.

(** Lines 850-859 on a frame: the smoke detections that pass the area
    filter and their best score. *)
Definition frame_smoke (args : Args.t) (tk : Tick) : list Detection * Q :=
  let '(H, W) := shape (frame tk) in
  filter_smoke (Args.smoke_min_area args) W H (dets tk).

(** The iterations of the loop over the frames that were read. *)
Fixpoint run_loop (args : Args.t) (st : LoopState) (ticks : list Tick)
    : LoopState * list TickOut :=
  match ticks with
  | [] => (st, [])
  | tk :: rest =>
      let '(st, o) := run_loop_iter args st tk in
      let '(st, outs) := run_loop args st rest in
      (st, o :: outs)
  end.

(** A qualifying frame: a detection of the primary stage passes the
    minimum-area filter. *)
Definition qualifying (args : Args.t) (tk : Tick) : bool :=
  let '(H, W) := shape (frame tk) in
  negb (length (fst (filter_smoke (Args.smoke_min_area args) W H (dets tk)))
        =? 0)%nat.

(** The burst as the specification words it: of the entries met from
    the newest at the given stride, the first [need] that decode, crop
    and encode. *)
Definition burst_spec (buf : list bytes) (roi : Box) (stride need : Z)
    (indices : list nat) : list bytes :=
  firstn (Z.to_nat need)
    (flat_map (fun i =>
                 match burst_sample roi (nth i buf []) with
                 | Some jbr => [jbr]
                 | None => []
                 end)
              indices).

(** The fallback as the specification words it: when the walk collected
    nothing, the burst is the cropped live frame. *)
Definition fallback_as_specified (args : Args.t) (buf : list bytes)
    (frame : Image) (smoke_dets : list Detection) : Prop :=
  let roi_box := burst_roi args frame smoke_dets in
  burst_walk buf roi_box (Args.burst_stride args) (Args.burst_frames args)
    (Z.of_nat (length buf) - 1) 0 [] = [] ->
  exists jbr,
    cv2_imencode 85 (crop_roi frame roi_box) = Ok (Some jbr) /\
    build_burst args buf frame smoke_dets = Ok (roi_box, [jbr]).
End MainLoop.

(** ** Order of consideration in NMS *)

(** [i] comes before [j] in the list [l]. *)
Fixpoint precedes (i j : nat) (l : list nat) : Prop :=
  match l with
  | [] => False
  | x :: rest => (x = i /\ In j rest) \/ precedes i j rest
  end.

(** Ascending order of the stable sort: by score, equal scores by input
    index. *)
Definition sorted_before (scores : list Q) (i j : nat) : Prop :=
  nth i scores 0 < nth j scores 0 \/
  (nth i scores 0 == nth j scores 0 /\ (i < j)%nat).

(** Order in which [nms_xyxy] considers the boxes: the score never
    increases. *)
Definition considered_before (scores : list Q) (i j : nat) : Prop :=
  nth j scores 0 <= nth i scores 0.

(** The tie rule as the specification words it: of two boxes of equal
    score the one that appears first in the input is considered first. *)
Definition first_seen_wins {np : Numpy} (scores : list Q) : Prop :=
  forall i j : nat,
    (i < j < length scores)%nat ->
    nth i scores 0 == nth j scores 0 ->
    precedes i j (rev (argsort scores)).

(** ** Codecs for examples *)

(** Images are their own bytes; the empty buffer neither decodes nor
    encodes (a false flag); every frame is 640 by 480; nothing raises. *)
#[local] Instance raw_codec : Cv2 bytes := {|
  imdecode jb := match jb with [] => Ok None | _ :: _ => Ok (Some jb) end;
  cv2_imencode _ img := match img with [] => Ok None | _ :: _ => Ok (Some img) end;
  shape _ := (480%Z, 640%Z);
  slice img _ _ _ _ := img;
  cv2_draw_smoke img _ _ := Ok img;
  draw_fire img _ _ := Ok img;
  draw_overlay img _ _ _ := Ok img;
  imwrite _ _ := Ok true
|}.

(** A codec that keeps the size of an image, (H, W), and raises where
    OpenCV does: on encoding an empty image, and on drawing a box one of
    whose corners does not fit a 32-bit integer.  An image of up to 255
    by 255 pixels encodes to its two sizes; indices of a slice are taken
    not to be negative. *)
Definition fits_int32 (x : Q) : bool :=
  ((-2147483648 <=? int_of_float x) && (int_of_float x <=? 2147483647))%Z.

Definition box_fits (b : Box) : bool :=
  fits_int32 (bx1 b) && fits_int32 (by1 b) &&
  fits_int32 (bx2 b) && fits_int32 (by2 b).

Definition span (lo hi n : Z) : Z := Z.max 0 (Z.min hi n - Z.min lo n).

#[local] Instance sized_codec : Cv2 (Z * Z) := {|
  imdecode jb :=
    match jb with
    | [h; w] => Ok (Some (Z.of_N (Byte.to_N h), Z.of_N (Byte.to_N w)))
    | _ => Ok None
    end;
  cv2_imencode _ img :=
    if ((fst img <=? 0) || (snd img <=? 0))%Z then Raised "cv2.error"
    else
      match Byte.of_N (Z.to_N (fst img)), Byte.of_N (Z.to_N (snd img)) with
      | Some h, Some w => Ok (Some [h; w])
      | _, _ => Ok None
      end;
  shape img := img;
  slice img y1 y2 x1 x2 := (span y1 y2 (fst img), span x1 x2 (snd img));
  cv2_draw_smoke img dets _ :=
    if forallb (fun d => box_fits (box d)) dets then Ok img
    else Raised "cv2.error";
  draw_fire img bx _ :=
    if box_fits bx then Ok img else Raised "cv2.error";
  draw_overlay img dets _ _ :=
    if forallb (fun d => box_fits (box d)) dets then Ok img
    else Raised "cv2.error";
  imwrite _ _ := Ok true
|}.

Definition one_byte : bytes := [Byte.x01].

Definition sample_args : Args.t :=
  {| Args.smoke_min_area := 2 # 1000;
     Args.smoke_consec := 3;
     Args.burst_frames := 6;
     Args.burst_stride := 2;
     Args.roi_margin := 35 # 100;
     Args.fire_confirm := 2;
     Args.fire_check_cooldown := 3;
     Args.fire_hold := 3 |}.

Definition sample_alerter : TelegramAlerter :=
  TelegramAlerter_init true (Some "123:abc"%string) (Some "42"%string)
    15 10 (3 # 10).

(** ** Notions used in the statements *)

(** The fire check branch of an iteration was taken. *)
Definition checked (o : TickOut) : bool :=
  match fire_check o with
  | Some _ => true
  | None => false
  end.

(** A result that confirms fire: it is a success with enough hits. *)
Definition confirming (args : Args.t) (res : Result) : bool :=
  match res with
  | ResOk r => (Args.fire_confirm args <=? fire_hits r)%Z
  | ResErr _ => false
  end.

(** The snapshot names that a result carries. *)
Definition snapshots (res : Result) : list string :=
  match res with
  | ResOk r => saved r
  | ResErr _ => []
  end.

(** The number of qualifying frames at the end of a sequence of flags. *)
Fixpoint leading_true (flags : list bool) : Z :=
  match flags with
  | true :: rest => (1 + leading_true rest)%Z
  | _ => 0%Z
  end.

Definition run_length (flags : list bool) : Z := leading_true (rev flags).

(** The positions met when walking from [idx] down by [stride]. *)
Fixpoint indices_from (fuel : nat) (idx stride : Z) : list nat :=
  match fuel with
  | O => []
  | S fuel =>
      if (0 <=? idx)%Z
      then Z.to_nat idx :: indices_from fuel (idx - stride)%Z stride
      else []
  end.

(** Newest to oldest in a buffer of [len] entries, with a stride that is
    raised to 1 when the option is smaller. *)
Definition burst_indices (len : nat) (stride : Z) : list nat :=
  indices_from len (Z.of_nat len - 1)%Z (Z.max 1 stride).

(** The rejection cases of the notifier that the specification lists. *)
Definition listed_rejection (kind : Kind) (self : TelegramAlerter)
    (now confidence : Q) : Prop :=
  enabled self = false \/
  confidence < min_confidence self \/
  now - last_time_of kind self < cooldown_of kind self \/
  (10 <= length (_queue self))%nat.

(** The notifier as the specification words it: a call is rejected in
    exactly the listed cases, and a rejected call changes nothing. *)
Definition enqueue_as_specified {Image : Type} `{Cv2 Image} (kind : Kind)
    (self : TelegramAlerter) (now : Q) (frame_bgr : Image) (confidence : Q)
    (num_boxes : Z) (lat lon : option Q) : Prop :=
  let r := enqueue kind self now frame_bgr confidence num_boxes lat lon in
  (fst r = false <-> listed_rejection kind self now confidence) /\
  (fst r = false -> snd r = self).

(** The drain as the specification words it: every result updates the
    check time, a confirming one the hold and the confirm time, and one
    that carries snapshot names the snapshot time. *)
Definition drain_as_specified (args : Args.t) (now : Q) (st : LoopState)
    (res : Result) : Prop :=
  let st' := fst (drain_result args now (st, (0%Z, 0)) res) in
  last_fire_check st' = now /\
  (confirming args res = true ->
   fire_hold_until st' = now + Args.fire_hold args /\
   last_fire_confirm st' = now) /\
  (snapshots res <> [] -> last_fire_snapshot st' = now).

(** Alerters for the examples: [n] tasks wait in the queue. *)
Definition sample_task : Task :=
  {| photo_bytes := one_byte;
     caption := {| cap_kind := Smoke; cap_confidence := 9 # 10;
                   cap_num_boxes := 1; cap_location := None |} |}.

Definition alerter_with_queue (n : nat) : TelegramAlerter :=
  set_queue sample_alerter (repeat sample_task n).

(** Boxes for the examples: the second overlaps the first, the third is
    far from both. *)
Definition box_a : Box := {| bx1 := 0; by1 := 0; bx2 := 10; by2 := 10 |}.
Definition box_b : Box := {| bx1 := 1; by1 := 1; bx2 := 11; by2 := 11 |}.
Definition box_c : Box := {| bx1 := 100; by1 := 100; bx2 := 110; by2 := 110 |}.

(** Two boxes whose areas, computed with the + 1, are 0, far from each
    other. *)
Definition thin_a : Box := {| bx1 := 0; by1 := 0; bx2 := -1; by2 := 5 |}.
Definition thin_b : Box := {| bx1 := 10; by1 := 10; bx2 := 9; by2 := 15 |}.

(** The value of [smoke_confirmed] after each frame of a sequence of
    flags, for the threshold [N] and the counter [c] before the first. *)
Fixpoint gate_trace (N c : Z) (flags : list bool) : list bool :=
  match flags with
  | [] => []
  | f :: rest =>
      let c' := if f then (c + 1)%Z else 0%Z in
      (N <=? c')%Z :: gate_trace N c' rest
  end.

(** The counter after a sequence of flags, in closed form: the number of
    qualifying frames since the last one that did not qualify. *)
Definition counter_after (c : Z) (flags : list bool) : Z :=
  if forallb (fun f => f) flags
  then (c + Z.of_nat (length flags))%Z
  else run_length flags.

(** A frame with one large smoke detection, and one without any. *)
Definition sample_det : Detection :=
  {| box := {| bx1 := 100; by1 := 100; bx2 := 300; by2 := 300 |};
     score := 9 # 10; class_id := 0 |}.

Definition smoke_tick (t : Q) (results : list Result) : Tick (Image := bytes) :=
  {| frame := one_byte; dets := [sample_det]; now := t; t_alert := t;
     out_q := results; jobs_taken := 0; alerts_sent := 0 |}.

Definition clear_tick (t : Q) (results : list Result) : Tick (Image := bytes) :=
  {| frame := one_byte; dets := []; now := t; t_alert := t;
     out_q := results; jobs_taken := 0; alerts_sent := 0 |}.

Definition sample_meta : Meta :=
  {| ts := 9; roi_box := box_a; meta_smoke_max := 9 # 10;
     meta_smoke_consec := 3 |}.

(** A success result with the given hit count and snapshot names. *)
Definition sample_result (hits : Z) (names : list string) : Result :=
  ResOk {| fire_hits := hits; best_score := 8 # 10; saved := names;
           res_meta := sample_meta; t_job := 9; t_done := 10 |}.

(** A state in which smoke is confirmed and the last check is old. *)
Definition confirmed_state (jobs : list Job) : LoopState :=
  {| smoke_consec := 5; last_fire_check := -10; fire_hold_until := 0;
     last_fire_confirm := 0; last_fire_snapshot := 0;
     last_smoke_telegram := 0; smoke_alert_sent := true;
     ring := []; job_q := jobs; telegram_alerter := None |}.

(** A state one qualifying frame short of confirmation, with an enabled
    alerter and no alert sent yet. *)
Definition alert_ready_state : LoopState :=
  {| smoke_consec := 2; last_fire_check := 0; fire_hold_until := 0;
     last_fire_confirm := 0; last_fire_snapshot := 0;
     last_smoke_telegram := 0; smoke_alert_sent := false;
     ring := []; job_q := []; telegram_alerter := Some sample_alerter |}.

Definition sample_job : Job := {| rois_jpeg := [one_byte]; meta := sample_meta |}.

(** A fire engine for the examples: it reports one detection of
    confidence 0.9 in the middle of every image. *)
Definition hot_tensor : Tensor :=
  {| cdim := 5;
     columns := [{| cx := 320; cy := 320; cw := 100; ch := 100;
                    conf := 9 # 10; cls := 0 |}] |}.

Definition hot_infer (roi : bytes) : exc Tensor := Ok hot_tensor.

Definition sample_clock : WorkerClock :=
  {| wc_t_job := 9; wc_t_alert := 9; wc_t_done := 10; wc_sent := 0 |}.

(** The worker of the examples on one job: input size 640, confidence
    threshold 0.5, 3 snapshots, no alerter (with the codec of the
    examples nothing raises). *)
Definition sample_worker_job {np : Numpy} (job : Job) : Result :=
  match fire_worker_job 640 (1 # 2) 3 (45 # 100) (Some 0%Z) hot_infer
          "snaps" None job sample_clock with
  | Ok (res, _) => res
  | Raised e => ResErr e
  end.

(** An engine whose one detection, of confidence 0.9, lies far outside
    any image: its box has corners beyond the 32-bit integers. *)
Definition far_tensor : Tensor :=
  {| cdim := 5;
     columns := [{| cx := 1099511627776; cy := 1099511627776;
                    cw := 549755813888; ch := 549755813888;
                    conf := 9 # 10; cls := 0 |}] |}.

Definition far_infer (roi : Z * Z) : exc Tensor := Ok far_tensor.

(** A job whose burst is one ROI of 100 by 100 pixels. *)
Definition sized_job : Job :=
  {| rois_jpeg := [[Byte.x64; Byte.x64]]; meta := sample_meta |}.

(** A frame of one pixel with one smoke detection, at a time at which the
    fire check is due. *)
Definition pixel_tick : Tick (Image := Z * Z) :=
  {| frame := (1%Z, 1%Z);
     dets := [{| box := {| bx1 := 0; by1 := 0; bx2 := 1; by2 := 1 |};
                 score := 9 # 10; class_id := 0 |}];
     now := 0; t_alert := 0; out_q := []; jobs_taken := 0;
     alerts_sent := 0 |}.

(** A frame that the codec of the examples cannot encode, with one large
    smoke detection. *)
Definition blank_tick (t : Q) : Tick (Image := bytes) :=
  {| frame := []; dets := [sample_det]; now := t; t_alert := t;
     out_q := []; jobs_taken := 0; alerts_sent := 0 |}.

(** What one sampled ring entry adds to the burst. *)
Definition sampled {Image : Type} `{Cv2 Image} (buf : list bytes) (roi : Box)
    (i : nat) : list bytes :=
  match burst_sample roi (nth i buf []) with
  | Some jbr => [jbr]
  | None => []
  end.

(** ** Notions for the properties of the uncited code *)

(** A point of the image plane lies in a box, or in the frame of [W] by
    [H] pixels, whose last column and row are [W - 1] and [H - 1]. *)
Definition in_box (px py : Q) (b : Box) : Prop :=
  bx1 b <= px /\ px <= bx2 b /\ by1 b <= py /\ py <= by2 b.

(** The column that stands for an index out of range. *)
Definition zero_column : Column :=
  {| cx := 0; cy := 0; cw := 0; ch := 0; conf := 0; cls := 0 |}.

Definition full_frame (W H : Z) : Box :=
  {| bx1 := 0; by1 := 0; bx2 := inject_Z (W - 1); by2 := inject_Z (H - 1) |}.

(** The mask [keep] of [decode_yolov11]: the confidence test and, when a
    target class is given and the tensor has a class row, the class test. *)
Definition passes (arr : Tensor) (conf_thres : Q) (target_class_id : option Z)
    (c : Column) : bool :=
  Qle_bool conf_thres (conf c) &&
  match target_class_id with
  | Some t => if (6 <=? cdim arr)%Z then (cls_id arr c =? t)%Z else true
  | None => true
  end.

(** The best detection of a job so far is none, or a detection of one of
    the burst frames seen; and no detection of a frame seen has a higher
    score.  [dets_of] gives the detections of a burst frame that count. *)
Definition best_attained {Image : Type}
    (dets_of : bytes -> exc (option (Image * list Detection)))
    (seen : list bytes) (best : Best (Image := Image)) : Prop :=
  (b_score best = 0 /\ b_img best = None /\ b_box best = None) \/
  (0 < b_score best /\
   exists jb roi ds d,
     In jb seen /\ dets_of jb = Ok (Some (roi, ds)) /\ In d ds /\
     best = {| b_score := score d; b_img := Some roi; b_box := Some (box d) |}).

Definition best_dominates {Image : Type}
    (dets_of : bytes -> exc (option (Image * list Detection)))
    (seen : list bytes) (best : Best (Image := Image)) : Prop :=
  forall jb roi ds d,
    In jb seen -> dets_of jb = Ok (Some (roi, ds)) -> In d ds ->
    score d <= b_score best.

(** The last [n] elements of a list. *)
Definition lastn {A : Type} (n : nat) (l : list A) : list A :=
  skipn (length l - n) l.

(** Lines 1025-1032 of [run_loop]: the frame is put on the MJPEG queue
    (maxsize 2); when the queue is full one frame is taken out first. *)
Definition push_frame {A : Type} (frame_queue : list A) (frame : A) : list A :=
  match put_nowait 2 frame_queue frame with
  | Ok q => q
  | Raised _ =>
      match get_nowait frame_queue with
      | Raised _ => frame_queue
      | Ok (_, rest) =>
          match put_nowait 2 rest frame with
          | Ok q => q
          | Raised _ => rest
          end
      end
  end.

(** The success result drained last, if any. *)
Definition last_ok (results : list Result) : option FireResult :=
  fold_left (fun found res =>
               match res with
               | ResOk r => Some r
               | ResErr _ => found
               end)
            results None.

Section AlerterTrace.
Context {Image : Type} `{Cv2 Image}.

(** What happens to an alerter over time: a call of one of the two alert
    methods, or one round of the sender thread. *)
Inductive AlertEvent :=
| Alert (kind : Kind) (t : Q) (frame_bgr : Image) (confidence : Q)
        (num_boxes : Z)
| Delivery.

(** The alerter after a sequence of events, and the value that each call
    returned. *)
Fixpoint run_alerter (self : TelegramAlerter) (events : list AlertEvent)
    : TelegramAlerter * list bool :=
  match events with
  | [] => (self, [])
  | Alert kind t frame_bgr confidence num_boxes :: rest =>
      let '(accepted, self) :=
        enqueue kind self t frame_bgr confidence num_boxes None None in
      let '(self, outcomes) := run_alerter self rest in
      (self, accepted :: outcomes)
  | Delivery :: rest => run_alerter (_send_worker_step self) rest
  end.

(** The clock reading of an event that is a call. *)
Definition event_time (ev : AlertEvent) : option Q :=
  match ev with
  | Alert _ t _ _ _ => Some t
  | Delivery => None
  end.

Definition Kind_eqb (a b : Kind) : bool :=
  match a, b with
  | Smoke, Smoke => true
  | Fire, Fire => true
  | _, _ => false
  end.

(** The clock readings of the calls of one kind that returned true, in
    the order of the calls. *)
Fixpoint accepted_times (kind : Kind) (events : list AlertEvent)
    (outcomes : list bool) : list Q :=
  match events with
  | [] => []
  | Alert k t _ _ _ :: rest =>
      match outcomes with
      | [] => []
      | b :: bs =>
          (if b && Kind_eqb k kind then [t] else [])
          ++ accepted_times kind rest bs
      end
  | Delivery :: rest => accepted_times kind rest outcomes
  end.

(** The number of rounds of the sender thread in a sequence of events. *)
Fixpoint deliveries (events : list AlertEvent) : nat :=
  match events with
  | [] => 0
  | Alert _ _ _ _ _ :: rest => deliveries rest
  | Delivery :: rest => S (deliveries rest)
  end.

(** The JPEG bytes that an iteration appends to the ring buffer. *)
Definition ring_entry (tk : Tick) : list bytes :=
  match imencode 80 (frame tk) with
  | Some jb => [jb]
  | None => []
  end.
End AlerterTrace.

(** * Verification *)

(** ** Comparisons *)

Lemma Qltb_lt (x y : Q) : Qltb x y = true <-> x < y.
Proof.
  unfold Qltb. rewrite negb_true_iff.
  split; intro Hlt.
  - apply Qnot_le_lt. intro Hle. apply Qle_bool_iff in Hle. congruence.
  - destruct (Qle_bool y x) eqn:E; [| reflexivity].
    apply Qle_bool_iff in E. exfalso. revert E. apply Qlt_not_le. exact Hlt.
Qed.

Lemma Qltb_ge (x y : Q) : Qltb x y = false <-> y <= x.
Proof.
  unfold Qltb. rewrite negb_false_iff. apply Qle_bool_iff.
Qed.

(** ** The notifier *)

(** Credentials: the alerter is enabled when [requests] is there and both
    the token and the chat id are non-empty and free of the placeholder. *)
Lemma validate_enabled (HAS_REQUESTS : bool) (token chat : option string) :
  enabled (TelegramAlerter_init HAS_REQUESTS token chat 15 10 (3 # 10)) = true
  <->
  HAS_REQUESTS = true /\
  falsy token = false /\ contains "YOUR" (upper (str token)) = false /\
  falsy chat = false /\ contains "YOUR" (upper (str chat)) = false.
Proof.
  cbn [enabled TelegramAlerter_init]. unfold _validate.
  destruct HAS_REQUESTS; cbn [negb]; [| intuition discriminate].
  destruct (falsy token); cbn [orb]; [intuition discriminate |].
  destruct (contains "YOUR" (upper (str token))); [intuition discriminate |].
  destruct (falsy chat); cbn [orb]; [intuition discriminate |].
  destruct (contains "YOUR" (upper (str chat))); intuition discriminate.
Qed.

Example validate_placeholder :
  _validate true (Some "your_bot_token"%string) (Some "42"%string) = false /\
  _validate true (Some "123:abc"%string) None = false /\
  _validate true (Some "123:abc"%string) (Some "42"%string) = true.
Proof. repeat split; reflexivity. Qed.

Section NotifierProofs.
Context {Image : Type} `{Cv2 Image}.

(** Both methods are one procedure, up to the kind's cooldown, time stamp
    and JPEG quality. *)
Lemma enqueue_unfold (kind : Kind) (self : TelegramAlerter) (now : Q)
    (frame_bgr : Image) (confidence : Q) (num_boxes : Z) (lat lon : option Q) :
  enqueue kind self now frame_bgr confidence num_boxes lat lon =
  if negb (enabled self) then (false, self)
  else if Qltb confidence (min_confidence self) then (false, self)
  else if Qltb (now - last_time_of kind self) (cooldown_of kind self)
  then (false, self)
  else
    match imencode (quality_of kind) frame_bgr with
    | None => (false, set_last_time kind self now)
    | Some jpeg =>
        if (length (_queue self) <? 10)%nat
        then (true,
              set_queue (set_last_time kind self now)
                (_queue self ++
                 [{| photo_bytes := jpeg;
                     caption := {| cap_kind := kind;
                                   cap_confidence := confidence;
                                   cap_num_boxes := num_boxes;
                                   cap_location := location lat lon |} |}]))
        else (false, set_last_time kind self now)
    end.
Proof.
  destruct kind; cbn [enqueue quality_of last_time_of cooldown_of set_last_time];
    unfold send_smoke_alert, send_fire_alert, put_nowait;
    cbn [_queue set_last_smoke_time set_last_fire_time];
    repeat match goal with
           | |- context [if ?b then _ else _] => destruct b; try reflexivity
           | |- context [match ?e with Some _ => _ | None => _ end] =>
               destruct e; try reflexivity
           end.
Qed.

Lemma notifier_outcome (kind : Kind) (self : TelegramAlerter) (now : Q)
    (frame_bgr : Image) (confidence : Q) (num_boxes : Z) (lat lon : option Q) :
  let r := enqueue kind self now frame_bgr confidence num_boxes lat lon in
  (fst r = false <->
     (enabled self = false \/
      confidence < min_confidence self \/
      now - last_time_of kind self < cooldown_of kind self \/
      imencode (quality_of kind) frame_bgr = None \/
      (10 <= length (_queue self))%nat)) /\
  (enabled self = false \/
   confidence < min_confidence self \/
   now - last_time_of kind self < cooldown_of kind self ->
   snd r = self) /\
  (enabled self = true ->
   min_confidence self <= confidence ->
   cooldown_of kind self <= now - last_time_of kind self ->
   fst r = false ->
   snd r = set_last_time kind self now) /\
  (fst r = true ->
   last_time_of kind (snd r) = now /\
   exists task, _queue (snd r) = _queue self ++ [task]).
Proof.
  cbv zeta. rewrite enqueue_unfold.
  destruct (enabled self) eqn:Een; cbn [negb].
  2: { cbn [fst snd]. repeat split; intros; try discriminate; auto. }
  destruct (Qltb confidence (min_confidence self)) eqn:Ec.
  { apply Qltb_lt in Ec. cbn [fst snd].
    repeat split; intros; try discriminate; auto.
    exfalso. apply (Qlt_not_le _ _ Ec). assumption. }
  apply Qltb_ge in Ec.
  destruct (Qltb (now - last_time_of kind self) (cooldown_of kind self)) eqn:Et.
  { apply Qltb_lt in Et. cbn [fst snd].
    repeat split; intros; try discriminate; auto.
    exfalso. apply (Qlt_not_le _ _ Et). assumption. }
  apply Qltb_ge in Et.
  assert (Hgate : ~ (true = false \/
                     confidence < min_confidence self \/
                     now - last_time_of kind self < cooldown_of kind self)).
  { intros [Hd | [Hc | Ht]]; [discriminate | |].
    - revert Ec. apply Qlt_not_le. exact Hc.
    - revert Et. apply Qlt_not_le. exact Ht. }
  destruct (imencode (quality_of kind) frame_bgr) as [jpeg |] eqn:Ej;
    [destruct (length (_queue self) <? 10)%nat eqn:Eq;
     [apply Nat.ltb_lt in Eq | apply Nat.ltb_ge in Eq] |];
    cbn [fst snd]; repeat split; intros;
    try discriminate; try reflexivity; try tauto;
    try (exfalso; apply Hgate; tauto);
    try (destruct kind; reflexivity);
    try (destruct kind; cbn; eexists; reflexivity).
  repeat match goal with Hor : _ \/ _ |- _ => destruct Hor end;
    try discriminate; try lia; exfalso; apply Hgate; tauto.
Qed.
End NotifierProofs.

(** C5 (amended).  For each kind, [enqueue] returns false in exactly these
    cases: the channel is disabled, the confidence is below the floor, the
    kind's cooldown has not elapsed since the last call of that kind that
    passed the cooldown check (queued or not), the JPEG encoding of the
    frame fails, or the task queue holds 10 tasks.  A call rejected for one
    of the first three reasons changes nothing; a call rejected for a
    failed encoding or a full queue leaves the queue as it was but has
    already recorded its time as the kind's last time.  An accepted call
    records its time and appends one task.  With the channel enabled, the
    confidence at least the floor, the cooldown elapsed since that last
    time, an encodable frame and room in the queue, the call returns
    true. *)
Theorem notifier_rejection {Image : Type} `{Cv2 Image} (kind : Kind)
    (self : TelegramAlerter) (now : Q) (frame_bgr : Image) (confidence : Q)
    (num_boxes : Z) (lat lon : option Q) :
  let r := enqueue kind self now frame_bgr confidence num_boxes lat lon in
  (fst r = false <->
     (enabled self = false \/
      confidence < min_confidence self \/
      now - last_time_of kind self < cooldown_of kind self \/
      imencode (quality_of kind) frame_bgr = None \/
      (10 <= length (_queue self))%nat)) /\
  (enabled self = false \/
   confidence < min_confidence self \/
   now - last_time_of kind self < cooldown_of kind self ->
   snd r = self) /\
  (enabled self = true ->
   min_confidence self <= confidence ->
   cooldown_of kind self <= now - last_time_of kind self ->
   fst r = false ->
   snd r = set_last_time kind self now /\ _queue (snd r) = _queue self) /\
  (fst r = true ->
   last_time_of kind (snd r) = now /\
   exists task, _queue (snd r) = _queue self ++ [task]) /\
  (enabled self = true ->
   min_confidence self <= confidence ->
   cooldown_of kind self <= now - last_time_of kind self ->
   imencode (quality_of kind) frame_bgr <> None ->
   (length (_queue self) < 10)%nat ->
   fst r = true).
Proof.
  intro r.
  destruct (notifier_outcome kind self now frame_bgr confidence num_boxes
              lat lon) as (Hiff & Hnone & Hlate & Hacc).
  fold r in Hiff, Hnone, Hlate, Hacc.
  split; [exact Hiff | split; [exact Hnone | split; [| split]]].
  - intros Hen Hconf Hcd Hrej.
    rewrite (Hlate Hen Hconf Hcd Hrej).
    split; [reflexivity | destruct kind; reflexivity].
  - exact Hacc.
  - intros Hen Hconf Hcd Hjpeg Hroom.
    destruct (fst r) eqn:Er; [reflexivity |].
    destruct (proj1 Hiff eq_refl) as [Hd | [Hc | [Ht | [Hj | Hq]]]].
    + congruence.
    + exfalso. apply (Qlt_not_le _ _ Hc). assumption.
    + exfalso. apply (Qlt_not_le _ _ Ht). assumption.
    + contradiction.
    + lia.
Qed.

(** A smoke alert 100 s after start-up with confidence 0.9 is accepted. *)
Lemma notifier_rejection_witness :
  fst (enqueue Smoke sample_alerter 100 one_byte (9 # 10) 1 None None) = true.
Proof.
  apply (notifier_rejection Smoke sample_alerter 100 one_byte (9 # 10) 1
           None None).
  - reflexivity.
  - apply Qle_bool_iff. reflexivity.
  - apply Qle_bool_iff. reflexivity.
  - discriminate.
  - simpl. lia.
Defined.

(** C5 as stated fails.  (1) With 10 tasks queued, a smoke alert that is
    past its cooldown is rejected, yet the alerter is changed: its smoke
    time stamp is now the time of the call.  (2) A fire alert whose frame
    does not encode is rejected in none of the four listed cases.  (3) A
    smoke alert is accepted at 100 s and one is rejected for a full queue
    at 200 s; after five deliveries a third at 205 s, which is 105 s after
    the last accepted call and has room in the queue, is rejected. *)
Lemma notifier_rejection_counterexample :
  ~ enqueue_as_specified Smoke (alerter_with_queue 10) 100 one_byte
      (9 # 10) 1 None None /\
  ~ enqueue_as_specified Fire sample_alerter 100 ([] : bytes)
      (9 # 10) 1 None None /\
  (let a1 := enqueue Smoke (alerter_with_queue 9) 100 one_byte
               (9 # 10) 1 None None in
   let a2 := enqueue Smoke (snd a1) 200 one_byte (9 # 10) 1 None None in
   let a3 := enqueue Smoke (Nat.iter 5 _send_worker_step (snd a2)) 205
               one_byte (9 # 10) 1 None None in
   fst a1 = true /\ fst a2 = false /\ fst a3 = false /\
   length (_queue (Nat.iter 5 _send_worker_step (snd a2))) = 5%nat).
Proof.
  split; [| split].
  - intros [_ Hside].
    assert (Hrej : fst (enqueue Smoke (alerter_with_queue 10) 100 one_byte
                          (9 # 10) 1 None None) = false) by reflexivity.
    specialize (Hside Hrej). vm_compute in Hside. discriminate Hside.
  - intros [Hiff _].
    assert (Hrej : fst (enqueue Fire sample_alerter 100 ([] : bytes)
                          (9 # 10) 1 None None) = false) by reflexivity.
    apply Hiff in Hrej.
    destruct Hrej as [Hd | [Hc | [Ht | Hq]]].
    + discriminate Hd.
    + vm_compute in Hc. discriminate Hc.
    + vm_compute in Ht. discriminate Ht.
    + vm_compute in Hq. lia.
  - vm_compute. repeat split; reflexivity.
Qed.

(** ** Non-maximum suppression *)

Section SortProofs.
Variable scores : list Q.

Lemma insert_idx_perm (i : nat) (l : list nat) :
  Permutation (insert_idx scores i l) (i :: l).
Proof.
  induction l as [| k rest IH]; simpl.
  - reflexivity.
  - destruct (Qltb (nth i scores 0) (nth k scores 0)).
    + reflexivity.
    + rewrite IH. apply perm_swap.
Qed.

Lemma fold_insert_perm (l acc : list nat) :
  Permutation (fold_left (fun sorted i => insert_idx scores i sorted) l acc)
              (l ++ acc).
Proof.
  revert acc. induction l as [| a l IH]; intro acc; simpl.
  - reflexivity.
  - rewrite IH, insert_idx_perm. symmetry. apply Permutation_middle.
Qed.

Lemma stable_argsort_perm :
  Permutation (stable_argsort scores) (seq 0 (length scores)).
Proof.
  unfold stable_argsort. rewrite fold_insert_perm, app_nil_r. reflexivity.
Qed.

Lemma insert_idx_sorted (i : nat) (l : list nat) :
  StronglySorted (sorted_before scores) l ->
  Forall (fun k => (k < i)%nat) l ->
  StronglySorted (sorted_before scores) (insert_idx scores i l).
Proof.
  induction l as [| k rest IH]; intros Hs Hlt; simpl.
  - constructor; constructor.
  - inversion Hs as [| ? ? Hrest Hk]; subst.
    inversion Hlt as [| ? ? Hki Hlt']; subst.
    destruct (Qltb (nth i scores 0) (nth k scores 0)) eqn:E.
    + apply Qltb_lt in E. constructor; [exact Hs |].
      constructor; [left; exact E |].
      rewrite Forall_forall in Hk |- *. intros x Hx.
      destruct (Hk x Hx) as [Hlt1 | [Heq1 _]]; left.
      * eapply Qlt_trans; eassumption.
      * rewrite <- Heq1. exact E.
    + apply Qltb_ge in E. constructor; [apply IH; assumption |].
      rewrite (insert_idx_perm i rest). constructor; [| exact Hk].
      destruct (Qle_lt_or_eq _ _ E) as [Hlt1 | Heq1].
      * left. exact Hlt1.
      * right. split; assumption.
Qed.

Lemma fold_insert_sorted (l acc : list nat) :
  StronglySorted (sorted_before scores) acc ->
  StronglySorted lt l ->
  (forall k i, In k acc -> In i l -> (k < i)%nat) ->
  StronglySorted (sorted_before scores)
    (fold_left (fun sorted i => insert_idx scores i sorted) l acc).
Proof.
  revert acc. induction l as [| a l IH]; intros acc Hacc Hl Hlt; simpl.
  - exact Hacc.
  - inversion Hl as [| ? ? Hl' Ha]; subst.
    apply IH; [| exact Hl' |].
    + apply insert_idx_sorted; [exact Hacc |].
      apply Forall_forall. intros k Hk. apply Hlt; [exact Hk | left; reflexivity].
    + intros k i Hk Hi.
      apply (Permutation_in _ (insert_idx_perm a acc)) in Hk.
      destruct Hk as [<- | Hk].
      * rewrite Forall_forall in Ha. apply Ha. exact Hi.
      * apply Hlt; [exact Hk | right; exact Hi].
Qed.

Lemma seq_sorted (start len : nat) : StronglySorted lt (seq start len).
Proof.
  revert start. induction len as [| len IH]; intro start; simpl.
  - constructor.
  - constructor; [apply IH |].
    apply Forall_forall. intros x Hx. apply in_seq in Hx. lia.
Qed.

Lemma stable_argsort_sorted :
  StronglySorted (sorted_before scores) (stable_argsort scores).
Proof.
  unfold stable_argsort. apply fold_insert_sorted.
  - constructor.
  - apply seq_sorted.
  - intros k i [].
Qed.
End SortProofs.

Lemma StronglySorted_snoc {A : Type} (R : A -> A -> Prop) (l : list A) (a : A) :
  StronglySorted R l -> Forall (fun x => R x a) l -> StronglySorted R (l ++ [a]).
Proof.
  induction l as [| x l IH]; intros Hs Ha; simpl.
  - constructor; constructor.
  - inversion Hs as [| ? ? Hl Hx]; subst.
    inversion Ha as [| ? ? Hxa Ha']; subst.
    constructor; [apply IH; assumption |].
    apply Forall_app. split; [exact Hx |]. constructor; [exact Hxa | constructor].
Qed.

Lemma StronglySorted_rev {A : Type} (R : A -> A -> Prop) (l : list A) :
  StronglySorted R l -> StronglySorted (fun a b => R b a) (rev l).
Proof.
  induction 1 as [| a l Hl IH Ha]; simpl.
  - constructor.
  - apply StronglySorted_snoc; [exact IH |].
    apply Forall_rev. exact Ha.
Qed.

Lemma StronglySorted_weaken {A : Type} (R S : A -> A -> Prop) (l : list A) :
  (forall a b, R a b -> S a b) -> StronglySorted R l -> StronglySorted S l.
Proof.
  intros Himp. induction 1 as [| a l Hl IH Ha]; constructor; [exact IH |].
  eapply Forall_impl; [| exact Ha]. intro b. apply Himp.
Qed.

Lemma stable_argsort_ascends (scores : list Q) :
  StronglySorted (fun i j => nth i scores 0 <= nth j scores 0)
                 (stable_argsort scores).
Proof.
  apply (StronglySorted_weaken (sorted_before scores));
    [| apply stable_argsort_sorted].
  intros i j [Hlt | [Heq _]]; [apply Qlt_le_weak; exact Hlt |].
  rewrite Heq. apply Qle_refl.
Qed.

Lemma nth_opp (scores : list Q) (i : nat) :
  nth i (map Qopp scores) 0 = - nth i scores 0.
Proof.
  exact (map_nth Qopp scores 0 i).
Qed.

Lemma reversing_argsort_perm (scores : list Q) :
  Permutation (reversing_argsort scores) (seq 0 (length scores)).
Proof.
  unfold reversing_argsort. rewrite <- Permutation_rev.
  rewrite stable_argsort_perm, length_map. reflexivity.
Qed.

Lemma reversing_argsort_ascends (scores : list Q) :
  StronglySorted (fun i j => nth i scores 0 <= nth j scores 0)
                 (reversing_argsort scores).
Proof.
  unfold reversing_argsort.
  apply (StronglySorted_weaken
           (fun a b => sorted_before (map Qopp scores) b a));
    [| apply StronglySorted_rev, stable_argsort_sorted].
  intros i j. unfold sorted_before. rewrite !nth_opp.
  intros [Hlt | [Heq _]]; lra.
Qed.

(** The stable sort is the sort of the examples. *)
Definition stable_numpy : Numpy := {|
  argsort := stable_argsort;
  argsort_permutes := stable_argsort_perm;
  argsort_ascends := stable_argsort_ascends
|}.

Definition reversing_numpy : Numpy := {|
  argsort := reversing_argsort;
  argsort_permutes := reversing_argsort_perm;
  argsort_ascends := reversing_argsort_ascends
|}.

Lemma order_sorted {np : Numpy} (scores : list Q) :
  StronglySorted (considered_before scores) (rev (argsort scores)).
Proof.
  apply (StronglySorted_rev (fun i j => nth i scores 0 <= nth j scores 0)),
    argsort_ascends.
Qed.

Lemma order_perm {np : Numpy} (scores : list Q) :
  Permutation (rev (argsort scores)) (seq 0 (length scores)).
Proof.
  rewrite <- Permutation_rev. apply argsort_permutes.
Qed.

Lemma precedes_In (i j : nat) (l : list nat) :
  precedes i j l -> In i l /\ In j l.
Proof.
  induction l as [| x rest IH]; simpl; [tauto |].
  intros [[-> Hj] | Hp]; [tauto |].
  destruct (IH Hp). tauto.
Qed.

Lemma precedes_sorted (R : nat -> nat -> Prop) (i j : nat) (l : list nat) :
  StronglySorted R l -> precedes i j l -> R i j.
Proof.
  induction 1 as [| x rest Hrest IH Hx]; simpl; [tauto |].
  intros [[-> Hj] | Hp]; [| exact (IH Hp)].
  rewrite Forall_forall in Hx. exact (Hx j Hj).
Qed.

Lemma precedes_total (i j : nat) (l : list nat) :
  In i l -> In j l -> i <> j -> precedes i j l \/ precedes j i l.
Proof.
  induction l as [| x rest IH]; simpl; [tauto |].
  intros [-> | Hi] [-> | Hj] Hne; tauto.
Qed.

Lemma precedes_filter_inv (p : nat -> bool) (i j : nat) (l : list nat) :
  precedes i j (filter p l) -> precedes i j l.
Proof.
  induction l as [| x rest IH]; simpl; [tauto |].
  destruct (p x); simpl.
  - intros [[-> Hj] | Hp]; [| right; exact (IH Hp)].
    left. apply filter_In in Hj. tauto.
  - intro Hp. right. exact (IH Hp).
Qed.

Lemma precedes_filter (p : nat -> bool) (i j : nat) (l : list nat) :
  precedes i j l -> p i = true -> p j = true -> precedes i j (filter p l).
Proof.
  induction l as [| x rest IH]; simpl; [tauto |].
  intros [[-> Hj] | Hp] Hi Hpj.
  - rewrite Hi. simpl. left. split; [reflexivity |].
    apply filter_In. tauto.
  - destruct (p x); simpl; [right |]; apply IH; assumption.
Qed.

Lemma precedes_head_absurd (i x : nat) (rest : list nat) :
  NoDup (x :: rest) -> ~ precedes i x (x :: rest).
Proof.
  intros Hnd Hp. inversion Hnd as [| ? ? Hx _]; subst.
  simpl in Hp. destruct Hp as [[_ Hin] | Hp]; [contradiction |].
  apply precedes_In in Hp. tauto.
Qed.

Section NMSProofs.
Variable boxes : list Box.
Variable iou_thres : Q.

#[local] Abbreviation ok i j := (iou_le iou_thres (box_at boxes i) (box_at boxes j)).
#[local] Abbreviation loop := (nms_loop boxes iou_thres).

Lemma nms_loop_cons (i : nat) (rest : list nat) :
  loop (i :: rest) = i :: loop (filter (fun j => ok i j) rest).
Proof.
  simp nms_loop. reflexivity.
Qed.

(** What is kept has passed the test against everything kept before it. *)
Lemma nms_loop_kept (order : list nat) :
  NoDup order ->
  forall j,
    In j (loop order) <->
    In j order /\
    forall i, In i (loop order) -> precedes i j order -> ok i j = true.
Proof.
  remember (length order) as n eqn:Hn.
  revert order Hn. induction n as [n IH] using lt_wf_ind.
  intros [| i0 rest] Hn Hnd j; [simp nms_loop; simpl; tauto |].
  - rewrite nms_loop_cons.
    set (rest' := filter (fun j => ok i0 j) rest).
    assert (Hnd' : NoDup rest').
    { apply NoDup_filter. inversion Hnd; assumption. }
    assert (Hlen : (length rest' < n)%nat).
    { subst n. simpl. apply Nat.lt_succ_r, filter_length_le. }
    pose proof (IH _ Hlen rest' eq_refl Hnd') as IH'.
    inversion Hnd as [| ? ? Hi0 Hndr]; subst x l.
    split.
    + intros [<- | Hj].
      * split; [left; reflexivity |].
        intros i _ Hp. exfalso. exact (precedes_head_absurd i i0 rest Hnd Hp).
      * apply IH' in Hj. destruct Hj as [Hjr Hall].
        pose proof Hjr as Hjr'. apply filter_In in Hjr'.
        split; [right; tauto |].
        intros i [<- | Hi] Hp; [tauto |].
        apply Hall; [exact Hi |].
        assert (Hir : In i rest').
        { apply (IH' i). exact Hi. }
        simpl in Hp. destruct Hp as [[-> _] | Hp].
        -- apply filter_In in Hir. tauto.
        -- apply precedes_filter; [exact Hp | |].
           ++ apply filter_In in Hir. tauto.
           ++ tauto.
    + intros [[<- | Hjr] Hall]; [left; reflexivity |].
      assert (Hne : i0 <> j) by (intros ->; contradiction).
      assert (Hok : ok i0 j = true).
      { apply Hall; [left; reflexivity |]. simpl. left. tauto. }
      right. apply IH'. split.
      * apply filter_In. tauto.
      * intros i Hi Hp. apply Hall; [right; exact Hi |].
        simpl. right. exact (precedes_filter_inv _ i j rest Hp).
Qed.

Lemma nms_loop_incl (order : list nat) (j : nat) :
  In j (loop order) -> In j order.
Proof.
  remember (length order) as n eqn:Hn.
  revert order Hn. induction n as [n IH] using lt_wf_ind.
  intros [| a l] Hn; [simp nms_loop; simpl; tauto |].
  rewrite nms_loop_cons. intros [<- | Hin]; [left; reflexivity |].
  right.
  assert (Hl : (length (filter (fun j => ok a j) l) < n)%nat).
  { subst n. simpl. apply Nat.lt_succ_r, filter_length_le. }
  specialize (IH _ Hl _ eq_refl Hin).
  apply filter_In in IH. tauto.
Qed.

(** What is dropped has failed the test against something kept before. *)
Lemma nms_loop_suppressed (order : list nat) :
  NoDup order ->
  forall j,
    In j order ->
    (~ In j (loop order) <->
     exists i, In i (loop order) /\ precedes i j order /\ ok i j = false).
Proof.
  intros Hnd j Hj. split.
  - revert Hnd j Hj.
    remember (length order) as n eqn:Hn.
    revert order Hn. induction n as [n IH] using lt_wf_ind.
    intros [| i0 rest] Hn Hnd j Hj Hout; [contradiction |].
    rewrite nms_loop_cons in Hout |- *.
    set (rest' := filter (fun j => ok i0 j) rest) in *.
    assert (Hne : i0 <> j).
    { intros ->. apply Hout. left. reflexivity. }
    destruct Hj as [Hj | Hj]; [contradiction |].
    destruct (ok i0 j) eqn:Hok.
    + assert (Hlen : (length rest' < n)%nat).
      { subst n. simpl. apply Nat.lt_succ_r, filter_length_le. }
      assert (Hnd' : NoDup rest').
      { apply NoDup_filter. inversion Hnd; assumption. }
      assert (Hj' : In j rest') by (apply filter_In; tauto).
      assert (Hout' : ~ In j (loop rest')).
      { intro Hin. apply Hout. right. exact Hin. }
      destruct (IH _ Hlen rest' eq_refl Hnd' j Hj' Hout') as (i & Hi & Hp & Hbad).
      exists i. split; [right; exact Hi |]. split; [| exact Hbad].
      simpl. right. exact (precedes_filter_inv _ i j rest Hp).
    + exists i0. split; [left; reflexivity |]. split; [| exact Hok].
      simpl. left. tauto.
  - intros (i & Hi & Hp & Hbad) Hin.
    apply (nms_loop_kept order Hnd j) in Hin. destruct Hin as [_ Hall].
    rewrite (Hall i Hi Hp) in Hbad. discriminate.
Qed.

(** The kept indices are in the order of consideration. *)
Lemma nms_loop_order (order : list nat) (i j : nat) :
  precedes i j (loop order) -> precedes i j order.
Proof.
  remember (length order) as n eqn:Hn.
  revert order Hn. induction n as [n IH] using lt_wf_ind.
  intros [| i0 rest] Hn; [simp nms_loop; simpl; tauto |].
  rewrite nms_loop_cons.
  set (rest' := filter (fun j => ok i0 j) rest).
  assert (Hlen : (length rest' < n)%nat).
  { subst n. simpl. apply Nat.lt_succ_r, filter_length_le. }
  pose proof (IH _ Hlen rest' eq_refl) as IH'.
  simpl. intros [[-> Hj] | Hp].
  - left. split; [reflexivity |].
    apply nms_loop_incl in Hj. apply filter_In in Hj. tauto.
  - right. exact (precedes_filter_inv _ i j rest (IH' Hp)).
Qed.
End NMSProofs.

Example nms_xyxy_sample :
  nms_xyxy (np := stable_numpy) [box_a; box_b; box_c]
    [9 # 10; 8 # 10; 7 # 10] (45 # 100)
  = [0; 2]%nat.
Proof. vm_compute. reflexivity. Qed.

Lemma precedes_higher {np : Numpy} (scores : list Q) (i j : nat) :
  (i < length scores)%nat -> (j < length scores)%nat ->
  nth j scores 0 < nth i scores 0 ->
  precedes i j (rev (argsort scores)).
Proof.
  intros Hi Hj Hlt.
  assert (Hin : forall k, (k < length scores)%nat -> In k (rev (argsort scores))).
  { intros k Hk.
    apply (Permutation_in _ (Permutation_sym (order_perm scores))), in_seq. lia. }
  assert (Hne : i <> j).
  { intros ->. exact (Qlt_irrefl _ Hlt). }
  destruct (precedes_total i j _ (Hin i Hi) (Hin j Hj) Hne) as [Hp | Hp];
    [exact Hp | exfalso].
  apply (precedes_sorted _ _ _ _ (order_sorted scores)) in Hp.
  unfold considered_before in Hp. lra.
Qed.

(** C9 (amended).  With as many boxes as scores, and whatever order
    numpy's argsort leaves equal scores in, [nms_xyxy] considers the boxes
    in an order along which the score never increases, a box of higher
    score always before a box of lower score; the area of a box is
    (x2 - x1 + 1)(y2 - y1 + 1); a box is kept exactly when its IoU with
    every box kept before it is at most the threshold, and dropped exactly
    when its IoU with some box kept before it exceeds the threshold or has
    a zero denominator; the kept boxes come out in the order of
    consideration. *)
Theorem nms_greedy_order {np : Numpy} (boxes : list Box) (scores : list Q)
    (iou_thres : Q) :
  length boxes = length scores ->
  let order := rev (argsort scores) in
  let keep := nms_xyxy boxes scores iou_thres in
  let ok i j := iou_le iou_thres (box_at boxes i) (box_at boxes j) in
  Permutation order (seq 0 (length scores)) /\
  StronglySorted (considered_before scores) order /\
  (forall i j : nat,
     (i < length scores)%nat -> (j < length scores)%nat ->
     nth j scores 0 < nth i scores 0 ->
     precedes i j order) /\
  (forall b, area b = (bx2 b - bx1 b + 1) * (by2 b - by1 b + 1)) /\
  (forall a b,
     iou_le iou_thres a b = true <->
     ~ area a + area b - inter a b == 0 /\
     inter a b / (area a + area b - inter a b) <= iou_thres) /\
  (forall j,
     In j keep <->
     In j order /\
     forall i, In i keep -> precedes i j order -> ok i j = true) /\
  (forall j,
     In j order ->
     (~ In j keep <->
      exists i, In i keep /\ precedes i j order /\ ok i j = false)) /\
  (forall i j, precedes i j keep -> precedes i j order).
Proof.
  intros Hlen order keep ok.
  assert (Hperm : Permutation order (seq 0 (length scores)))
    by apply order_perm.
  assert (Hsorted : StronglySorted (considered_before scores) order)
    by apply order_sorted.
  assert (Hnd : NoDup order).
  { apply (Permutation_NoDup (Permutation_sym Hperm)), seq_NoDup. }
  assert (Hkeep : keep = nms_loop boxes iou_thres order).
  { unfold keep, nms_xyxy, order. destruct boxes as [| b bs]; [| reflexivity].
    destruct scores; [| discriminate].
    pose proof (argsort_permutes []) as Hnil. cbn in Hnil.
    apply Permutation_sym, Permutation_nil in Hnil. rewrite Hnil.
    reflexivity. }
  split; [exact Hperm |]. split; [exact Hsorted |].
  split; [| split; [| split; [| split; [| split]]]].
  - intros i j. apply precedes_higher.
  - reflexivity.
  - intros a b. unfold iou_le.
    destruct (Qeq_bool (area a + area b - inter a b) 0) eqn:E.
    + apply Qeq_bool_iff in E. split; [discriminate | tauto].
    + apply Qeq_bool_neq in E. rewrite Qle_bool_iff. tauto.
  - intro j. rewrite Hkeep. apply nms_loop_kept. exact Hnd.
  - intros j Hj. rewrite Hkeep. apply nms_loop_suppressed; assumption.
  - intros i j. rewrite Hkeep. apply nms_loop_order.
Qed.

(** Three boxes with three scores: the order of consideration is a
    permutation of their indices. *)
Lemma nms_greedy_order_witness :
  length [box_a; box_b; box_c] = length [9 # 10; 8 # 10; 7 # 10] /\
  Permutation (rev (argsort (Numpy := stable_numpy) [9 # 10; 8 # 10; 7 # 10]))
              (seq 0 3).
Proof.
  split; [reflexivity |].
  apply (nms_greedy_order (np := stable_numpy) [box_a; box_b; box_c]
           [9 # 10; 8 # 10; 7 # 10] (45 # 100)).
  reflexivity.
Defined.

Lemma argsort_descending_pair {np : Numpy} (hi lo : Q) :
  lo < hi -> argsort [hi; lo] = [1; 0]%nat.
Proof.
  intro Hlt.
  pose proof (argsort_permutes [hi; lo]) as Hperm.
  pose proof (argsort_ascends [hi; lo]) as Hasc.
  apply Permutation_sym, Permutation_length_2_inv in Hperm.
  destruct Hperm as [E | E]; [exfalso | exact E].
  rewrite E in Hasc. inversion Hasc as [| ? ? _ Hall]; subst.
  inversion Hall as [| ? ? Hle _]; subst. cbn in Hle. lra.
Qed.

(** C9 as stated fails.  (1) Two boxes with scores 0.9 and 0.8 that share
    nothing and whose areas, computed with the + 1, are both 0: the
    denominator of the IoU is 0, so the comparison with the threshold is
    false and the second box is dropped although no IoU exceeds the
    threshold; this holds whatever the sort.  (2) The first-seen rule is
    not what every sort gives: with the stable sort, of two overlapping
    boxes with the same score 0.9 the second is considered first and is
    the one that survives. *)
Lemma nms_greedy_order_counterexample :
  (inter thin_a thin_b == 0 /\
   forall np : Numpy,
     nms_xyxy (np := np) [thin_a; thin_b] [9 # 10; 8 # 10] (1 # 2)
     = [0]%nat) /\
  ~ (forall np : Numpy, first_seen_wins (np := np) [9 # 10; 9 # 10]) /\
  nms_xyxy (np := stable_numpy) [box_a; box_b] [9 # 10; 9 # 10] (45 # 100)
  = [1]%nat.
Proof.
  split; [split; [reflexivity |] | split; [| vm_compute; reflexivity]].
  - intro np. unfold nms_xyxy.
    rewrite (argsort_descending_pair (9 # 10) (8 # 10)) by reflexivity.
    vm_compute. reflexivity.
  - intro Hfirst.
    assert (Hp : precedes 0 1 (rev (argsort (Numpy := stable_numpy)
                                       [9 # 10; 9 # 10]))).
    { apply (Hfirst stable_numpy); [simpl; lia | reflexivity]. }
    vm_compute in Hp. intuition discriminate.
Qed.

(** The order among equal scores depends on the sort: on the scores
    0.25, 0.25, 0, 0 the stable sort has the boxes considered in the order
    1, 0, 3, 2 and the reversing sort in the order 0, 1, 2, 3. *)
Example tie_order_depends_on_sort :
  rev (argsort (Numpy := stable_numpy) [1 # 4; 1 # 4; 0; 0])
  = [1; 0; 3; 2]%nat /\
  rev (argsort (Numpy := reversing_numpy) [1 # 4; 1 # 4; 0; 0])
  = [0; 1; 2; 3]%nat.
Proof. split; vm_compute; reflexivity. Qed.

(** ** The main loop, one iteration *)

Section LoopProofs.
Context {Image : Type} `{Cv2 Image}.

Ltac split_lets :=
  repeat match goal with
         | |- context [match ?e with pair _ _ => _ end] =>
             match e with
             | (_, _) => fail 1
             | _ => destruct e eqn:?
             end
         end.

Ltac split_hyps :=
  repeat match goal with
         | Hx : (if ?c then _ else _) = _ |- _ => destruct c eqn:?
         | Hx : match ?e with pair _ _ => _ end = _ |- _ => destruct e eqn:?
         | Hx : match ?e with Ok _ => _ | Raised _ => _ end = _ |- _ =>
             destruct e eqn:?
         | Hx : match ?e with Some _ => _ | None => _ end = _ |- _ =>
             destruct e eqn:?
         | Hx : (_, _) = (_, _) |- _ => inversion Hx; subst; clear Hx
         end.

Ltac iter_tac :=
  unfold run_loop_iter, qualifying, checked; split_lets; subst;
  cbn [fst snd has_smoke smoke_confirmed smoke_max smoke_boxes
       should_check_fire fire_hit fire_best has_fire fire_check job_queued
       smoke_consec last_fire_check fire_hold_until last_fire_confirm
       last_fire_snapshot last_smoke_telegram smoke_alert_sent ring job_q
       telegram_alerter].

Ltac iter_fin :=
  first [reflexivity | assumption | symmetry; assumption | congruence].

Lemma iter_has_smoke (args : Args.t) (st : LoopState) (tk : Tick) :
  has_smoke (snd (run_loop_iter args st tk)) = qualifying args tk.
Proof.
  iter_tac. reflexivity.
Qed.

Lemma iter_gate (args : Args.t) (st : LoopState) (tk : Tick) :
  let g := confirmation_gate (Args.smoke_consec args) (qualifying args tk)
             (smoke_consec st) (smoke_alert_sent st) in
  smoke_consec (fst (run_loop_iter args st tk)) = fst (fst g) /\
  smoke_confirmed (snd (run_loop_iter args st tk)) = snd g.
Proof.
  iter_tac.
  match goal with Hg : confirmation_gate _ _ _ _ = _ |- _ => rewrite Hg end.
  split; reflexivity.
Qed.

Lemma iter_flag (args : Args.t) (st : LoopState) (tk : Tick) :
  qualifying args tk = false ->
  (0 < Args.smoke_consec args)%Z ->
  smoke_alert_sent (fst (run_loop_iter args st tk)) = false.
Proof.
  iter_tac. intros Hq HN.
  match goal with Hg : confirmation_gate _ _ _ _ = _ |- _ =>
    rewrite Hq in Hg; unfold confirmation_gate in Hg; inversion Hg; subst
  end.
  replace (Args.smoke_consec args <=? 0)%Z with false in *
    by (symmetry; apply Z.leb_gt; exact HN).
  cbn [andb] in *. split_hyps; iter_fin.
Qed.

Lemma iter_drained (args : Args.t) (st : LoopState) (tk : Tick) :
  let d := drain args (now tk) st (out_q tk) in
  let r := run_loop_iter args st tk in
  fire_hold_until (fst r) = fire_hold_until (fst d) /\
  last_fire_confirm (fst r) = last_fire_confirm (fst d) /\
  last_fire_snapshot (fst r) = last_fire_snapshot (fst d) /\
  fire_hit (snd r) = fst (snd d) /\
  fire_best (snd r) = snd (snd d).
Proof.
  iter_tac. repeat split; reflexivity.
Qed.

Lemma iter_has_fire (args : Args.t) (st : LoopState) (tk : Tick) :
  let r := run_loop_iter args st tk in
  has_fire (snd r) = Qltb (now tk) (fire_hold_until (fst r)).
Proof.
  iter_tac. reflexivity.
Qed.

Lemma iter_should (args : Args.t) (st : LoopState) (tk : Tick) :
  let r := run_loop_iter args st tk in
  should_check_fire (snd r) =
  smoke_confirmed (snd r) &&
  Qle_bool (Args.fire_check_cooldown args) (now tk - last_fire_check st).
Proof.
  iter_tac. reflexivity.
Qed.

Lemma iter_checked (args : Args.t) (st : LoopState) (tk : Tick) :
  let r := run_loop_iter args st tk in
  checked (snd r) = should_check_fire (snd r) && negb (has_fire (snd r)).
Proof.
  iter_tac. split_hyps; iter_fin.
Qed.

Lemma iter_last_check (args : Args.t) (st : LoopState) (tk : Tick) :
  let r := run_loop_iter args st tk in
  last_fire_check (fst r) =
  if checked (snd r) then now tk
  else last_fire_check (fst (drain args (now tk) st (out_q tk))).
Proof.
  iter_tac. split_hyps; iter_fin.
Qed.

Lemma iter_job_q (args : Args.t) (st : LoopState) (tk : Tick) :
  let r := run_loop_iter args st tk in
  let jq := skipn (jobs_taken tk) (job_q st) in
  job_q (fst r) =
    match fire_check (snd r) with
    | Some job => if (length jq <? 1)%nat then jq ++ [job] else jq
    | None => jq
    end /\
  job_queued (snd r) = checked (snd r) && (length jq <? 1)%nat.
Proof.
  iter_tac. unfold put_nowait in *.
  split_hyps; split; iter_fin.
Qed.

Lemma iter_ring (args : Args.t) (st : LoopState) (tk : Tick) :
  ring (fst (run_loop_iter args st tk)) =
  match imencode 80 (frame tk) with
  | Some jb => deque_append 60 (ring st) jb
  | None => ring st
  end.
Proof.
  iter_tac. reflexivity.
Qed.

Lemma iter_job (args : Args.t) (st : LoopState) (tk : Tick) (job : Job) :
  let r := run_loop_iter args st tk in
  fire_check (snd r) = Some job ->
  let '(H, W) := shape (frame tk) in
  let smoke := filter_smoke (Args.smoke_min_area args) W H (dets tk) in
  let b := burst_or_empty args (ring (fst r)) (frame tk) (fst smoke) in
  job = {| rois_jpeg := snd b;
           meta := {| ts := now tk; roi_box := fst b;
                      meta_smoke_max := snd smoke;
                      meta_smoke_consec := smoke_consec (fst r) |} |}.
Proof.
  iter_tac. unfold put_nowait in *. intro Hjob.
  split_hyps; try discriminate; cbn [fst snd]; congruence.
Qed.
End LoopProofs.

(** ** The confirmation gate *)

Section GateProofs.
Context {Image : Type} `{Cv2 Image}.

Lemma run_loop_cons (args : Args.t) (st : LoopState) (tk : Tick)
    (rest : list Tick) :
  run_loop args st (tk :: rest) =
  (fst (run_loop args (fst (run_loop_iter args st tk)) rest),
   snd (run_loop_iter args st tk)
   :: snd (run_loop args (fst (run_loop_iter args st tk)) rest)).
Proof.
  simpl. destruct (run_loop_iter args st tk) as [st1 o]. cbn [fst snd].
  destruct (run_loop args st1 rest). reflexivity.
Qed.

Lemma iter_counter (args : Args.t) (st : LoopState) (tk : Tick) :
  let r := run_loop_iter args st tk in
  smoke_consec (fst r) =
    (if qualifying args tk then (smoke_consec st + 1)%Z else 0%Z) /\
  smoke_confirmed (snd r) = (Args.smoke_consec args <=? smoke_consec (fst r))%Z.
Proof.
  destruct (iter_gate args st tk) as [Hc Hs]. cbv zeta. rewrite Hc, Hs.
  unfold confirmation_gate. destruct (qualifying args tk); split; reflexivity.
Qed.

Lemma run_loop_trace (args : Args.t) (st : LoopState) (ticks : list Tick) :
  map smoke_confirmed (snd (run_loop args st ticks)) =
  gate_trace (Args.smoke_consec args) (smoke_consec st)
    (map (qualifying args) ticks).
Proof.
  revert st. induction ticks as [| tk rest IH]; intro st.
  - reflexivity.
  - rewrite run_loop_cons. cbn [snd map gate_trace].
    destruct (iter_counter args st tk) as [Hc Hs].
    rewrite Hs, IH, Hc. reflexivity.
Qed.

Lemma run_loop_counter_fold (args : Args.t) (st : LoopState) (ticks : list Tick) :
  smoke_consec (fst (run_loop args st ticks)) =
  fold_left (fun (c : Z) (f : bool) => if f then (c + 1)%Z else 0%Z)
            (map (qualifying args) ticks) (smoke_consec st).
Proof.
  revert st. induction ticks as [| tk rest IH]; intro st.
  - reflexivity.
  - rewrite run_loop_cons. cbn [fst map fold_left]. rewrite IH.
    destruct (iter_counter args st tk) as [Hc _]. rewrite Hc. reflexivity.
Qed.
End GateProofs.

Lemma counter_fold_closed (c : Z) (flags : list bool) :
  fold_left (fun (c : Z) (f : bool) => if f then (c + 1)%Z else 0%Z) flags c =
  counter_after c flags.
Proof.
  induction flags as [| f flags IH] using rev_ind.
  - unfold counter_after. simpl. lia.
  - rewrite fold_left_app. cbn [fold_left]. rewrite IH.
    unfold counter_after, run_length.
    rewrite forallb_app, rev_app_distr, length_app. cbn [forallb rev app length].
    destruct f; cbn [leading_true].
    + rewrite andb_true_r.
      destruct (forallb (fun f => f) flags) eqn:Hall; lia.
    + rewrite andb_false_r. reflexivity.
Qed.

Lemma counter_after_cons (c : Z) (f : bool) (flags : list bool) :
  counter_after c (f :: flags) =
  counter_after (if f then (c + 1)%Z else 0%Z) flags.
Proof.
  rewrite <- !counter_fold_closed. reflexivity.
Qed.

Lemma gate_trace_closed (N c : Z) (flags : list bool) :
  gate_trace N c flags =
  map (fun k => (N <=? counter_after c (firstn (S k) flags))%Z)
      (seq 0 (length flags)).
Proof.
  revert c. induction flags as [| f rest IH]; intro c.
  - reflexivity.
  - cbn [gate_trace length seq map]. f_equal.
    + cbn [firstn]. rewrite counter_after_cons.
      unfold counter_after. simpl. rewrite Z.add_0_r. reflexivity.
    + rewrite IH, <- seq_shift, map_map. apply map_ext. intro k.
      cbn [firstn]. rewrite counter_after_cons. reflexivity.
Qed.

(** C1.  A qualifying frame adds 1 to the consecutive counter, a frame
    that does not qualify sets it to 0 and clears the alert flag, and
    [smoke_confirmed] is true exactly when the counter is at least N.
    Over any sequence of frames the counter is the number of qualifying
    frames since the last one that did not qualify, and the confirmed
    output of frame k is the comparison of that number with N.  For N = 3
    and five qualifying frames from a counter of 0, confirmed is false,
    false, true, true, true. *)
Theorem confirmation_gate_debounce {Image : Type} `{Cv2 Image}
    (args : Args.t) (st : LoopState) :
  let N := Args.smoke_consec args in
  (forall consec sent,
     confirmation_gate N true consec sent
     = ((consec + 1)%Z, sent, (N <=? consec + 1)%Z) /\
     confirmation_gate N false consec sent = (0%Z, false, (N <=? 0)%Z)) /\
  (forall tk,
     let r := run_loop_iter args st tk in
     has_smoke (snd r) = qualifying args tk /\
     smoke_consec (fst r)
     = (if qualifying args tk then (smoke_consec st + 1)%Z else 0%Z) /\
     (smoke_confirmed (snd r) = true <-> (N <= smoke_consec (fst r))%Z) /\
     (qualifying args tk = false -> (0 < N)%Z ->
      smoke_alert_sent (fst r) = false)) /\
  (forall ticks,
     let r := run_loop args st ticks in
     let flags := map (qualifying args) ticks in
     smoke_consec (fst r) = counter_after (smoke_consec st) flags /\
     map smoke_confirmed (snd r)
     = map (fun k =>
              (N <=? counter_after (smoke_consec st) (firstn (S k) flags))%Z)
           (seq 0 (length ticks))) /\
  (forall t1 t2 t3 t4 t5,
     N = 3%Z ->
     smoke_consec st = 0%Z ->
     Forall (fun tk => qualifying args tk = true) [t1; t2; t3; t4; t5] ->
     map smoke_confirmed (snd (run_loop args st [t1; t2; t3; t4; t5]))
     = [false; false; true; true; true]).
Proof.
  intro N. split; [| split; [| split]].
  - intros consec sent. split; reflexivity.
  - intros tk r. destruct (iter_counter args st tk) as [Hc Hs]. fold r in Hc, Hs.
    split; [apply iter_has_smoke |]. split; [exact Hc |]. split.
    + rewrite Hs. apply Z.leb_le.
    + apply iter_flag.
  - intros ticks r flags. split.
    + unfold r. rewrite run_loop_counter_fold. apply counter_fold_closed.
    + unfold r. rewrite run_loop_trace, gate_trace_closed.
      unfold flags. rewrite length_map. reflexivity.
  - intros t1 t2 t3 t4 t5 HN Hc Hall.
    rewrite run_loop_trace. fold N. rewrite HN, Hc.
    repeat match goal with
           | Hf : Forall _ (_ :: _) |- _ => inversion Hf; subst; clear Hf
           end.
    cbn [map].
    repeat match goal with Hq : qualifying _ _ = true |- _ => rewrite Hq; clear Hq end.
    reflexivity.
Qed.

(** Five frames with a large detection, from the initial state. *)
Lemma confirmation_gate_debounce_witness :
  map smoke_confirmed
      (snd (run_loop sample_args (init_state None)
              [smoke_tick 1 []; smoke_tick 2 []; smoke_tick 3 [];
               smoke_tick 4 []; smoke_tick 5 []]))
  = [false; false; true; true; true].
Proof.
  apply (confirmation_gate_debounce sample_args (init_state None)).
  - reflexivity.
  - reflexivity.
  - repeat constructor.
Defined.

(** ** Draining results and the hold timer *)

Lemma drain_result_hold (args : Args.t) (now : Q) (acc : LoopState * (Z * Q))
    (res : Result) :
  fire_hold_until (fst (drain_result args now acc res)) =
  if confirming args res then now + Args.fire_hold args
  else fire_hold_until (fst acc).
Proof.
  destruct res as [r | e]; cbn [drain_result confirming]; [| reflexivity].
  destruct (Args.fire_confirm args <=? fire_hits r)%Z; [| reflexivity].
  destruct (saved r); reflexivity.
Qed.

Lemma fold_drain_hold (args : Args.t) (now : Q) (results : list Result)
    (acc : LoopState * (Z * Q)) :
  fire_hold_until (fst (fold_left (drain_result args now) results acc)) =
  if existsb (confirming args) results then now + Args.fire_hold args
  else fire_hold_until (fst acc).
Proof.
  revert acc. induction results as [| res rest IH]; intro acc.
  - reflexivity.
  - cbn [fold_left existsb]. rewrite IH, drain_result_hold.
    destruct (confirming args res), (existsb (confirming args) rest);
      reflexivity.
Qed.

Lemma drain_hold (args : Args.t) (now : Q) (st : LoopState)
    (results : list Result) :
  fire_hold_until (fst (drain args now st results)) =
  if existsb (confirming args) results then now + Args.fire_hold args
  else fire_hold_until st.
Proof.
  unfold drain. apply fold_drain_hold.
Qed.

Lemma existsb_none {A : Type} (p : A -> bool) (l : list A) :
  (forall x, In x l -> p x = false) -> existsb p l = false.
Proof.
  intro Hall. destruct (existsb p l) eqn:E; [| reflexivity].
  apply existsb_exists in E. destruct E as (x & Hx & Hp).
  rewrite (Hall x Hx) in Hp. discriminate.
Qed.

Section HoldProofs.
Context {Image : Type} `{Cv2 Image}.

Lemma iter_hold (args : Args.t) (st : LoopState) (tk : Tick) :
  fire_hold_until (fst (run_loop_iter args st tk)) =
  if existsb (confirming args) (out_q tk)
  then now tk + Args.fire_hold args
  else fire_hold_until st.
Proof.
  destruct (iter_drained args st tk) as [Hh _]. cbv zeta in Hh.
  rewrite Hh. apply drain_hold.
Qed.

Lemma run_loop_quiet_hold (args : Args.t) (st : LoopState) (ticks : list Tick) :
  (forall tk, In tk ticks ->
   forall res, In res (out_q tk) -> confirming args res = false) ->
  fire_hold_until (fst (run_loop args st ticks)) = fire_hold_until st.
Proof.
  revert st. induction ticks as [| tk rest IH]; intros st Hq.
  - reflexivity.
  - rewrite run_loop_cons. cbn [fst]. rewrite IH.
    + rewrite iter_hold, existsb_none; [reflexivity |].
      apply Hq. left. reflexivity.
    + intros x Hx. apply Hq. right. exact Hx.
Qed.
End HoldProofs.

(** C2.  In every iteration [has_fire] is true exactly when the time of
    the iteration is strictly before [fire_hold_until]; draining a
    success result whose hit count reaches the confirm threshold sets
    [fire_hold_until] to the time of the iteration plus the hold duration,
    and an iteration that drains no such result leaves it as it was.  So
    after an iteration at time t that drained a confirming result, and as
    long as no later iteration drains another one, [has_fire] at time t'
    is true exactly when t' < t + hold: with a hold of 3 s it is true on
    [t, t+3) and false at t+3. *)
Theorem hold_timer {Image : Type} `{Cv2 Image} (args : Args.t) (st : LoopState) :
  let hold := Args.fire_hold args in
  (forall tk,
     let r := run_loop_iter args st tk in
     (has_fire (snd r) = true <-> now tk < fire_hold_until (fst r)) /\
     ((exists res, In res (out_q tk) /\ confirming args res = true) ->
      fire_hold_until (fst r) = now tk + hold) /\
     ((forall res, In res (out_q tk) -> confirming args res = false) ->
      fire_hold_until (fst r) = fire_hold_until st)) /\
  (forall tk ticks tk',
     (exists res, In res (out_q tk) /\ confirming args res = true) ->
     (forall x, In x (ticks ++ [tk']) ->
      forall res, In res (out_q x) -> confirming args res = false) ->
     let st' := fst (run_loop args st (tk :: ticks)) in
     let o := snd (run_loop_iter args st' tk') in
     (has_fire o = true <-> now tk' < now tk + hold) /\
     (hold == 3 -> now tk <= now tk' -> now tk' < now tk + 3 ->
      has_fire o = true) /\
     (hold == 3 -> now tk' == now tk + 3 -> has_fire o = false)).
Proof.
  intro hold.
  assert (Hconf : forall tk,
             (exists res, In res (out_q tk) /\ confirming args res = true) ->
             fire_hold_until (fst (run_loop_iter args st tk)) = now tk + hold).
  { intros tk Hex. rewrite iter_hold.
    replace (existsb (confirming args) (out_q tk)) with true; [reflexivity |].
    symmetry. apply existsb_exists. exact Hex. }
  split.
  - intros tk r. split; [| split].
    + unfold r. rewrite iter_has_fire. apply Qltb_lt.
    + apply Hconf.
    + intro Hq. unfold r. rewrite iter_hold, existsb_none; auto.
  - intros tk ticks tk' Hex Hquiet st' o.
    assert (Hiff : has_fire o = true <-> now tk' < now tk + hold).
    { unfold o. rewrite iter_has_fire, Qltb_lt, iter_hold, existsb_none.
      - unfold st'. rewrite run_loop_cons. cbn [fst].
        rewrite run_loop_quiet_hold.
        + rewrite (Hconf tk Hex). reflexivity.
        + intros x Hx. apply Hquiet. apply in_or_app. left. exact Hx.
      - apply Hquiet. apply in_or_app. right. left. reflexivity. }
    split; [exact Hiff |]. split.
    + intros Hh _ Hlt. apply Hiff. rewrite Hh. exact Hlt.
    + intros Hh Heq. destruct (has_fire o); [| reflexivity].
      exfalso. assert (Hlt : now tk' < now tk + hold) by (apply Hiff; reflexivity).
      rewrite Hh, Heq in Hlt. exact (Qlt_irrefl _ Hlt).
Qed.

(** A result with 2 hits (threshold 2, hold 3 s) is drained at t = 10:
    the pipeline is still in hold at t = 12. *)
Lemma hold_timer_witness :
  has_fire
    (snd (run_loop_iter sample_args
            (fst (run_loop sample_args (init_state None)
                    [smoke_tick 10 [sample_result 2 []]; smoke_tick 11 []]))
            (smoke_tick 12 [])))
  = true.
Proof.
  apply (proj2 (hold_timer sample_args (init_state None))
           (smoke_tick 10 [sample_result 2 []]) [smoke_tick 11 []]
           (smoke_tick 12 [])).
  - exists (sample_result 2 []). split; [left; reflexivity | reflexivity].
  - intros x [<- | [<- | []]] res [].
  - reflexivity.
  - apply Qle_bool_iff. reflexivity.
  - reflexivity.
Defined.

(** Scenario 4 of the specification, evaluated: the confirming result
    lands at t = 10; later iterations run at 11, 12.9 and 13. *)
Example hold_timer_scenario :
  map has_fire
      (snd (run_loop sample_args (init_state None)
              [smoke_tick 10 [sample_result 2 []]; smoke_tick 11 [];
               smoke_tick (129 # 10) []; smoke_tick 13 []]))
  = [true; true; true; false].
Proof. vm_compute. reflexivity. Qed.

(** ** The trigger of the fire check *)

Lemma drain_result_check (args : Args.t) (now : Q) (acc : LoopState * (Z * Q))
    (res : Result) :
  last_fire_check (fst (drain_result args now acc res)) =
  match res with
  | ResOk _ => now
  | ResErr _ => last_fire_check (fst acc)
  end.
Proof.
  destruct res as [r | e]; cbn [drain_result]; [| reflexivity].
  destruct (Args.fire_confirm args <=? fire_hits r)%Z; [| reflexivity].
  destruct (saved r); reflexivity.
Qed.

Lemma fold_drain_check (args : Args.t) (now t : Q) (results : list Result)
    (acc : LoopState * (Z * Q)) :
  last_fire_check (fst acc) = t \/ last_fire_check (fst acc) = now ->
  last_fire_check (fst (fold_left (drain_result args now) results acc)) = t \/
  last_fire_check (fst (fold_left (drain_result args now) results acc)) = now.
Proof.
  revert acc. induction results as [| res rest IH]; intros acc Hacc.
  - exact Hacc.
  - cbn [fold_left]. apply IH. rewrite drain_result_check.
    destruct res; [right; reflexivity | exact Hacc].
Qed.

Lemma drain_check_cases (args : Args.t) (now : Q) (st : LoopState)
    (results : list Result) :
  last_fire_check (fst (drain args now st results)) = last_fire_check st \/
  last_fire_check (fst (drain args now st results)) = now.
Proof.
  unfold drain. apply fold_drain_check. left. reflexivity.
Qed.

Lemma drain_failures (args : Args.t) (now : Q) (st : LoopState)
    (results : list Result) :
  Forall (fun res => exists e, res = ResErr e) results ->
  drain args now st results = (st, (0%Z, 0)).
Proof.
  intro Hall. unfold drain. generalize (st, (0%Z, 0)) as acc.
  induction Hall as [| res rest (e & ->) _ IH]; intro acc; [reflexivity |].
  apply IH.
Qed.

Lemma failures_quiet (args : Args.t) (results : list Result) :
  Forall (fun res => exists e, res = ResErr e) results ->
  existsb (confirming args) results = false.
Proof.
  intro Hall. apply existsb_none. intros res Hres.
  rewrite Forall_forall in Hall. destruct (Hall res Hres) as (e & ->).
  reflexivity.
Qed.

Section TriggerProofs.
Context {Image : Type} `{Cv2 Image}.

Lemma iter_checked_iff (args : Args.t) (st : LoopState) (tk : Tick) :
  let r := run_loop_iter args st tk in
  checked (snd r) = true <->
  smoke_confirmed (snd r) = true /\
  Args.fire_check_cooldown args <= now tk - last_fire_check st /\
  has_fire (snd r) = false.
Proof.
  cbv zeta. rewrite iter_checked, iter_should, !andb_true_iff,
    negb_true_iff, Qle_bool_iff. tauto.
Qed.

Lemma iter_check_mono (args : Args.t) (st : LoopState) (tk : Tick) (t : Q) :
  t <= last_fire_check st ->
  t <= now tk ->
  t <= last_fire_check (fst (run_loop_iter args st tk)).
Proof.
  intros Hst Hnow. rewrite iter_last_check.
  destruct (checked (snd (run_loop_iter args st tk))); [exact Hnow |].
  destruct (drain_check_cases args (now tk) st (out_q tk)) as [-> | ->];
    assumption.
Qed.

Lemma run_loop_check_mono (args : Args.t) (st : LoopState)
    (ticks : list Tick) (t : Q) :
  t <= last_fire_check st ->
  Forall (fun tk => t <= now tk) ticks ->
  t <= last_fire_check (fst (run_loop args st ticks)).
Proof.
  revert st. induction ticks as [| tk rest IH]; intros st Hst Hall.
  - exact Hst.
  - inversion Hall as [| ? ? Htk Hrest]; subst.
    rewrite run_loop_cons. cbn [fst]. apply IH; [| exact Hrest].
    apply iter_check_mono; assumption.
Qed.

Lemma checks_apart (args : Args.t) (st : LoopState) (tk1 : Tick)
    (mid : list Tick) (tk2 : Tick) :
  StronglySorted Qle (map now (tk1 :: mid ++ [tk2])) ->
  checked (snd (run_loop_iter args st tk1)) = true ->
  checked (snd (run_loop_iter args (fst (run_loop args st (tk1 :: mid))) tk2))
  = true ->
  Args.fire_check_cooldown args <= now tk2 - now tk1.
Proof.
  intros Hsorted Hc1 Hc2.
  cbn [map] in Hsorted. inversion Hsorted as [| ? ? _ Hall]; subst.
  rewrite map_app, Forall_app in Hall. destruct Hall as [Hmid Hlast].
  apply iter_checked_iff in Hc2. destruct Hc2 as (_ & Hcd & _).
  assert (Hlow : now tk1
                 <= last_fire_check (fst (run_loop args st (tk1 :: mid)))).
  { rewrite run_loop_cons. cbn [fst]. apply run_loop_check_mono.
    - rewrite iter_last_check, Hc1. apply Qle_refl.
    - rewrite Forall_map in Hmid. exact Hmid. }
  lra.
Qed.

Lemma checks_scenario (args : Args.t) (st : LoopState) (tkA tkB tkC : Tick) :
  Args.fire_check_cooldown args == 3 ->
  checked (snd (run_loop_iter args st tkA)) = true ->
  now tkB == now tkA + 2 ->
  now tkC == now tkA + (31 # 10) ->
  qualifying args tkB = true ->
  qualifying args tkC = true ->
  Forall (fun res => exists e, res = ResErr e) (out_q tkB) ->
  Forall (fun res => confirming args res = false) (out_q tkC) ->
  let stA := fst (run_loop_iter args st tkA) in
  let stB := fst (run_loop_iter args stA tkB) in
  checked (snd (run_loop_iter args stA tkB)) = false /\
  checked (snd (run_loop_iter args stB tkC)) = true.
Proof.
  intros Hcd HA HtB HtC HqB HqC HoB HoC stA stB.
  assert (HlA : last_fire_check stA = now tkA).
  { unfold stA. rewrite iter_last_check, HA. reflexivity. }
  apply iter_checked_iff in HA. destruct HA as (HconfA & _ & HfireA).
  fold stA in HfireA.
  assert (HholdA : fire_hold_until stA <= now tkA).
  { rewrite iter_has_fire in HfireA. apply Qltb_ge in HfireA. exact HfireA. }
  assert (HNA : (Args.smoke_consec args <= smoke_consec stA)%Z).
  { destruct (iter_counter args st tkA) as [_ Hs]. rewrite Hs in HconfA.
    apply Z.leb_le in HconfA. exact HconfA. }
  assert (HB : checked (snd (run_loop_iter args stA tkB)) = false).
  { destruct (checked (snd (run_loop_iter args stA tkB))) eqn:E; [| reflexivity].
    apply iter_checked_iff in E. destruct E as (_ & Hle & _).
    rewrite HlA in Hle. lra. }
  split; [exact HB |].
  assert (HlB : last_fire_check stB = now tkA).
  { unfold stB. rewrite iter_last_check, HB, drain_failures by exact HoB.
    exact HlA. }
  assert (HholdB : fire_hold_until stB = fire_hold_until stA).
  { unfold stB. rewrite iter_hold, failures_quiet by exact HoB. reflexivity. }
  assert (HNB : (Args.smoke_consec args <= smoke_consec stB)%Z).
  { destruct (iter_counter args stA tkB) as [Hc _]. fold stB in Hc.
    rewrite Hc, HqB. lia. }
  apply iter_checked_iff. split; [| split].
  - destruct (iter_counter args stB tkC) as [Hc Hs]. rewrite Hs, Hc, HqC.
    apply Z.leb_le. lia.
  - rewrite HlB. lra.
  - rewrite iter_has_fire, iter_hold, existsb_none.
    + apply Qltb_ge. rewrite HholdB. lra.
    + rewrite Forall_forall in HoC. exact HoC.
Qed.
End TriggerProofs.

(** C3.  In every iteration the fire check (burst and job submission) is
    entered exactly when smoke is confirmed, the time since
    [last_fire_check] (its value when the iteration starts) is at least
    the cooldown, and the pipeline is not in hold; when it is entered,
    [last_fire_check] becomes the time of the iteration whatever the job
    queue holds.  With clock readings that do not decrease, two checks are
    at least the cooldown apart.  With a cooldown of 3 s, after a check at
    time t a qualifying frame at t + 2 does not check, and a qualifying
    frame at t + 3.1 does, provided that no success result was drained at
    t + 2 and no confirming one is drained at t + 3.1. *)
Theorem fire_check_gate {Image : Type} `{Cv2 Image} (args : Args.t)
    (st : LoopState) :
  let cooldown := Args.fire_check_cooldown args in
  (forall tk,
     let r := run_loop_iter args st tk in
     (checked (snd r) = true <->
      smoke_confirmed (snd r) = true /\
      cooldown <= now tk - last_fire_check st /\
      has_fire (snd r) = false) /\
     (checked (snd r) = true -> last_fire_check (fst r) = now tk)) /\
  (forall tk1 mid tk2,
     StronglySorted Qle (map now (tk1 :: mid ++ [tk2])) ->
     checked (snd (run_loop_iter args st tk1)) = true ->
     checked (snd (run_loop_iter args
                     (fst (run_loop args st (tk1 :: mid))) tk2)) = true ->
     cooldown <= now tk2 - now tk1) /\
  (forall tkA tkB tkC,
     cooldown == 3 ->
     checked (snd (run_loop_iter args st tkA)) = true ->
     now tkB == now tkA + 2 ->
     now tkC == now tkA + (31 # 10) ->
     qualifying args tkB = true ->
     qualifying args tkC = true ->
     Forall (fun res => exists e, res = ResErr e) (out_q tkB) ->
     Forall (fun res => confirming args res = false) (out_q tkC) ->
     let stA := fst (run_loop_iter args st tkA) in
     let stB := fst (run_loop_iter args stA tkB) in
     checked (snd (run_loop_iter args stA tkB)) = false /\
     checked (snd (run_loop_iter args stB tkC)) = true).
Proof.
  intro cooldown. split; [| split].
  - intros tk r. split.
    + apply iter_checked_iff.
    + intro Hc. unfold r. rewrite iter_last_check. fold r. rewrite Hc.
      reflexivity.
  - apply checks_apart.
  - apply checks_scenario.
Qed.

(** Scenario 3 of the specification: smoke is confirmed and the last check
    is 10 s old; frames at t = 0, 2 and 3.1. *)
Lemma fire_check_gate_witness :
  checked (snd (run_loop_iter sample_args
                  (fst (run_loop_iter sample_args (confirmed_state [])
                          (smoke_tick 0 [])))
                  (smoke_tick 2 []))) = false /\
  checked (snd (run_loop_iter sample_args
                  (fst (run_loop_iter sample_args
                          (fst (run_loop_iter sample_args (confirmed_state [])
                                  (smoke_tick 0 [])))
                          (smoke_tick 2 [])))
                  (smoke_tick (31 # 10) []))) = true.
Proof.
  apply (proj2 (proj2 (fire_check_gate sample_args (confirmed_state [])))
           (smoke_tick 0 []) (smoke_tick 2 []) (smoke_tick (31 # 10) []));
    try reflexivity; constructor.
Defined.

(** ** The job channel *)

Lemma put_nowait_cases {A : Type} (maxsize : nat) (q : list A) (x : A) :
  ((length q < maxsize)%nat -> put_nowait maxsize q x = Ok (q ++ [x])) /\
  ((maxsize <= length q)%nat -> put_nowait maxsize q x = Raised "Full").
Proof.
  unfold put_nowait. split; intro Hlen.
  - apply Nat.ltb_lt in Hlen. rewrite Hlen. reflexivity.
  - apply Nat.ltb_ge in Hlen. rewrite Hlen. reflexivity.
Qed.

Lemma skipn_length_le {A : Type} (n : nat) (l : list A) :
  (length (skipn n l) <= length l)%nat.
Proof.
  rewrite length_skipn. lia.
Qed.

(** C4.  The job queue never holds more than one job, and putting a job
    returns at once: it enters an empty queue and is refused by a queue
    that holds a job.  When a fire check is entered while the queue still
    holds a job the worker has not taken, the new job is dropped (the
    queue is as it was, the iteration goes on without an error) and
    [last_fire_check] is nevertheless set to the time of the iteration;
    when the queue is empty the job is queued. *)
Theorem job_channel_backpressure {Image : Type} `{Cv2 Image} (args : Args.t)
    (st : LoopState) :
  (forall (q : list Job) (job : Job),
     ((length q < 1)%nat -> put_nowait 1 q job = Ok (q ++ [job])) /\
     ((1 <= length q)%nat -> put_nowait 1 q job = Raised "Full")) /\
  (forall tk,
     (length (job_q st) <= 1)%nat ->
     (length (job_q (fst (run_loop_iter args st tk))) <= 1)%nat) /\
  (forall tk,
     let r := run_loop_iter args st tk in
     let pending := skipn (jobs_taken tk) (job_q st) in
     checked (snd r) = true ->
     pending <> [] ->
     job_q (fst r) = pending /\
     job_queued (snd r) = false /\
     last_fire_check (fst r) = now tk) /\
  (forall tk,
     let r := run_loop_iter args st tk in
     checked (snd r) = true ->
     skipn (jobs_taken tk) (job_q st) = [] ->
     exists job,
       fire_check (snd r) = Some job /\
       job_q (fst r) = [job] /\
       job_queued (snd r) = true /\
       last_fire_check (fst r) = now tk).
Proof.
  split; [| split; [| split]].
  - intros q job. apply put_nowait_cases.
  - intros tk Hlen.
    destruct (iter_job_q args st tk) as [Hq _]. cbv zeta in Hq. rewrite Hq.
    pose proof (skipn_length_le (jobs_taken tk) (job_q st)) as Hskip.
    destruct (fire_check (snd (run_loop_iter args st tk))); [| lia].
    destruct (length (skipn (jobs_taken tk) (job_q st)) <? 1)%nat eqn:E;
      [| lia].
    apply Nat.ltb_lt in E. rewrite length_app. simpl. lia.
  - intros tk r pending Hc Hpending.
    destruct (iter_job_q args st tk) as [Hq Hj]. fold r pending in Hq, Hj.
    assert (Hfull : (length pending <? 1)%nat = false).
    { apply Nat.ltb_ge. destruct pending; [contradiction | simpl; lia]. }
    rewrite Hfull in Hq, Hj. split; [| split].
    + rewrite Hq. destruct (fire_check (snd r)); reflexivity.
    + rewrite Hj, Hc. reflexivity.
    + unfold r. rewrite iter_last_check. fold r. rewrite Hc. reflexivity.
  - intros tk r Hc Hempty.
    destruct (iter_job_q args st tk) as [Hq Hj]. fold r in Hq, Hj.
    rewrite Hempty in Hq, Hj. cbn [length Nat.ltb Nat.leb app] in Hq, Hj.
    unfold checked in Hc.
    destruct (fire_check (snd r)) as [job |] eqn:Hf; [| discriminate].
    exists job. split; [reflexivity |]. split; [exact Hq |]. split.
    + rewrite Hj. unfold checked. rewrite Hf. reflexivity.
    + unfold r. rewrite iter_last_check. fold r. unfold checked.
      rewrite Hf. reflexivity.
Qed.

(** Scenario 5 of the specification: the queue holds a job when a check
    is entered at t = 0. *)
Lemma job_channel_backpressure_witness :
  let r := run_loop_iter sample_args (confirmed_state [sample_job])
             (smoke_tick 0 []) in
  job_q (fst r) = [sample_job] /\
  job_queued (snd r) = false /\
  last_fire_check (fst r) = 0.
Proof.
  apply (proj1 (proj2 (proj2 (job_channel_backpressure sample_args
                                (confirmed_state [sample_job]))))
           (smoke_tick 0 [])).
  - reflexivity.
  - discriminate.
Defined.

(** ** Draining a result *)

Example sample_worker_job_result :
  sample_worker_job (np := stable_numpy) sample_job
  = ResOk {| fire_hits := 1; best_score := 9 # 10;
             saved := ["snap_0.jpg"; "snap_1.jpg"; "snap_2.jpg"]%string;
             res_meta := sample_meta; t_job := 9; t_done := 10 |}.
Proof. vm_compute. reflexivity. Qed.

(** C6 (amended).  A drained success result sets [last_fire_check] to the
    time of the iteration; if its hit count reaches the confirm threshold
    it also sets [fire_hold_until] to that time plus the hold duration
    and [last_fire_confirm] to that time, and only then, if it carries
    snapshot names, [last_fire_snapshot] to that time.  A success result
    below the threshold changes [last_fire_check] alone, whatever names it
    carries, and a failure result changes nothing.  The iteration drains
    all the results that the queue holds, in order. *)
Theorem result_drain_effect {Image : Type} `{Cv2 Image} (args : Args.t)
    (t : Q) (acc : LoopState * (Z * Q)) (res : Result) :
  let st := fst acc in
  let st' := fst (drain_result args t acc res) in
  match res with
  | ResOk r =>
      last_fire_check st' = t /\
      snd (drain_result args t acc res) = (fire_hits r, best_score r) /\
      ((Args.fire_confirm args <= fire_hits r)%Z ->
       fire_hold_until st' = t + Args.fire_hold args /\
       last_fire_confirm st' = t /\
       (saved r <> [] -> last_fire_snapshot st' = t) /\
       (saved r = [] -> last_fire_snapshot st' = last_fire_snapshot st)) /\
      ((fire_hits r < Args.fire_confirm args)%Z ->
       fire_hold_until st' = fire_hold_until st /\
       last_fire_confirm st' = last_fire_confirm st /\
       last_fire_snapshot st' = last_fire_snapshot st)
  | ResErr _ => drain_result args t acc res = acc
  end /\
  (forall (s : LoopState) (tk : Tick),
     let d := fold_left (drain_result args (now tk)) (out_q tk)
                (s, (0%Z, 0)) in
     let r := run_loop_iter args s tk in
     fire_hold_until (fst r) = fire_hold_until (fst d) /\
     last_fire_confirm (fst r) = last_fire_confirm (fst d) /\
     last_fire_snapshot (fst r) = last_fire_snapshot (fst d) /\
     (checked (snd r) = false ->
      last_fire_check (fst r) = last_fire_check (fst d))).
Proof.
  intros st st'. split.
  - destruct res as [r | e]; [| reflexivity].
    unfold st', st. cbn [drain_result].
    destruct (Args.fire_confirm args <=? fire_hits r)%Z eqn:E.
    + apply Z.leb_le in E.
      destruct (saved r) eqn:Es; cbn [fst snd];
        repeat split; intros; try reflexivity; try lia; try congruence.
    + apply Z.leb_gt in E. cbn [fst snd].
      repeat split; intros; try reflexivity; lia.
  - intros s tk d r.
    destruct (iter_drained args s tk) as (Hh & Hc & Hs & _).
    repeat split; try assumption.
    intro Hno. unfold r. rewrite iter_last_check. fold r. rewrite Hno.
    reflexivity.
Qed.

(** A result with 2 hits and snapshot names, drained at t = 10 with
    threshold 2 and hold 3 s. *)
Lemma result_drain_effect_witness :
  let st' := fst (drain_result sample_args 10 (init_state None, (0%Z, 0))
                    (sample_result 2 ["snap_0.jpg"%string])) in
  fire_hold_until st' = 10 + 3 /\
  last_fire_confirm st' = 10 /\
  last_fire_snapshot st' = 10.
Proof.
  destruct (proj1 (result_drain_effect (Image := bytes) sample_args 10
                     (init_state None, (0%Z, 0))
                     (sample_result 2 ["snap_0.jpg"%string])))
    as (_ & _ & Hconf & _).
  destruct Hconf as (Hh & Hc & Hs & _); [simpl; lia |].
  split; [exact Hh |]. split; [exact Hc |]. apply Hs. discriminate.
Defined.

(** C6 as stated fails.  (1) The failure result that the worker emits
    when its engine does not load leaves [last_fire_check] alone.  (2)
    With threshold 2, the result that the worker emits for a burst with
    one hit carries three snapshot names, and draining it leaves
    [last_fire_snapshot] alone. *)
Lemma result_drain_effect_counterexample :
  fire_worker_main (Image := bytes) (np := stable_numpy)
    (Raised "no engine") 640 (1 # 2) [] "snaps" 3 (45 # 100) (Some 0%Z) true
    None None
  = [ResErr "Failed to load fire engine: no engine"] /\
  ~ drain_as_specified sample_args 10 (init_state None)
      (ResErr "Failed to load fire engine: no engine") /\
  snapshots (sample_worker_job (np := stable_numpy) sample_job)
  = ["snap_0.jpg"; "snap_1.jpg"; "snap_2.jpg"]%string /\
  ~ drain_as_specified sample_args 10 (init_state None)
      (sample_worker_job (np := stable_numpy) sample_job).
Proof.
  split; [reflexivity |]. split; [| split; [vm_compute; reflexivity |]].
  - intros (Hcheck & _). vm_compute in Hcheck. discriminate Hcheck.
  - intros (_ & _ & Hsnap).
    assert (Hnames : snapshots (sample_worker_job (np := stable_numpy)
                                  sample_job) <> [])
      by (vm_compute; discriminate).
    specialize (Hsnap Hnames). vm_compute in Hsnap. discriminate Hsnap.
Qed.

(** ** The fire worker *)

Lemma filter_nonempty_existsb {A : Type} (p : A -> bool) (l : list A) :
  match filter p l with
  | [] => false
  | _ :: _ => true
  end = existsb p l.
Proof.
  induction l as [| a l IH]; cbn [filter existsb]; [reflexivity |].
  destruct (p a); [reflexivity | exact IH].
Qed.

Section WorkerProofs.
Context {Image : Type} `{Cv2 Image} {np : Numpy}.
Variable fire_input : Z.
Variable fire_conf : Q.
Variable snap_count : Z.
Variable iou_thres : Q.
Variable fire_class_id : option Z.
Variable infer : Image -> exc Tensor.

#[local] Abbreviation hit :=
  (frame_hit fire_input fire_conf iou_thres fire_class_id infer).
#[local] Abbreviation spec_hit :=
  (hit_as_specified fire_input fire_conf iou_thres fire_class_id infer).
#[local] Abbreviation frame_step :=
  (fire_frame fire_input fire_conf iou_thres fire_class_id infer).
#[local] Abbreviation worker_job :=
  (fire_worker_job fire_input fire_conf snap_count iou_thres fire_class_id
     infer).
#[local] Abbreviation worker_loop :=
  (fire_worker_loop fire_input fire_conf snap_count iou_thres fire_class_id
     infer).
#[local] Abbreviation raises :=
  (job_raises fire_input fire_conf snap_count iou_thres fire_class_id infer).
#[local] Abbreviation returns :=
  (job_returns fire_input fire_conf snap_count iou_thres fire_class_id infer).

(** The loop counts a hit for the frames that the specification names. *)
Lemma frame_hit_spec (jb : bytes) : hit jb = spec_hit jb.
Proof.
  unfold frame_hit, hit_as_specified, fire_dets.
  destruct (imdecode jb) as [[roi |] | e]; try reflexivity.
  destruct (shape roi) as [Hh Ww]. cbn [fst snd].
  destruct (infer roi) as [out | e]; try reflexivity.
  destruct (decode_yolov11 _ _ _ _ _ _) as [dets | e]; try reflexivity.
  rewrite <- filter_nonempty_existsb.
  destruct (filter _ dets); reflexivity.
Qed.

Lemma fire_frame_hits (acc : Z * Best) (jb : bytes) :
  fst (frame_step acc jb) = (fst acc + (if hit jb then 1 else 0))%Z.
Proof.
  destruct acc as [hits best]. unfold fire_frame, frame_hit.
  destruct (fire_dets fire_input fire_conf iou_thres fire_class_id infer jb)
    as [[[roi [| d rest]] |] | e]; cbn [fst]; lia.
Qed.

Lemma fold_fire_frame_hits (burst : list bytes) (acc : Z * Best) :
  fst (fold_left frame_step burst acc) =
  (fst acc + Z.of_nat (length (filter hit burst)))%Z.
Proof.
  revert acc. induction burst as [| jb rest IH]; intro acc.
  - simpl. lia.
  - cbn [fold_left filter]. rewrite IH, fire_frame_hits.
    destruct (hit jb); cbn [length]; lia.
Qed.

Lemma fold_fire_frame_spec_hits (burst : list bytes) :
  fst (fold_left frame_step burst
         (0%Z, {| b_score := 0; b_img := None; b_box := None |}))
  = Z.of_nat (length (filter spec_hit burst)).
Proof.
  rewrite fold_fire_frame_hits. cbn [fst].
  rewrite (filter_ext hit spec_hit frame_hit_spec). lia.
Qed.

(** What handling one job gives: a success result with the hit count of
    the specification, or the exception of the drawing. *)
Lemma fire_worker_job_result (snap_dir : string) (tg : option TelegramAlerter)
    (job : Job) (clk : WorkerClock) :
  match worker_job snap_dir tg job clk with
  | Ok (res, _) =>
      exists r,
        res = ResOk r /\
        fire_hits r = Z.of_nat (length (filter spec_hit (rois_jpeg job))) /\
        res_meta r = meta job /\
        t_job r = wc_t_job clk /\
        t_done r = wc_t_done clk
  | Raised e => exists roi bx s, draw_fire roi bx s = Raised e
  end.
Proof.
  unfold fire_worker_job.
  pose proof (fold_fire_frame_spec_hits (rois_jpeg job)) as Hhits.
  destruct (fold_left frame_step (rois_jpeg job)
              (0%Z, {| b_score := 0; b_img := None; b_box := None |}))
    as [hits best].
  cbn [fst] in Hhits.
  destruct (b_img best) as [roi |], (b_box best) as [bx |];
    try (eexists; repeat split; exact Hhits).
  destruct (draw_fire roi bx (b_score best)) as [img | e] eqn:Ed.
  - eexists. repeat split. exact Hhits.
  - exists roi, bx, (b_score best). exact Ed.
Qed.

(** Whether the drawing raises depends on the burst alone. *)
Lemma job_raises_or_returns (job : Job) : raises job \/ returns job.
Proof.
  unfold job_raises, job_returns, fire_worker_job.
  destruct (fold_left frame_step (rois_jpeg job)
              (0%Z, {| b_score := 0; b_img := None; b_box := None |}))
    as [hits best].
  destruct (b_img best) as [roi |], (b_box best) as [bx |];
    try (right; intros; eexists; eexists; reflexivity).
  destruct (draw_fire roi bx (b_score best)) as [img | e].
  - right. intros. eexists. eexists. reflexivity.
  - left. intros. exists e. reflexivity.
Qed.

Lemma fire_worker_loop_results (snap_dir : string)
    (jobs : list (Job * WorkerClock)) (rest : list (option Job * WorkerClock))
    (tg : option TelegramAlerter) :
  Forall (fun jc => returns (fst jc)) jobs ->
  exists results tg',
    worker_loop snap_dir tg
      (map (fun jc => (Some (fst jc), snd jc)) jobs ++ rest)
    = results ++ worker_loop snap_dir tg' rest /\
    Forall2 (fun jc res =>
               exists r,
                 res = ResOk r /\
                 fire_hits r
                 = Z.of_nat (length (filter spec_hit (rois_jpeg (fst jc)))) /\
                 res_meta r = meta (fst jc) /\
                 t_job r = wc_t_job (snd jc) /\
                 t_done r = wc_t_done (snd jc))
            jobs results.
Proof.
  intro Hret. revert tg.
  induction jobs as [| [job clk] more IH]; intro tg.
  - exists [], tg. split; [reflexivity | constructor].
  - inversion Hret as [| ? ? Hjob Hmore]; subst.
    cbn [map app fst snd fire_worker_loop].
    set (tg1 := option_map (Nat.iter (wc_sent clk) _send_worker_step) tg).
    pose proof (fire_worker_job_result snap_dir tg1 job clk) as Hres.
    destruct (Hjob snap_dir tg1 clk) as (res & tg2 & Eq).
    cbn [fst] in Eq. rewrite Eq in Hres |- *.
    destruct (IH Hmore tg2) as (results & tg' & Hloop & Hall).
    exists (res :: results), tg'. split.
    + rewrite Hloop. reflexivity.
    + constructor; [exact Hres | exact Hall].
Qed.

Lemma fire_worker_loop_raise (snap_dir : string) (job : Job) (clk : WorkerClock)
    (rest : list (option Job * WorkerClock)) (tg : option TelegramAlerter) :
  raises job -> worker_loop snap_dir tg ((Some job, clk) :: rest) = [].
Proof.
  intro Hraise. cbn [fire_worker_loop].
  destruct (Hraise snap_dir
              (option_map (Nat.iter (wc_sent clk) _send_worker_step) tg) clk)
    as [e Eq].
  rewrite Eq. reflexivity.
Qed.

(** C7.  A worker whose engine fails to load emits one failure result
    with the reason and handles no job.  A worker whose engine loaded
    emits one success result per job, in order, as long as no drawing
    raises: the hit count of a result is the number of burst frames that
    decode and yield a detection of the secondary stage with area above 4
    (it may be 0), and it carries the metadata of the job.  The first job
    on which the drawing raises ends the worker: that job and every later
    one get no result.  Where the drawing cannot raise, every job gets its
    result. *)
Theorem worker_one_result_per_job (snap_dir : string) (HAS_REQUESTS : bool)
    (telegram_token telegram_chat : option string)
    (jobs : list (Job * WorkerClock))
    (tail : list (option Job * WorkerClock)) :
  let inbox := map (fun jc => (Some (fst jc), snd jc)) jobs ++ tail in
  let run loaded :=
    fire_worker_main loaded fire_input fire_conf inbox snap_dir snap_count
      iou_thres fire_class_id HAS_REQUESTS telegram_token telegram_chat in
  let result_of jc res :=
    exists r,
      res = ResOk r /\
      fire_hits r
      = Z.of_nat (length (filter spec_hit (rois_jpeg (fst jc)))) /\
      res_meta r = meta (fst jc) /\
      t_job r = wc_t_job (snd jc) /\
      t_done r = wc_t_done (snd jc) in
  (forall e,
     run (Raised e) = [ResErr ("Failed to load fire engine: " ++ e)%string]) /\
  (tail = [] \/ (exists clk rest, tail = (None, clk) :: rest) ->
   Forall (fun jc => returns (fst jc)) jobs ->
   length (run (Ok infer)) = length jobs /\
   Forall2 result_of jobs (run (Ok infer))) /\
  (forall done jc later,
     jobs = done ++ jc :: later ->
     Forall (fun jc => returns (fst jc)) done ->
     raises (fst jc) ->
     Forall2 result_of done (run (Ok infer))) /\
  ((forall roi bx s e, draw_fire roi bx s <> Raised e) ->
   forall job, returns job).
Proof.
  intros inbox run result_of. split; [reflexivity |].
  split; [| split].
  3: { intros Hsafe job sd tg clk.
       pose proof (fire_worker_job_result sd tg job clk) as Hres.
       destruct (worker_job sd tg job clk) as [[res tg'] | e].
       - exists res, tg'. reflexivity.
       - destruct Hres as (roi & bx & s & Hd). exfalso.
         exact (Hsafe roi bx s e Hd). }
  - intros Htail Hret. unfold run, fire_worker_main, inbox.
    match goal with
    | |- context [fire_worker_loop _ _ _ _ _ _ _ ?tg _] =>
        destruct (fire_worker_loop_results snap_dir jobs tail tg Hret)
          as (results & tg' & Hloop & Hall)
    end.
    rewrite Hloop.
    assert (Hend : worker_loop snap_dir tg' tail = []).
    { destruct Htail as [-> | (clk & rest & ->)]; reflexivity. }
    rewrite Hend, app_nil_r.
    split; [symmetry; exact (Forall2_length Hall) | exact Hall].
  - intros done [job clk] later -> Hret Hraise. cbn [fst] in Hraise.
    unfold run, fire_worker_main, inbox.
    rewrite map_app, <- app_assoc. cbn [map app fst snd].
    match goal with
    | |- context [fire_worker_loop _ _ _ _ _ _ _ ?tg _] =>
        destruct (fire_worker_loop_results snap_dir done
                    ((Some job, clk)
                     :: map (fun jc => (Some (fst jc), snd jc)) later ++ tail)
                    tg Hret)
          as (results & tg' & Hloop & Hall)
    end.
    rewrite Hloop, (fire_worker_loop_raise snap_dir job clk _ tg' Hraise),
      app_nil_r.
    exact Hall.
Qed.
End WorkerProofs.

(** Two jobs, then the sentinel: the engine reports a box that cannot be
    drawn, the drawing of the first job raises, and no result is put for
    either job. *)
Lemma worker_one_result_per_job_witness :
  fire_worker_main (np := stable_numpy) (Ok far_infer) 640 (1 # 2)
    [(Some sized_job, sample_clock); (Some sized_job, sample_clock);
     (None, sample_clock)]
    "snaps" 3 (45 # 100) (Some 0%Z) true None None
  = [].
Proof.
  pose proof (proj1 (proj2 (proj2
                (worker_one_result_per_job (np := stable_numpy) 640 (1 # 2) 3
                   (45 # 100) (Some 0%Z) far_infer "snaps" true None None
                   [(sized_job, sample_clock); (sized_job, sample_clock)]
                   [(None, sample_clock)])))
                [] (sized_job, sample_clock) [(sized_job, sample_clock)]
                eq_refl (Forall_nil _)) as Hnone.
  cbv zeta in Hnone.
  assert (Hraise : job_raises (np := stable_numpy) 640 (1 # 2) 3 (45 # 100)
                     (Some 0%Z) far_infer sized_job).
  { intros snap_dir tg clk. exists "cv2.error"%string.
    vm_compute. reflexivity. }
  specialize (Hnone Hraise). apply Forall2_length in Hnone.
  match goal with
  | |- ?run = [] => change (0%nat = length run) in Hnone; destruct run
  end; [reflexivity | discriminate Hnone].
Defined.

(** ** The burst *)

Section BurstProofs.
Context {Image : Type} `{Cv2 Image}.

Lemma burst_walk_step (buf : list bytes) (roi : Box) (stride need : Z)
    (idx taken : Z) (burst : list bytes) :
  burst_walk buf roi stride need idx taken burst =
  if ((0 <=? idx) && (taken <? need))%Z
  then
    match burst_sample roi (nth (Z.to_nat idx) buf []) with
    | Some jbr =>
        burst_walk buf roi stride need (idx - Z.max 1 stride) (taken + 1)
          (burst ++ [jbr])
    | None => burst_walk buf roi stride need (idx - Z.max 1 stride) taken burst
    end
  else burst.
Proof.
  funelim (burst_walk buf roi stride need idx taken burst).
  - replace (taken <? need)%Z with false by (symmetry; apply Z.ltb_ge; lia).
    rewrite andb_false_r. reflexivity.
  - replace (0 <=? idx)%Z with false by (symmetry; apply Z.leb_gt; lia).
    reflexivity.
  - replace (0 <=? idx)%Z with true by (symmetry; apply Z.leb_le; lia).
    replace (taken <? need)%Z with true by (symmetry; apply Z.ltb_lt; lia).
    cbn [andb].
    match goal with Hs : burst_sample _ _ = Some _ |- _ => rewrite Hs end.
    reflexivity.
  - replace (0 <=? idx)%Z with true by (symmetry; apply Z.leb_le; lia).
    replace (taken <? need)%Z with true by (symmetry; apply Z.ltb_lt; lia).
    cbn [andb].
    match goal with Hs : burst_sample _ _ = None |- _ => rewrite Hs end.
    reflexivity.
Qed.

Lemma burst_walk_refines (buf : list bytes) (roi : Box) (stride need : Z)
    (fuel : nat) (idx taken : Z) (burst : list bytes) :
  (idx + 1 <= Z.of_nat fuel)%Z ->
  burst_walk buf roi stride need idx taken burst =
  burst ++ firstn (Z.to_nat (need - taken))
             (flat_map (sampled buf roi)
                (indices_from fuel idx (Z.max 1 stride))).
Proof.
  revert idx taken burst.
  induction fuel as [| fuel IH]; intros idx taken burst Hfuel;
    rewrite burst_walk_step.
  - replace (0 <=? idx)%Z with false by (symmetry; apply Z.leb_gt; lia).
    cbn [andb indices_from flat_map]. rewrite firstn_nil, app_nil_r.
    reflexivity.
  - cbn [indices_from].
    destruct (0 <=? idx)%Z eqn:Eidx; cbn [andb flat_map].
    2: { rewrite firstn_nil, app_nil_r. reflexivity. }
    apply Z.leb_le in Eidx.
    destruct (taken <? need)%Z eqn:Etaken.
    + apply Z.ltb_lt in Etaken.
      replace (Z.to_nat (need - taken)) with (S (Z.to_nat (need - (taken + 1))))
        by lia.
      unfold sampled at 1.
      destruct (burst_sample roi (nth (Z.to_nat idx) buf [])) as [jbr |].
      * rewrite IH by lia. cbn [app firstn]. rewrite <- app_assoc.
        reflexivity.
      * rewrite IH by lia. cbn [app].
        replace (S (Z.to_nat (need - (taken + 1))))
          with (Z.to_nat (need - taken)) by lia.
        reflexivity.
    + apply Z.ltb_ge in Etaken.
      replace (Z.to_nat (need - taken)) with 0%nat by lia.
      cbn [firstn]. rewrite app_nil_r. reflexivity.
Qed.

Lemma burst_or_empty_fallback (args : Args.t) (buf : list bytes) (frame : Image)
    (smoke_dets : list Detection) :
  let roi := fst (burst_or_empty args buf frame smoke_dets) in
  snd (burst_or_empty args buf frame smoke_dets) =
  match burst_walk buf roi (Args.burst_stride args) (Args.burst_frames args)
          (Z.of_nat (length buf) - 1) 0 [] with
  | [] =>
      match imencode 85 (crop_roi frame roi) with
      | Some jbr => [jbr]
      | None => []
      end
  | jbr :: rest => jbr :: rest
  end.
Proof.
  unfold burst_or_empty. destruct (shape frame) as [Hh Ww]. cbn [fst snd].
  destruct (burst_walk buf _ _ _ _ _ _); reflexivity.
Qed.

Lemma burst_or_empty_at_roi (args : Args.t) (buf : list bytes) (frame : Image)
    (smoke_dets : list Detection) :
  fst (burst_or_empty args buf frame smoke_dets)
  = burst_roi args frame smoke_dets.
Proof.
  unfold burst_or_empty, burst_roi. destruct (shape frame) as [Hh Ww].
  reflexivity.
Qed.

Lemma build_burst_cases (args : Args.t) (buf : list bytes) (frame : Image)
    (smoke_dets : list Detection) :
  let roi := burst_roi args frame smoke_dets in
  build_burst args buf frame smoke_dets =
  match burst_walk buf roi (Args.burst_stride args) (Args.burst_frames args)
          (Z.of_nat (length buf) - 1) 0 [] with
  | [] =>
      match cv2_imencode 85 (crop_roi frame roi) with
      | Raised e => Raised e
      | Ok (Some jbr) => Ok (roi, [jbr])
      | Ok None => Ok (roi, [])
      end
  | jbr :: rest => Ok (roi, jbr :: rest)
  end.
Proof.
  unfold build_burst, burst_roi. destruct (shape frame) as [Hh Ww].
  cbv zeta. destruct (burst_walk buf _ _ _ _ _ _); reflexivity.
Qed.

(** When the fallback does not raise, the burst is the one of
    [burst_or_empty]. *)
Lemma build_burst_returns (args : Args.t) (buf : list bytes) (frame : Image)
    (smoke_dets : list Detection) :
  match build_burst args buf frame smoke_dets with
  | Ok b => b = burst_or_empty args buf frame smoke_dets
  | Raised e =>
      cv2_imencode 85 (crop_roi frame (burst_roi args frame smoke_dets))
      = Raised e
  end.
Proof.
  unfold build_burst, burst_or_empty, burst_roi, imencode.
  destruct (shape frame) as [Hh Ww].
  destruct (burst_walk buf _ _ _ _ _ _); [| reflexivity].
  destruct (cv2_imencode 85 _) as [[jbr |] | e]; reflexivity.
Qed.
End BurstProofs.

Lemma firstn_flat_map_single {A B : Type} (f : A -> list B) (n : nat)
    (l : list A) :
  (forall x, In x l -> length (f x) = 1%nat) ->
  firstn n (flat_map f l) = flat_map f (firstn n l).
Proof.
  revert n. induction l as [| a l IH]; intros n Hone.
  - rewrite !firstn_nil. reflexivity.
  - destruct n as [| n]; [reflexivity |].
    cbn [flat_map firstn].
    assert (Ha : length (f a) = 1%nat) by (apply Hone; left; reflexivity).
    destruct (f a) as [| b [| ? ?]]; try discriminate.
    cbn [app firstn]. rewrite IH; [reflexivity |].
    intros x Hx. apply Hone. right. exact Hx.
Qed.

(** C8 (amended).  The sampler walks the ring buffer from the newest entry
    to the oldest with the configured stride (1 when the option is
    smaller), collects the entries that decode, crop and encode, and
    stops when [need] are collected or the buffer is exhausted: it
    collects at most [need] frames, and the walk ends on every buffer.
    When it collects something, that is the burst.  For a buffer of 60
    entries, stride 2 and need 6, when every entry can be sampled, the
    burst is the entries at 59, 57, 55, 53, 51, 49.  When the walk
    collects nothing and [cv2.imencode] returns on the cropped live
    frame, the burst is that frame if the flag is true and it is empty
    if the flag is false; an exception of that call is not caught. *)
Theorem burst_collection {Image : Type} `{Cv2 Image} (args : Args.t)
    (buf : list bytes) (frame : Image) (smoke_dets : list Detection) :
  let stride := Args.burst_stride args in
  let need := Args.burst_frames args in
  let roi := burst_roi args frame smoke_dets in
  let built := build_burst args buf frame smoke_dets in
  let walked :=
    burst_walk buf roi stride need (Z.of_nat (length buf) - 1) 0 [] in
  walked = burst_spec buf roi stride need (burst_indices (length buf) stride) /\
  (Z.of_nat (length walked) <= Z.max 0 need)%Z /\
  (walked <> [] -> built = Ok (roi, walked)) /\
  (walked = [] ->
   forall jbr, cv2_imencode 85 (crop_roi frame roi) = Ok (Some jbr) ->
               built = Ok (roi, [jbr])) /\
  (walked = [] ->
   cv2_imencode 85 (crop_roi frame roi) = Ok None -> built = Ok (roi, [])) /\
  (walked = [] ->
   forall e, cv2_imencode 85 (crop_roi frame roi) = Raised e ->
             built = Raised e) /\
  (length buf = 60%nat -> stride = 2%Z -> need = 6%Z ->
   (forall jb, In jb buf -> burst_sample roi jb <> None) ->
   firstn 6 (burst_indices 60 2) = [59; 57; 55; 53; 51; 49]%nat /\
   built = Ok (roi, flat_map (sampled buf roi) [59; 57; 55; 53; 51; 49]%nat) /\
   length (flat_map (sampled buf roi) [59; 57; 55; 53; 51; 49]%nat) = 6%nat).
Proof.
  intros stride need roi built walked.
  assert (Hspec : walked
                  = burst_spec buf roi stride need
                      (burst_indices (length buf) stride)).
  { unfold walked. rewrite (burst_walk_refines buf roi stride need (length buf))
      by lia.
    rewrite Z.sub_0_r. reflexivity. }
  assert (Hbuilt : built = match walked with
                           | [] =>
                               match cv2_imencode 85 (crop_roi frame roi) with
                               | Raised e => Raised e
                               | Ok (Some jbr) => Ok (roi, [jbr])
                               | Ok None => Ok (roi, [])
                               end
                           | jbr :: rest => Ok (roi, jbr :: rest)
                           end).
  { unfold built. rewrite build_burst_cases. reflexivity. }
  split; [exact Hspec |]. split; [| split; [| split; [| split; [| split]]]].
  - rewrite Hspec. unfold burst_spec. rewrite length_firstn. lia.
  - intro Hne. rewrite Hbuilt. destruct walked; [contradiction | reflexivity].
  - intros Hnil jbr Henc. rewrite Hbuilt, Hnil, Henc. reflexivity.
  - intros Hnil Henc. rewrite Hbuilt, Hnil, Henc. reflexivity.
  - intros Hnil e Henc. rewrite Hbuilt, Hnil, Henc. reflexivity.
  - intros Hlen Hstride Hneed Hall.
    split; [reflexivity |].
    assert (Hone : forall i, In i (burst_indices 60 2) ->
                             length (sampled buf roi i) = 1%nat).
    { intros i Hi. unfold sampled.
      assert (Hlt : (i < 60)%nat).
      { revert Hi. vm_compute. intuition lia. }
      destruct (burst_sample roi (nth i buf [])) eqn:Es; [reflexivity |].
      exfalso. apply (Hall (nth i buf [])); [| exact Es].
      apply nth_In. lia. }
    assert (Hw : walked = flat_map (sampled buf roi) [59; 57; 55; 53; 51; 49]%nat).
    { rewrite Hspec. unfold burst_spec. rewrite Hlen, Hstride, Hneed.
      change (Z.to_nat 6) with 6%nat.
      apply (firstn_flat_map_single (sampled buf roi) 6 (burst_indices 60 2) Hone). }
    assert (Hlen6 : length walked = 6%nat).
    { rewrite Hw. cbn [flat_map].
      rewrite !length_app, !Hone by (vm_compute; tauto). reflexivity. }
    split; [| rewrite <- Hw; exact Hlen6].
    rewrite Hbuilt, <- Hw. destruct walked; [discriminate | reflexivity].
Qed.

(** Scenario 2 of the specification: 60 entries that all decode. *)
Lemma burst_collection_witness :
  let buf := repeat one_byte 60 in
  let roi := burst_roi sample_args one_byte [sample_det] in
  let taken := flat_map (sampled (Image := bytes) buf roi)
                        [59; 57; 55; 53; 51; 49]%nat in
  build_burst sample_args buf one_byte [sample_det] = Ok (roi, taken) /\
  length taken = 6%nat.
Proof.
  intros buf roi taken.
  destruct (burst_collection sample_args buf one_byte [sample_det])
    as (_ & _ & _ & _ & _ & _ & Hex).
  destruct Hex as (_ & Hb & Hl); try reflexivity.
  - intros jb Hjb. apply repeat_spec in Hjb. subst jb. discriminate.
  - split; [exact Hb | exact Hl].
Defined.

(** C8 as stated fails on the fallback: with an empty ring buffer and a
    live frame for whose crop [cv2.imencode] returns a false flag, the
    walk collects nothing and the burst is empty, not the live frame. *)
Lemma burst_collection_counterexample :
  ~ fallback_as_specified sample_args [] ([] : bytes) [sample_det] /\
  build_burst sample_args [] ([] : bytes) [sample_det]
  = Ok (burst_roi sample_args ([] : bytes) [sample_det], []).
Proof.
  split; [| reflexivity].
  unfold fallback_as_specified.
  intro Hfb. destruct Hfb as (jbr & Henc & _); [reflexivity |].
  discriminate Henc.
Qed.

(** ** The empty burst *)

Section EmptyBurstProofs.
Context {Image : Type} `{Cv2 Image}.

Lemma burst_walk_nothing (buf : list bytes) (roi : Box) (stride need : Z)
    (idx taken : Z) (burst : list bytes) :
  (forall jb, In jb buf -> burst_sample roi jb = None) ->
  (idx < Z.of_nat (length buf))%Z ->
  burst_walk buf roi stride need idx taken burst = burst.
Proof.
  intros Hnone Hidx.
  rewrite (burst_walk_refines buf roi stride need (length buf)) by lia.
  assert (Hall : forall fuel i,
             (i < Z.of_nat (length buf))%Z ->
             flat_map (sampled buf roi) (indices_from fuel i (Z.max 1 stride))
             = []).
  { induction fuel as [| fuel IH]; intros i Hi; [reflexivity |].
    cbn [indices_from]. destruct (0 <=? i)%Z eqn:Ei; [| reflexivity].
    apply Z.leb_le in Ei. cbn [flat_map].
    rewrite IH by lia. unfold sampled.
    rewrite Hnone; [reflexivity |]. apply nth_In. lia. }
  rewrite Hall by exact Hidx. rewrite firstn_nil, app_nil_r. reflexivity.
Qed.

Lemma undecodable_sample (roi : Box) (jb : bytes) :
  (forall fr, imdecode jb <> Ok (Some fr)) -> burst_sample roi jb = None.
Proof.
  intro Hbad. unfold burst_sample.
  destruct (imdecode jb) as [[fr |] | e]; try reflexivity.
  exfalso. exact (Hbad fr eq_refl).
Qed.

(** An iteration that no exception leaves ends as [run_loop_iter] says. *)
Lemma run_loop_step_ok (args : Args.t) (st : LoopState) (tk : Tick)
    (r : LoopState * TickOut) :
  run_loop_step args st tk = Ok r -> r = run_loop_iter args st tk.
Proof.
  unfold run_loop_step, run_loop_iter, draw_smoke.
  destruct (shape (frame tk)) as [Hh Ww].
  destruct (filter_smoke _ _ _ _) as [sd sm].
  destruct (confirmation_gate _ _ _ _) as [[sc sa] cf].
  destruct (drain _ _ _ _) as [dr [fh fb]].
  set (rg := match imencode 80 (frame tk) with
             | Some jb => deque_append 60 (ring st) jb
             | None => ring st
             end).
  set (jq := skipn (jobs_taken tk) (job_q st)).
  pose proof (build_burst_returns args rg (frame tk) sd) as Hb.
  destruct (burst_or_empty args rg (frame tk) sd) as [roi b].
  destruct (option_map _ (telegram_alerter st)) as [a |];
    [destruct (cf && negb sa);
     [destruct (cv2_draw_smoke (frame tk) sd sm) as [img | e0];
      [destruct (send_smoke_alert _ _ _ _ _ _ _) as [[|] a0]
      | discriminate] |] |].
  all: destruct (cf && Qle_bool _ _ && negb _).
  all: destruct (build_burst args rg (frame tk) sd) as [[roi' b'] | e0];
    [try (injection Hb as -> ->) |].
  all: try destruct (put_nowait 1 jq _) as [q | eq].
  all: try discriminate.
  all: match goal with
       | |- context [draw_overlay ?f ?d ?x ?y] =>
           destruct (draw_overlay f d x y) as [o | e1]; [| discriminate]
       end.
  all: intro Heq; injection Heq as <-; reflexivity.
Qed.

(** An iteration in which neither drawing raises: it ends as
    [run_loop_iter] says unless the fallback encoding of a fire check
    raises, and then [run_loop] ends with that exception. *)
Lemma run_loop_step_cases (args : Args.t) (st : LoopState) (tk : Tick) :
  let r := run_loop_iter args st tk in
  let smoke := frame_smoke args tk in
  (forall e, cv2_draw_smoke (frame tk) (fst smoke) (snd smoke) <> Raised e) ->
  (checked (snd r) = true ->
   forall e,
     build_burst args (ring (fst r)) (frame tk) (fst smoke) = Raised e ->
     run_loop_step args st tk = Raised e) /\
  ((forall dets a b e, draw_overlay (frame tk) dets a b <> Raised e) ->
   (checked (snd r) = true ->
    forall e,
      build_burst args (ring (fst r)) (frame tk) (fst smoke) <> Raised e) ->
   run_loop_step args st tk = Ok r).
Proof.
  intros r smoke. subst r smoke. rewrite iter_ring.
  unfold run_loop_step, run_loop_iter, frame_smoke, draw_smoke, checked.
  destruct (shape (frame tk)) as [Hh Ww].
  destruct (filter_smoke _ _ _ _) as [sd sm].
  change (fst (sd, sm)) with sd. change (snd (sd, sm)) with sm.
  intro Hd.
  destruct (confirmation_gate _ _ _ _) as [[sc sa] cf].
  destruct (drain _ _ _ _) as [dr [fh fb]].
  set (rg := match imencode 80 (frame tk) with
             | Some jb => deque_append 60 (ring st) jb
             | None => ring st
             end).
  set (jq := skipn (jobs_taken tk) (job_q st)).
  pose proof (build_burst_returns args rg (frame tk) sd) as Hb.
  destruct (burst_or_empty args rg (frame tk) sd) as [roi b].
  destruct (option_map _ (telegram_alerter st)) as [a |];
    [destruct (cf && negb sa);
     [destruct (cv2_draw_smoke (frame tk) sd sm) as [img | e0];
      [destruct (send_smoke_alert _ _ _ _ _ _ _) as [[|] a0]
      | exfalso; exact (Hd e0 eq_refl)] |] |].
  all: destruct (cf && Qle_bool _ _ && negb _).
  all: destruct (build_burst args rg (frame tk) sd) as [[roi' b'] | e0];
    [try (injection Hb as -> ->) |].
  all: try destruct (put_nowait 1 jq _) as [q | eq].
  all: cbn [fst snd fire_check ring].
  all: split; [intros Hc e He; first [discriminate | congruence]
              | intros Hov Hnb].
  all: try (exfalso; exact (Hnb eq_refl e0 eq_refl)).
  all: match goal with
       | |- context [draw_overlay ?f ?d ?x ?y] =>
           pose proof (Hov d x y) as Ho; destruct (draw_overlay f d x y) as [o | e1];
           [reflexivity | exfalso; exact (Ho e1 eq_refl)]
       end.
Qed.
End EmptyBurstProofs.

(** C10.  When a fire check is entered and the walk over the ring buffer
    collects nothing (as it does when no entry decodes), what follows
    depends on how the JPEG encoding of the cropped live frame fails.
    If [cv2.imencode] returns a false flag, the job that is built has an
    empty burst and is put on the job queue all the same (it is queued
    when the queue is empty); the worker handles it and emits a success
    result with hit count 0, best score 0.0 and no snapshot name.  If
    [cv2.imencode] raises, the exception leaves [run_loop]: no job is
    built and none is submitted. *)
Theorem empty_burst_job {Image : Type} `{Cv2 Image} {np : Numpy}
    (args : Args.t) (st : LoopState) (tk : Tick) :
  let r := run_loop_iter args st tk in
  let smoke := frame_smoke args tk in
  let roi := burst_roi args (frame tk) (fst smoke) in
  let walked :=
    burst_walk (ring (fst r)) roi (Args.burst_stride args)
      (Args.burst_frames args) (Z.of_nat (length (ring (fst r))) - 1) 0 [] in
  ((forall jb, In jb (ring (fst r)) -> forall fr, imdecode jb <> Ok (Some fr)) ->
   walked = []) /\
  (checked (snd r) = true ->
   walked = [] ->
   (forall e, cv2_draw_smoke (frame tk) (fst smoke) (snd smoke) <> Raised e) ->
   (forall e,
      cv2_imencode 85 (crop_roi (frame tk) roi) = Raised e ->
      run_loop_step args st tk = Raised e) /\
   (cv2_imencode 85 (crop_roi (frame tk) roi) = Ok None ->
    (forall dets a b e, draw_overlay (frame tk) dets a b <> Raised e) ->
    run_loop_step args st tk = Ok r /\
    exists job,
      fire_check (snd r) = Some job /\
      rois_jpeg job = [] /\
      (skipn (jobs_taken tk) (job_q st) = [] ->
       job_q (fst r) = [job] /\ job_queued (snd r) = true) /\
      forall fire_input fire_conf snap_count iou_thres fire_class_id infer
             snap_dir tg clk,
        fire_worker_job fire_input fire_conf snap_count iou_thres
          fire_class_id infer snap_dir tg job clk
        = Ok (ResOk {| fire_hits := 0; best_score := 0; saved := [];
                       res_meta := meta job; t_job := wc_t_job clk;
                       t_done := wc_t_done clk |},
              tg))).
Proof.
  intros r smoke roi walked. split.
  - intro Hring. unfold walked. apply burst_walk_nothing; [| lia].
    intros jb Hjb. apply undecodable_sample. apply Hring. exact Hjb.
  - intros Hc Hw Hdraw.
    destruct (run_loop_step_cases args st tk Hdraw) as [Hraise Hok].
    fold r smoke in Hraise, Hok.
    pose proof (build_burst_cases args (ring (fst r)) (frame tk) (fst smoke))
      as Hcases.
    cbv zeta in Hcases. fold roi in Hcases. fold walked in Hcases.
    rewrite Hw in Hcases.
    split.
    + intros e He. apply (Hraise Hc). rewrite Hcases, He. reflexivity.
    + intros He Hov. rewrite He in Hcases. split.
      * apply (Hok Hov). intros _ e. rewrite Hcases. discriminate.
      * pose proof (build_burst_returns args (ring (fst r)) (frame tk)
                      (fst smoke)) as Hret.
        rewrite Hcases in Hret.
        unfold checked in Hc.
        destruct (fire_check (snd r)) as [job |] eqn:Hf; [| discriminate].
        exists job. split; [reflexivity |].
        pose proof (iter_job args st tk job Hf) as Hjob. fold r in Hjob.
        unfold smoke, frame_smoke in Hret.
        destruct (shape (frame tk)) as [Hh Ww].
        cbv zeta in Hjob. rewrite <- Hret in Hjob. cbn [fst snd] in Hjob.
        assert (Hrois : rois_jpeg job = []) by (rewrite Hjob; reflexivity).
        split; [exact Hrois |]. split.
        -- intro Hq. destruct (iter_job_q args st tk) as [Hjq Hqd].
           fold r in Hjq, Hqd. rewrite Hf, Hq in Hjq. rewrite Hq in Hqd.
           unfold checked in Hqd. rewrite Hf in Hqd. split; assumption.
        -- intros. unfold fire_worker_job. rewrite Hrois. reflexivity.
Qed.

(** A frame of one pixel: the ROI is empty, the walk collects nothing and
    the fallback encoding raises; [run_loop] ends there.  And a frame for
    which [cv2.imencode] returns a false flag: the empty job is
    submitted and answered. *)
Lemma empty_burst_job_witness :
  (checked (snd (run_loop_iter sample_args (confirmed_state []) pixel_tick))
   = true /\
   run_loop_step sample_args (confirmed_state []) pixel_tick
   = Raised "cv2.error") /\
  (run_loop_step sample_args (confirmed_state []) (blank_tick 0)
   = Ok (run_loop_iter sample_args (confirmed_state []) (blank_tick 0)) /\
   exists job,
     fire_check (snd (run_loop_iter sample_args (confirmed_state [])
                        (blank_tick 0))) = Some job /\
     rois_jpeg job = [] /\
     sample_worker_job (np := stable_numpy) job
     = ResOk {| fire_hits := 0; best_score := 0; saved := [];
                res_meta := meta job; t_job := 9; t_done := 10 |}).
Proof.
  split.
  - split; [reflexivity |].
    destruct (empty_burst_job (np := stable_numpy) sample_args
                (confirmed_state []) pixel_tick) as [_ Hcheck].
    destruct Hcheck as [Hraise _]; [reflexivity | reflexivity | |].
    + intros e. discriminate.
    + apply Hraise. reflexivity.
  - destruct (empty_burst_job (np := stable_numpy) sample_args
                (confirmed_state []) (blank_tick 0)) as [_ Hcheck].
    destruct Hcheck as [_ Hflag]; [reflexivity | reflexivity | |].
    + intros e. discriminate.
    + destruct Hflag as (Hstep & job & Hf & Hrois & _ & Hres);
        [reflexivity | intros dets a b e; discriminate |].
      split; [exact Hstep |].
      exists job. split; [exact Hf |]. split; [exact Hrois |].
      unfold sample_worker_job. rewrite Hres. reflexivity.
Defined.

(** * Further properties of the code *)

(** ** ROI utilities *)

Lemma Qmin_cases (x y : Q) : Qmin x y = x \/ Qmin x y = y.
Proof.
  unfold Qmin, GenericMinMax.gmin. destruct (x ?= y); auto.
Qed.

Lemma Qmax_cases (x y : Q) : Qmax x y = x \/ Qmax x y = y.
Proof.
  unfold Qmax, GenericMinMax.gmax. destruct (x ?= y); auto.
Qed.

Lemma fold_min_bound (l : list Q) (a : Q) :
  fold_left Qmin l a <= a /\ forall x, In x l -> fold_left Qmin l a <= x.
Proof.
  revert a. induction l as [| y l IH]; intro a; cbn [fold_left].
  - split; [apply Qle_refl | intros x []].
  - destruct (IH (Qmin a y)) as [Ha Hl]. split.
    + eapply Qle_trans; [exact Ha | apply Q.le_min_l].
    + intros x [<- | Hx]; [| exact (Hl x Hx)].
      eapply Qle_trans; [exact Ha | apply Q.le_min_r].
Qed.

Lemma fold_max_bound (l : list Q) (a : Q) :
  a <= fold_left Qmax l a /\ forall x, In x l -> x <= fold_left Qmax l a.
Proof.
  revert a. induction l as [| y l IH]; intro a; cbn [fold_left].
  - split; [apply Qle_refl | intros x []].
  - destruct (IH (Qmax a y)) as [Ha Hl]. split.
    + eapply Qle_trans; [apply Q.le_max_l | exact Ha].
    + intros x [<- | Hx]; [| exact (Hl x Hx)].
      eapply Qle_trans; [apply Q.le_max_r | exact Ha].
Qed.

Lemma fold_min_attained (l : list Q) (a : Q) : In (fold_left Qmin l a) (a :: l).
Proof.
  revert a. induction l as [| y l IH]; intro a; cbn [fold_left].
  - left. reflexivity.
  - destruct (IH (Qmin a y)) as [Hhd | Htl]; [| right; right; exact Htl].
    rewrite <- Hhd. destruct (Qmin_cases a y) as [-> | ->]; simpl; auto.
Qed.

Lemma fold_max_attained (l : list Q) (a : Q) : In (fold_left Qmax l a) (a :: l).
Proof.
  revert a. induction l as [| y l IH]; intro a; cbn [fold_left].
  - left. reflexivity.
  - destruct (IH (Qmax a y)) as [Hhd | Htl]; [| right; right; exact Htl].
    rewrite <- Hhd. destruct (Qmax_cases a y) as [-> | ->]; simpl; auto.
Qed.

Lemma corner_attained (f : Detection -> Q) (d : Detection)
    (rest : list Detection) (v : Q) :
  In v (f d :: map f rest) -> exists e, In e (d :: rest) /\ v = f e.
Proof.
  intros [<- | Hin].
  - exists d. split; [left; reflexivity | reflexivity].
  - apply in_map_iff in Hin. destruct Hin as (e & <- & He).
    exists e. split; [right; exact He | reflexivity].
Qed.

Lemma union_boxes_bounds (dets : list Detection) :
  match union_boxes dets with
  | None => dets = []
  | Some ub =>
      dets <> [] /\
      (forall d, In d dets ->
                 bx1 ub <= bx1 (box d) /\ by1 ub <= by1 (box d) /\
                 bx2 (box d) <= bx2 ub /\ by2 (box d) <= by2 ub) /\
      (exists d, In d dets /\ bx1 ub = bx1 (box d)) /\
      (exists d, In d dets /\ by1 ub = by1 (box d)) /\
      (exists d, In d dets /\ bx2 ub = bx2 (box d)) /\
      (exists d, In d dets /\ by2 ub = by2 (box d))
  end.
Proof.
  destruct dets as [| d rest]; [reflexivity |].
  cbn [union_boxes bx1 by1 bx2 by2].
  split; [discriminate |]. split.
  - intros e He.
    destruct (fold_min_bound (map (fun d => bx1 (box d)) rest) (bx1 (box d)))
      as [Hx1 Hx1'].
    destruct (fold_min_bound (map (fun d => by1 (box d)) rest) (by1 (box d)))
      as [Hy1 Hy1'].
    destruct (fold_max_bound (map (fun d => bx2 (box d)) rest) (bx2 (box d)))
      as [Hx2 Hx2'].
    destruct (fold_max_bound (map (fun d => by2 (box d)) rest) (by2 (box d)))
      as [Hy2 Hy2'].
    destruct He as [<- | He]; [tauto |].
    repeat split;
      [apply Hx1' | apply Hy1' | apply Hx2' | apply Hy2'];
      apply in_map_iff; exists e; split; [reflexivity | exact He | reflexivity
        | exact He | reflexivity | exact He | reflexivity | exact He].
  - repeat split.
    + apply (corner_attained (fun d => bx1 (box d))), fold_min_attained.
    + apply (corner_attained (fun d => by1 (box d))), fold_min_attained.
    + apply (corner_attained (fun d => bx2 (box d))), fold_max_attained.
    + apply (corner_attained (fun d => by2 (box d))), fold_max_attained.
Qed.

(** X1.  [union_boxes] returns [None] exactly on the empty list; otherwise
    the box it returns contains every input box, and each of its four
    sides is the side of some input box. *)
Theorem union_boxes_encloses (dets : list Detection) :
  match union_boxes dets with
  | None => dets = []
  | Some ub =>
      dets <> [] /\
      (forall d, In d dets ->
                 bx1 ub <= bx1 (box d) /\ by1 ub <= by1 (box d) /\
                 bx2 (box d) <= bx2 ub /\ by2 (box d) <= by2 ub) /\
      (exists d, In d dets /\ bx1 ub = bx1 (box d)) /\
      (exists d, In d dets /\ by1 ub = by1 (box d)) /\
      (exists d, In d dets /\ bx2 ub = bx2 (box d)) /\
      (exists d, In d dets /\ by2 ub = by2 (box d))
  end.
Proof.
  apply union_boxes_bounds.
Qed.

Lemma union_boxes_encloses_witness :
  match union_boxes [sample_det] with
  | None => False
  | Some ub => bx1 ub <= bx1 (box sample_det) /\ bx2 (box sample_det) <= bx2 ub
  end.
Proof.
  pose proof (union_boxes_encloses [sample_det]) as Hu.
  destruct (union_boxes [sample_det]) as [ub |]; [| discriminate Hu].
  destruct Hu as (_ & Hall & _).
  destruct (Hall sample_det (or_introl eq_refl)) as (Hx1 & _ & Hx2 & _).
  split; [exact Hx1 | exact Hx2].
Defined.

Lemma clamp_range (hi v : Q) :
  0 <= hi -> 0 <= Qmax 0 (Qmin hi v) /\ Qmax 0 (Qmin hi v) <= hi.
Proof.
  intro Hhi. split; [apply Q.le_max_l |].
  apply Q.max_lub; [exact Hhi | apply Q.le_min_l].
Qed.

Lemma clamp_below (hi v p : Q) :
  v <= p -> 0 <= p -> Qmax 0 (Qmin hi v) <= p.
Proof.
  intros Hv Hp. apply Q.max_lub; [exact Hp |].
  eapply Qle_trans; [apply Q.le_min_r | exact Hv].
Qed.

Lemma clamp_above (hi v p : Q) :
  p <= v -> p <= hi -> p <= Qmax 0 (Qmin hi v).
Proof.
  intros Hv Hp. eapply Qle_trans; [| apply Q.le_max_r].
  apply Q.min_glb; assumption.
Qed.

Lemma inject_Z_nonneg (n : Z) : (0 <= n)%Z -> 0 <= inject_Z n.
Proof.
  intro Hn. change 0 with (inject_Z 0). rewrite <- Zle_Qle. exact Hn.
Qed.

Lemma expand_box_range (b : Box) (margin : Q) (W H : Z) :
  (1 <= W)%Z -> (1 <= H)%Z ->
  let r := expand_box b margin W H in
  0 <= bx1 r /\ bx1 r <= bx2 r /\ bx2 r <= inject_Z (W - 1) /\
  0 <= by1 r /\ by1 r <= by2 r /\ by2 r <= inject_Z (H - 1) /\
  (r = full_frame W H \/ (bx1 r + 2 < bx2 r /\ by1 r + 2 < by2 r)).
Proof.
  intros HW HH r.
  assert (Hw : 0 <= inject_Z (W - 1)) by (apply inject_Z_nonneg; lia).
  assert (Hh : 0 <= inject_Z (H - 1)) by (apply inject_Z_nonneg; lia).
  unfold r, expand_box.
  set (x1 := Qmax 0 (Qmin (inject_Z (W - 1))
                          (bx1 b - (bx2 b - bx1 b) * margin))).
  set (y1 := Qmax 0 (Qmin (inject_Z (H - 1))
                          (by1 b - (by2 b - by1 b) * margin))).
  set (x2 := Qmax 0 (Qmin (inject_Z (W - 1))
                          (bx2 b + (bx2 b - bx1 b) * margin))).
  set (y2 := Qmax 0 (Qmin (inject_Z (H - 1))
                          (by2 b + (by2 b - by1 b) * margin))).
  destruct (Qle_bool x2 (x1 + 2) || Qle_bool y2 (y1 + 2)) eqn:E;
    cbn [bx1 by1 bx2 by2].
  - split; [apply Qle_refl |]. split; [exact Hw |]. split; [apply Qle_refl |].
    split; [apply Qle_refl |]. split; [exact Hh |]. split; [apply Qle_refl |].
    left. reflexivity.
  - apply orb_false_iff in E. destruct E as [Ex Ey].
    assert (Hx : x1 + 2 < x2).
    { apply Qnot_le_lt. intro Hle. apply Qle_bool_iff in Hle. congruence. }
    assert (Hy : y1 + 2 < y2).
    { apply Qnot_le_lt. intro Hle. apply Qle_bool_iff in Hle. congruence. }
    pose proof (clamp_range (inject_Z (W - 1))
                  (bx1 b - (bx2 b - bx1 b) * margin) Hw) as [Hx1 _].
    pose proof (clamp_range (inject_Z (W - 1))
                  (bx2 b + (bx2 b - bx1 b) * margin) Hw) as [_ Hx2].
    pose proof (clamp_range (inject_Z (H - 1))
                  (by1 b - (by2 b - by1 b) * margin) Hh) as [Hy1 _].
    pose proof (clamp_range (inject_Z (H - 1))
                  (by2 b + (by2 b - by1 b) * margin) Hh) as [_ Hy2].
    fold x1 in Hx1. fold x2 in Hx2. fold y1 in Hy1. fold y2 in Hy2.
    repeat split; try assumption; lra.
Qed.

(** X2.  For a frame of at least 1 by 1 pixels, the box that [expand_box]
    returns lies between column 0 and column W - 1 and between row 0 and
    row H - 1, and it is either the full frame or more than 2 pixels wide
    and more than 2 pixels high. *)
Theorem expand_box_in_frame (b : Box) (margin : Q) (W H : Z) :
  (1 <= W)%Z -> (1 <= H)%Z ->
  let r := expand_box b margin W H in
  0 <= bx1 r /\ bx1 r <= bx2 r /\ bx2 r <= inject_Z (W - 1) /\
  0 <= by1 r /\ by1 r <= by2 r /\ by2 r <= inject_Z (H - 1) /\
  (r = full_frame W H \/ (bx1 r + 2 < bx2 r /\ by1 r + 2 < by2 r)).
Proof.
  apply expand_box_range.
Qed.

Lemma expand_box_keeps (b : Box) (margin : Q) (W H : Z) (px py : Q) :
  (1 <= W)%Z -> (1 <= H)%Z ->
  0 <= margin ->
  bx1 b <= bx2 b -> by1 b <= by2 b ->
  in_box px py b ->
  in_box px py (full_frame W H) ->
  in_box px py (expand_box b margin W H).
Proof.
  intros HW HH Hm Hbx Hby (Hp1 & Hp2 & Hp3 & Hp4) Hframe.
  pose proof Hframe as (Hf1 & Hf2 & Hf3 & Hf4).
  cbn [full_frame bx1 by1 bx2 by2] in Hf1, Hf2, Hf3, Hf4.
  assert (Hgx : 0 <= (bx2 b - bx1 b) * margin).
  { apply Qmult_le_0_compat; [lra | exact Hm]. }
  assert (Hgy : 0 <= (by2 b - by1 b) * margin).
  { apply Qmult_le_0_compat; [lra | exact Hm]. }
  unfold expand_box.
  destruct (Qle_bool _ _ || Qle_bool _ _); [exact Hframe |].
  unfold in_box. cbn [bx1 by1 bx2 by2].
  repeat split.
  - apply clamp_below; lra.
  - apply clamp_above; lra.
  - apply clamp_below; lra.
  - apply clamp_above; lra.
Qed.

(** X3.  With a margin that is not negative and a box whose corners are
    in order, [expand_box] never cuts into the box: every point of the
    box that lies in the frame lies in the box returned. *)
Theorem expand_box_covers (b : Box) (margin : Q) (W H : Z) (px py : Q) :
  (1 <= W)%Z -> (1 <= H)%Z ->
  0 <= margin ->
  bx1 b <= bx2 b -> by1 b <= by2 b ->
  in_box px py b ->
  in_box px py (full_frame W H) ->
  in_box px py (expand_box b margin W H).
Proof.
  apply expand_box_keeps.
Qed.

(** A box of 200 by 100 pixels in a frame of 640 by 480, margin 0.35. *)
Lemma expand_box_covers_witness :
  in_box 150 120
    (expand_box {| bx1 := 100; by1 := 100; bx2 := 300; by2 := 200 |}
       (35 # 100) 640 480).
Proof.
  apply expand_box_covers; try lia;
    try (apply Qle_bool_iff; reflexivity);
    repeat split; apply Qle_bool_iff; reflexivity.
Defined.

Lemma expand_box_in_frame_witness :
  let r := expand_box {| bx1 := 100; by1 := 100; bx2 := 300; by2 := 200 |}
             (35 # 100) 640 480 in
  0 <= bx1 r /\ bx2 r <= inject_Z (640 - 1).
Proof.
  intro r.
  destruct (expand_box_in_frame
              {| bx1 := 100; by1 := 100; bx2 := 300; by2 := 200 |}
              (35 # 100) 640 480) as (H1 & _ & H3 & _); try lia.
  split; assumption.
Defined.

Lemma int_of_float_floor (q : Q) : 0 <= q -> int_of_float q = Qfloor q.
Proof.
  destruct q as [n d]. unfold Qle, int_of_float, Qfloor. cbn [Qnum Qden].
  intro Hn. apply Z.quot_div_nonneg; lia.
Qed.

Lemma floor_gap (x y : Q) : x + 2 < y -> (Qfloor x + 2 <= Qfloor y)%Z.
Proof.
  intro Hxy.
  pose proof (Qfloor_le x) as Hx. pose proof (Qlt_floor y) as Hy.
  assert (Hlt : inject_Z (Qfloor x + 2) < inject_Z (Qfloor y + 1)).
  { rewrite inject_Z_plus. change (inject_Z 2) with 2. lra. }
  rewrite <- Zlt_Qlt in Hlt. lia.
Qed.

Lemma floor_nonneg (x : Q) : 0 <= x -> (0 <= Qfloor x)%Z.
Proof.
  intro Hx. change 0%Z with (Qfloor (inject_Z 0)). apply Qfloor_resp_le.
  exact Hx.
Qed.

Lemma floor_upper (x : Q) (n : Z) : x <= inject_Z n -> (Qfloor x <= n)%Z.
Proof.
  intro Hx. rewrite <- (Qfloor_Z n). apply Qfloor_resp_le. exact Hx.
Qed.

(** X4.  For a frame of at least 2 by 2 pixels, the slice that [crop_roi]
    takes for a box returned by [expand_box] is not empty and ends before
    the last column and the last row: its bounds satisfy
    0 <= int(x1) < int(x2) <= W - 1 and 0 <= int(y1) < int(y2) <= H - 1. *)
Theorem crop_roi_bounds (b : Box) (margin : Q) (W H : Z) :
  (2 <= W)%Z -> (2 <= H)%Z ->
  let r := expand_box b margin W H in
  (0 <= int_of_float (bx1 r) < int_of_float (bx2 r))%Z /\
  (int_of_float (bx2 r) <= W - 1)%Z /\
  (0 <= int_of_float (by1 r) < int_of_float (by2 r))%Z /\
  (int_of_float (by2 r) <= H - 1)%Z.
Proof.
  intros HW HH r.
  destruct (expand_box_range b margin W H) as
    (Hx1 & Hx12 & Hx2 & Hy1 & Hy12 & Hy2 & Hsize); try lia.
  fold r in Hx1, Hx12, Hx2, Hy1, Hy12, Hy2, Hsize.
  rewrite !int_of_float_floor by lra.
  pose proof (floor_nonneg _ Hx1) as Fx1.
  pose proof (floor_nonneg _ Hy1) as Fy1.
  pose proof (floor_upper _ _ Hx2) as Fx2.
  pose proof (floor_upper _ _ Hy2) as Fy2.
  destruct Hsize as [-> | [Hx Hy]].
  - cbn [full_frame bx1 by1 bx2 by2].
    change 0 with (inject_Z 0). rewrite !Qfloor_Z. lia.
  - pose proof (floor_gap _ _ Hx). pose proof (floor_gap _ _ Hy). lia.
Qed.

Lemma crop_roi_bounds_witness :
  let r := expand_box {| bx1 := 100; by1 := 100; bx2 := 300; by2 := 200 |}
             (35 # 100) 640 480 in
  (0 <= int_of_float (bx1 r) < int_of_float (bx2 r))%Z.
Proof.
  intro r.
  destruct (crop_roi_bounds {| bx1 := 100; by1 := 100; bx2 := 300; by2 := 200 |}
              (35 # 100) 640 480) as (Hx & _); try lia.
  exact Hx.
Defined.

(** ** The job that an iteration builds *)

Lemma filter_smoke_in (smoke_min_area : Q) (W H : Z) (dets : list Detection)
    (d : Detection) :
  In d (fst (filter_smoke smoke_min_area W H dets)) <->
  In d dets /\
  smoke_min_area * inject_Z (W * H)
  <= Qmax 0 (bx2 (box d) - bx1 (box d)) * Qmax 0 (by2 (box d) - by1 (box d)).
Proof.
  unfold filter_smoke. cbn [fst]. rewrite filter_In, Qle_bool_iff. tauto.
Qed.

Lemma filter_smoke_ordered (smoke_min_area : Q) (W H : Z)
    (dets : list Detection) (d : Detection) :
  0 < smoke_min_area -> (1 <= W)%Z -> (1 <= H)%Z ->
  In d (fst (filter_smoke smoke_min_area W H dets)) ->
  bx1 (box d) < bx2 (box d) /\ by1 (box d) < by2 (box d).
Proof.
  intros Ha HW HH Hd. apply filter_smoke_in in Hd. destruct Hd as [_ Harea].
  assert (Hwh : 0 < inject_Z (W * H)).
  { change 0 with (inject_Z 0). rewrite <- Zlt_Qlt. nia. }
  assert (Hmin : 0 < smoke_min_area * inject_Z (W * H)).
  { apply Qmult_lt_0_compat; assumption. }
  set (u := bx2 (box d) - bx1 (box d)) in *.
  set (v := by2 (box d) - by1 (box d)) in *.
  assert (Hu : 0 < u).
  { apply Qnot_le_lt. intro Hle.
    assert (Hz : Qmax 0 u == 0) by (apply Q.max_l; exact Hle).
    rewrite Hz in Harea. lra. }
  assert (Hv : 0 < v).
  { apply Qnot_le_lt. intro Hle.
    assert (Hz : Qmax 0 v == 0) by (apply Q.max_l; exact Hle).
    rewrite Hz in Harea. lra. }
  unfold u, v in Hu, Hv. split; lra.
Qed.

Section JobProofs.
Context {Image : Type} {cv : Cv2 Image}.

Lemma burst_or_empty_roi (args : Args.t) (buf : list bytes) (frame : Image)
    (smoke_dets : list Detection) (H W : Z) :
  shape frame = (H, W) ->
  fst (burst_or_empty args buf frame smoke_dets) =
  expand_box match union_boxes smoke_dets with
             | Some ub => ub
             | None => full_frame W H
             end (Args.roi_margin args) W H.
Proof.
  intro Hs. unfold burst_or_empty. rewrite Hs. reflexivity.
Qed.

Lemma iter_job_fields (args : Args.t) (st : LoopState) (tk : Tick) (job : Job)
    (H W : Z) :
  let r := run_loop_iter args st tk in
  fire_check (snd r) = Some job ->
  shape (frame tk) = (H, W) ->
  let smoke := filter_smoke (Args.smoke_min_area args) W H (dets tk) in
  rois_jpeg job = snd (burst_or_empty args (ring (fst r)) (frame tk) (fst smoke)) /\
  roi_box (meta job)
  = fst (burst_or_empty args (ring (fst r)) (frame tk) (fst smoke)) /\
  ts (meta job) = now tk /\
  meta_smoke_max (meta job) = snd smoke /\
  meta_smoke_consec (meta job) = smoke_consec (fst r).
Proof.
  intros r Hf Hs smoke.
  pose proof (iter_job args st tk job Hf) as Hjob. fold r in Hjob.
  rewrite Hs in Hjob. cbv zeta in Hjob. rewrite Hjob.
  repeat split; reflexivity.
Qed.

Lemma burst_length (args : Args.t) (buf : list bytes) (frame : Image)
    (smoke_dets : list Detection) :
  (Z.of_nat (length (snd (burst_or_empty args buf frame smoke_dets)))
   <= Z.max 1 (Args.burst_frames args))%Z.
Proof.
  rewrite burst_or_empty_fallback.
  set (roi := fst (burst_or_empty args buf frame smoke_dets)).
  rewrite (burst_walk_refines buf roi (Args.burst_stride args)
             (Args.burst_frames args) (length buf)) by lia.
  cbn [app]. rewrite Z.sub_0_r.
  set (walked := firstn _ _).
  assert (Hlen : (length walked <= Z.to_nat (Args.burst_frames args))%nat).
  { unfold walked. rewrite length_firstn. lia. }
  destruct walked as [| jbr rest].
  - destruct (imencode 85 (crop_roi frame roi)); simpl; lia.
  - lia.
Qed.
End JobProofs.

(** X5.  The ROI of every job that an iteration submits lies in the
    frame, and when the minimum area ratio is positive and the margin is
    not negative it covers every smoke detection of that frame: each
    point of a qualifying smoke box that lies in the frame lies in the
    ROI. *)
Theorem job_roi_covers_smoke {Image : Type} {cv : Cv2 Image} (args : Args.t)
    (st : LoopState) (tk : Tick) (job : Job) (H W : Z) :
  fire_check (snd (run_loop_iter args st tk)) = Some job ->
  shape (frame tk) = (H, W) ->
  (1 <= W)%Z -> (1 <= H)%Z ->
  let roi := roi_box (meta job) in
  (0 <= bx1 roi /\ bx2 roi <= inject_Z (W - 1) /\
   0 <= by1 roi /\ by2 roi <= inject_Z (H - 1)) /\
  (0 < Args.smoke_min_area args ->
   0 <= Args.roi_margin args ->
   forall d,
     In d (fst (filter_smoke (Args.smoke_min_area args) W H (dets tk))) ->
     forall px py,
       in_box px py (box d) ->
       in_box px py (full_frame W H) ->
       in_box px py roi).
Proof.
  intros Hf Hs HW HH roi.
  destruct (iter_job_fields args st tk job H W Hf Hs) as (_ & Hroi & _).
  unfold roi. rewrite Hroi, (burst_or_empty_roi _ _ _ _ H W Hs).
  split.
  - destruct (expand_box_range
                match union_boxes
                        (fst (filter_smoke (Args.smoke_min_area args) W H (dets tk)))
                with
                | Some ub => ub
                | None => full_frame W H
                end (Args.roi_margin args) W H HW HH)
      as (Hx1 & _ & Hx2 & Hy1 & _ & Hy2 & _).
    tauto.
  - intros Ha Hm d Hd px py Hin Hframe.
    pose proof (union_boxes_bounds
                  (fst (filter_smoke (Args.smoke_min_area args) W H (dets tk))))
      as Hub.
    destruct (union_boxes _) as [ub |]; [| rewrite Hub in Hd; contradiction].
    destruct Hub as (_ & Hall & _).
    destruct (Hall d Hd) as (Hu1 & Hu2 & Hu3 & Hu4).
    destruct (filter_smoke_ordered _ _ _ _ d Ha HW HH Hd) as [Hox Hoy].
    destruct Hin as (Hp1 & Hp2 & Hp3 & Hp4).
    apply expand_box_keeps; try assumption; try lra.
    unfold in_box. lra.
Qed.

Lemma job_roi_covers_smoke_witness :
  exists job,
    fire_check (snd (run_loop_iter sample_args (confirmed_state [])
                       (smoke_tick 0 []))) = Some job /\
    in_box 150 150 (roi_box (meta job)).
Proof.
  destruct (fire_check (snd (run_loop_iter sample_args (confirmed_state [])
                               (smoke_tick 0 [])))) as [job |] eqn:E;
    [| vm_compute in E; discriminate].
  exists job. split; [reflexivity |].
  apply (proj2 (job_roi_covers_smoke sample_args (confirmed_state [])
                  (smoke_tick 0 []) job 480 640 E eq_refl
                  ltac:(lia) ltac:(lia)))
    with (d := sample_det).
  - reflexivity.
  - apply Qle_bool_iff. reflexivity.
  - left. reflexivity.
  - repeat split; apply Qle_bool_iff; reflexivity.
  - repeat split; apply Qle_bool_iff; reflexivity.
Defined.

(** ** More on NMS and decoding *)

Lemma StronglySorted_precedes (R : nat -> nat -> Prop) (l : list nat) :
  (forall i j, precedes i j l -> R i j) -> StronglySorted R l.
Proof.
  induction l as [| x rest IH]; intro Hall; constructor.
  - apply IH. intros i j Hp. apply Hall. simpl. right. exact Hp.
  - apply Forall_forall. intros j Hj. apply Hall. simpl. left. tauto.
Qed.

Lemma filter_all {A : Type} (p : A -> bool) (l : list A) :
  (forall x, In x l -> p x = true) -> filter p l = l.
Proof.
  induction l as [| a l IH]; intro Hall; [reflexivity |].
  cbn [filter]. rewrite (Hall a) by (left; reflexivity).
  rewrite IH; [reflexivity |]. intros x Hx. apply Hall. right. exact Hx.
Qed.

Section NMSMore.
Variable boxes : list Box.
Variable iou_thres : Q.

#[local] Abbreviation ok' i j :=
  (iou_le iou_thres (box_at boxes i) (box_at boxes j)).
#[local] Abbreviation loop' := (nms_loop boxes iou_thres).

Lemma nms_loop_nodup (order : list nat) :
  NoDup order -> NoDup (loop' order).
Proof.
  remember (length order) as n eqn:Hn.
  revert order Hn. induction n as [n IH] using lt_wf_ind.
  intros [| i0 rest] Hn Hnd; [simp nms_loop; constructor |].
  rewrite nms_loop_cons.
  inversion Hnd as [| ? ? Hi0 Hrest]; subst.
  assert (Hlen : (length (filter (fun j => ok' i0 j) rest) < length (i0 :: rest))%nat).
  { simpl. apply Nat.lt_succ_r, filter_length_le. }
  constructor.
  - intro Hin. apply nms_loop_incl in Hin. apply filter_In in Hin. tauto.
  - apply (IH _ Hlen _ eq_refl). apply NoDup_filter. exact Hrest.
Qed.

Lemma nms_loop_all (order : list nat) :
  (forall i j, In i order -> In j order -> i <> j -> ok' i j = true) ->
  NoDup order ->
  loop' order = order.
Proof.
  induction order as [| i0 rest IH]; intros Hall Hnd; [simp nms_loop; reflexivity |].
  inversion Hnd as [| ? ? Hi0 Hrest]; subst.
  rewrite nms_loop_cons, filter_all.
  - rewrite IH; [reflexivity | | exact Hrest].
    intros i j Hi Hj. apply Hall; right; assumption.
  - intros j Hj. apply Hall; [left; reflexivity | right; exact Hj |].
    intros ->. contradiction.
Qed.
End NMSMore.

Lemma order_nodup {np : Numpy} (scores : list Q) :
  NoDup (rev (argsort scores)).
Proof.
  apply (Permutation_NoDup (Permutation_sym (order_perm scores))), seq_NoDup.
Qed.

Lemma order_in {np : Numpy} (scores : list Q) (i : nat) :
  In i (rev (argsort scores)) <-> (i < length scores)%nat.
Proof.
  split; intro Hi.
  - apply (Permutation_in _ (order_perm scores)) in Hi. apply in_seq in Hi. lia.
  - apply (Permutation_in _ (Permutation_sym (order_perm scores))), in_seq. lia.
Qed.

Section NMSFacts.
Context {np : Numpy}.
Variable boxes : list Box.
Variable scores : list Q.
Variable iou_thres : Q.
Hypothesis Hlen : length boxes = length scores.

Lemma nms_xyxy_loop :
  nms_xyxy boxes scores iou_thres
  = nms_loop boxes iou_thres (rev (argsort scores)).
Proof.
  unfold nms_xyxy. destruct boxes as [| b bs]; [| reflexivity].
  destruct scores; [| discriminate].
  pose proof (argsort_permutes []) as Hnil. cbn in Hnil.
  apply Permutation_sym, Permutation_nil in Hnil. rewrite Hnil.
  reflexivity.
Qed.

Lemma nms_in_range (i : nat) :
  In i (nms_xyxy boxes scores iou_thres) -> (i < length scores)%nat.
Proof.
  rewrite nms_xyxy_loop. intro Hi. apply order_in, (nms_loop_incl _ _ _ _ Hi).
Qed.

Lemma nms_nodup : NoDup (nms_xyxy boxes scores iou_thres).
Proof.
  rewrite nms_xyxy_loop. apply nms_loop_nodup, order_nodup.
Qed.

Lemma nms_pairs (i j : nat) :
  precedes i j (nms_xyxy boxes scores iou_thres) ->
  iou_le iou_thres (box_at boxes i) (box_at boxes j) = true /\
  nth j scores 0 <= nth i scores 0.
Proof.
  rewrite nms_xyxy_loop. intro Hp.
  pose proof (precedes_In _ _ _ Hp) as [Hi Hj].
  pose proof (nms_loop_order _ _ _ _ _ Hp) as Hord.
  split.
  - apply (nms_loop_kept boxes iou_thres _ (order_nodup scores) j); assumption.
  - exact (precedes_sorted _ _ _ _ (order_sorted scores) Hord).
Qed.

Lemma nms_head :
  scores <> [] ->
  exists i0 rest,
    nms_xyxy boxes scores iou_thres = i0 :: rest /\
    forall j, (j < length scores)%nat -> nth j scores 0 <= nth i0 scores 0.
Proof.
  intro Hne. rewrite nms_xyxy_loop.
  pose proof (order_sorted scores) as Hs.
  pose proof (order_in scores) as Hin.
  destruct (rev (argsort scores)) as [| i0 rest] eqn:E.
  - exfalso. destruct scores as [| s ss]; [contradiction |].
    apply (Hin 0%nat). simpl. lia.
  - rewrite nms_loop_cons. eexists _, _. split; [reflexivity |].
    intros j Hj. apply Hin in Hj. destruct Hj as [<- | Hj]; [apply Qle_refl |].
    inversion Hs as [| ? ? _ Hall]; subst. rewrite Forall_forall in Hall.
    exact (Hall j Hj).
Qed.
End NMSFacts.

(** X6.  With as many boxes as scores, the indices that [nms_xyxy] returns
    are distinct and in range, their scores never increase along the
    list, no returned box overlaps one returned before it by more than
    the threshold, and for a non-empty input the first index returned is
    one of maximal score: the best box is never suppressed. *)
Theorem nms_xyxy_keeps_best {np : Numpy} (boxes : list Box) (scores : list Q)
    (iou_thres : Q) :
  length boxes = length scores ->
  let keep := nms_xyxy boxes scores iou_thres in
  NoDup keep /\
  (forall i, In i keep -> (i < length scores)%nat) /\
  (forall i j, precedes i j keep ->
               iou_le iou_thres (box_at boxes i) (box_at boxes j) = true /\
               nth j scores 0 <= nth i scores 0) /\
  (scores <> [] ->
   exists i0 rest,
     keep = i0 :: rest /\
     forall j, (j < length scores)%nat -> nth j scores 0 <= nth i0 scores 0).
Proof.
  intros Hlen keep. split; [| split; [| split]].
  - apply nms_nodup. exact Hlen.
  - intros i. apply nms_in_range. exact Hlen.
  - intros i j. apply nms_pairs. exact Hlen.
  - apply nms_head. exact Hlen.
Qed.

Lemma nms_xyxy_keeps_best_witness :
  exists i0 rest,
    nms_xyxy (np := stable_numpy) [box_a; box_b; box_c]
      [8 # 10; 9 # 10; 7 # 10] (45 # 100)
    = i0 :: rest /\
    forall j, (j < 3)%nat -> nth j [8 # 10; 9 # 10; 7 # 10] 0
                             <= nth i0 [8 # 10; 9 # 10; 7 # 10] 0.
Proof.
  apply (nms_xyxy_keeps_best (np := stable_numpy) [box_a; box_b; box_c]
           [8 # 10; 9 # 10; 7 # 10] (45 # 100) eq_refl).
  discriminate.
Defined.

Lemma iou_le_disjoint (iou_thres : Q) (a b : Box) :
  0 <= iou_thres -> inter a b == 0 -> 0 < area a + area b ->
  iou_le iou_thres a b = true.
Proof.
  intros Ht Hi Hpos. unfold iou_le.
  destruct (Qeq_bool (area a + area b - inter a b) 0) eqn:E.
  - apply Qeq_bool_iff in E. rewrite Hi in E. lra.
  - apply Qle_bool_iff. unfold Qdiv. rewrite Hi, Qmult_0_l. exact Ht.
Qed.

(** X7.  [nms_xyxy] never drops a box that overlaps no other: when the
    threshold is not negative and every two distinct boxes have an empty
    intersection and areas of positive sum, every index is returned,
    once, and the score never increases along the list; the list is the
    order of consideration, numpy's argsort of the scores reversed,
    whatever order that sort leaves equal scores in. *)
Theorem nms_xyxy_keeps_disjoint {np : Numpy} (boxes : list Box)
    (scores : list Q) (iou_thres : Q) :
  length boxes = length scores ->
  0 <= iou_thres ->
  (forall i j, (i < length scores)%nat -> (j < length scores)%nat -> i <> j ->
               inter (box_at boxes i) (box_at boxes j) == 0 /\
               0 < area (box_at boxes i) + area (box_at boxes j)) ->
  let keep := nms_xyxy boxes scores iou_thres in
  Permutation keep (seq 0 (length scores)) /\
  StronglySorted (considered_before scores) keep /\
  keep = rev (argsort scores).
Proof.
  intros Hlen Ht Hdis keep.
  assert (Heq : keep = rev (argsort scores)).
  { unfold keep. rewrite (nms_xyxy_loop _ _ _ Hlen). apply nms_loop_all.
    - intros i j Hi Hj Hne. apply order_in in Hi, Hj.
      destruct (Hdis i j Hi Hj Hne) as [Hinter Hpos].
      apply iou_le_disjoint; assumption.
    - apply order_nodup. }
  rewrite Heq. split; [apply order_perm |]. split; [apply order_sorted |].
  reflexivity.
Qed.

(** Two boxes far from each other: both indices come out, the higher
    score first. *)
Lemma nms_xyxy_keeps_disjoint_witness :
  Permutation
    (nms_xyxy (np := stable_numpy) [box_a; box_c] [7 # 10; 9 # 10] (45 # 100))
    (seq 0 2) /\
  nms_xyxy (np := stable_numpy) [box_a; box_c] [7 # 10; 9 # 10] (45 # 100)
  = [1; 0]%nat.
Proof.
  split; [| reflexivity].
  apply (nms_xyxy_keeps_disjoint (np := stable_numpy) [box_a; box_c]
           [7 # 10; 9 # 10] (45 # 100) eq_refl).
  - apply Qle_bool_iff. reflexivity.
  - intros i j Hi Hj Hne.
    assert (Hcases : (i = 0 /\ j = 1)%nat \/ (i = 1 /\ j = 0)%nat)
      by (simpl in *; lia).
    destruct Hcases as [[-> ->] | [-> ->]]; split; reflexivity.
Defined.

Lemma nth_map_lt {A B : Type} (f : A -> B) (l : list A) (i : nat) (d : A)
    (d' : B) :
  (i < length l)%nat -> nth i (map f l) d' = f (nth i l d).
Proof.
  intro Hi. rewrite (nth_indep _ d' (f d)) by (rewrite length_map; exact Hi).
  apply map_nth.
Qed.

Lemma decode_ok_inv {np : Numpy} (arr : Tensor) (conf_thres : Q) (img_in_wh img_out_wh : Z * Z)
    (target_class_id : option Z) (iou_thres : Q) (dets : list Detection) :
  decode_yolov11 (Some arr) conf_thres img_in_wh img_out_wh target_class_id
    iou_thres = Ok dets ->
  let kept := filter (passes arr conf_thres target_class_id) (columns arr) in
  (kept = [] /\ dets = []) \/
  (kept <> [] /\
   exists boxes,
     length boxes = length kept /\
     dets = map (fun i => {| box := nth i boxes zero_box;
                             score := nth i (map conf kept) 0;
                             class_id := nth i (map (cls_id arr) kept) 0%Z |})
                (nms_xyxy boxes (map conf kept) iou_thres)).
Proof.
  intros Hd kept. unfold kept, passes. unfold decode_yolov11 in Hd.
  destruct (columns arr) as [| c l] eqn:Ec.
  - left. split; [reflexivity | congruence].
  - destruct (cdim arr <? 5)%Z; [discriminate |].
    destruct (filter _ (c :: l)) as [| k ks] eqn:Ek.
    + left. split; [reflexivity | congruence].
    + right. split; [discriminate |].
      destruct (Qeq_bool _ 0 || Qeq_bool _ 0); [discriminate |].
      exists (map (fun c =>
                     {| bx1 := (cx c - cw c / 2)
                               * (inject_Z (fst img_out_wh)
                                  / inject_Z (fst img_in_wh));
                        by1 := (cy c - ch c / 2)
                               * (inject_Z (snd img_out_wh)
                                  / inject_Z (snd img_in_wh));
                        bx2 := (cx c + cw c / 2)
                               * (inject_Z (fst img_out_wh)
                                  / inject_Z (fst img_in_wh));
                        by2 := (cy c + ch c / 2)
                               * (inject_Z (snd img_out_wh)
                                  / inject_Z (snd img_in_wh)) |})
                  (k :: ks)).
      split; [apply length_map |].
      injection Hd as <-. reflexivity.
Qed.

Lemma FOP_map_precedes {B : Type} (R : B -> B -> Prop) (f : nat -> B)
    (l : list nat) :
  (forall i j, precedes i j l -> R (f i) (f j)) ->
  ForallOrdPairs R (map f l).
Proof.
  induction l as [| x rest IH]; intro Hall; cbn [map]; constructor.
  - apply Forall_forall. intros b Hb. apply in_map_iff in Hb.
    destruct Hb as (j & <- & Hj). apply Hall. simpl. left. tauto.
  - apply IH. intros i j Hp. apply Hall. simpl. right. exact Hp.
Qed.

Lemma passes_true (arr : Tensor) (conf_thres : Q) (target_class_id : option Z)
    (c : Column) :
  passes arr conf_thres target_class_id c = true ->
  conf_thres <= conf c /\
  (forall t, target_class_id = Some t -> (6 <= cdim arr)%Z -> cls_id arr c = t).
Proof.
  unfold passes. intro Hp. apply andb_prop in Hp. destruct Hp as [Hc Hcls].
  split; [apply Qle_bool_iff; exact Hc |].
  intros t -> H6. apply Z.leb_le in H6. rewrite H6 in Hcls.
  apply Z.eqb_eq. exact Hcls.
Qed.

Lemma decode_filters_inv {np : Numpy} (arr : Tensor) (conf_thres : Q)
    (img_in_wh img_out_wh : Z * Z) (target_class_id : option Z)
    (iou_thres : Q) (dets : list Detection) :
  decode_yolov11 (Some arr) conf_thres img_in_wh img_out_wh target_class_id
    iou_thres = Ok dets ->
  (forall d, In d dets ->
     conf_thres <= score d /\
     (forall t, target_class_id = Some t -> (6 <= cdim arr)%Z ->
                class_id d = t) /\
     ((cdim arr < 6)%Z -> class_id d = 0%Z)) /\
  (length dets <= length (columns arr))%nat.
Proof.
  intro Hd. apply decode_ok_inv in Hd. cbv zeta in Hd.
  set (kept := filter (passes arr conf_thres target_class_id) (columns arr)) in *.
  destruct Hd as [[_ ->] | (Hne & boxes & Hlen & ->)].
  - split; [intros d [] | simpl; lia].
  - assert (Hlen' : length boxes = length (map conf kept))
      by (rewrite length_map; exact Hlen).
    split.
    + intros d Hd. apply in_map_iff in Hd. destruct Hd as (i & <- & Hi).
      pose proof (nms_in_range _ _ _ Hlen' i Hi) as Hrange.
      rewrite length_map in Hrange.
      cbn [score class_id].
      rewrite (nth_map_lt conf kept i zero_column 0 Hrange).
      rewrite (nth_map_lt (cls_id arr) kept i zero_column 0%Z Hrange).
      assert (Hin : In (nth i kept zero_column) kept) by (apply nth_In; exact Hrange).
      apply filter_In in Hin. destruct Hin as [_ Hp].
      destruct (passes_true _ _ _ _ Hp) as [Hc Hcls].
      split; [exact Hc |]. split; [exact Hcls |].
      intro Hlt. unfold cls_id.
      replace (6 <=? cdim arr)%Z with false by (symmetry; apply Z.leb_gt; lia).
      reflexivity.
    + rewrite length_map.
      apply Nat.le_trans with (length kept); [| apply filter_length_le].
      replace (length kept) with (length (seq 0 (length kept)))
        by apply length_seq.
      apply NoDup_incl_length; [apply nms_nodup; exact Hlen' |].
      intros i Hi. apply in_seq.
      pose proof (nms_in_range _ _ _ Hlen' i Hi) as Hrange.
      rewrite length_map in Hrange. lia.
Qed.

(** X8.  Every detection that [decode_yolov11] returns has a score of at
    least the confidence threshold; it has the target class when one is
    given and the tensor has a class row, and class 0 when the tensor has
    none; and there are never more detections than columns in the
    tensor. *)
Theorem decode_respects_filters {np : Numpy} (arr : Tensor) (conf_thres : Q)
    (img_in_wh img_out_wh : Z * Z) (target_class_id : option Z)
    (iou_thres : Q) (dets : list Detection) :
  decode_yolov11 (Some arr) conf_thres img_in_wh img_out_wh target_class_id
    iou_thres = Ok dets ->
  (forall d, In d dets ->
     conf_thres <= score d /\
     (forall t, target_class_id = Some t -> (6 <= cdim arr)%Z ->
                class_id d = t) /\
     ((cdim arr < 6)%Z -> class_id d = 0%Z)) /\
  (length dets <= length (columns arr))%nat.
Proof.
  exact (decode_filters_inv arr conf_thres img_in_wh img_out_wh target_class_id
           iou_thres dets).
Qed.

Lemma decode_respects_filters_witness :
  1 # 2 <= 9 # 10 /\
  (length [{| box := {| bx1 := 345600 # 1280; by1 := 259200 # 1280;
                        bx2 := 473600 # 1280; by2 := 355200 # 1280 |};
              score := 9 # 10; class_id := 0%Z |}]
   <= length (columns hot_tensor))%nat.
Proof.
  destruct (decode_respects_filters (np := stable_numpy) hot_tensor (1 # 2) (640, 640)%Z (640, 480)%Z
              (Some 0%Z) (45 # 100)
              [{| box := {| bx1 := 345600 # 1280; by1 := 259200 # 1280;
                            bx2 := 473600 # 1280; by2 := 355200 # 1280 |};
                  score := 9 # 10; class_id := 0%Z |}]
              ltac:(vm_compute; reflexivity)) as [Hall Hlen].
  split; [| exact Hlen].
  exact (proj1 (Hall _ (or_introl eq_refl))).
Defined.

(** X9.  The detections that [decode_yolov11] returns come in an order in
    which the score never increases, and none of them overlaps one that
    comes before it by more than the IoU threshold. *)
Theorem decode_no_overlap {np : Numpy} (arr : Tensor) (conf_thres : Q)
    (img_in_wh img_out_wh : Z * Z) (target_class_id : option Z)
    (iou_thres : Q) (dets : list Detection) :
  decode_yolov11 (Some arr) conf_thres img_in_wh img_out_wh target_class_id
    iou_thres = Ok dets ->
  ForallOrdPairs (fun a b => iou_le iou_thres (box a) (box b) = true /\
                             score b <= score a)
                 dets.
Proof.
  intro Hd. apply decode_ok_inv in Hd. cbv zeta in Hd.
  set (kept := filter (passes arr conf_thres target_class_id) (columns arr)) in *.
  destruct Hd as [[_ ->] | (Hne & boxes & Hlen & ->)]; [constructor |].
  assert (Hlen' : length boxes = length (map conf kept))
    by (rewrite length_map; exact Hlen).
  apply FOP_map_precedes. intros i j Hp. cbn [box score].
  exact (nms_pairs _ _ _ Hlen' i j Hp).
Qed.

Lemma decode_no_overlap_witness :
  ForallOrdPairs (fun a b => iou_le (45 # 100) (box a) (box b) = true /\
                             score b <= score a)
    [{| box := {| bx1 := 345600 # 1280; by1 := 259200 # 1280;
                  bx2 := 473600 # 1280; by2 := 355200 # 1280 |};
        score := 9 # 10; class_id := 0 |}].
Proof.
  apply (decode_no_overlap (np := stable_numpy) hot_tensor (1 # 2) (640, 640)%Z (640, 480)%Z
           (Some 0%Z) (45 # 100)).
  vm_compute. reflexivity.
Defined.

Lemma inject_Z_zero (z : Z) : Qeq_bool (inject_Z z) 0 = (z =? 0)%Z.
Proof.
  destruct (Z.eqb_spec z 0) as [-> | Hne]; [reflexivity |].
  destruct (Qeq_bool (inject_Z z) 0) eqn:E; [| reflexivity].
  apply Qeq_bool_iff in E. unfold Qeq in E. simpl in E. lia.
Qed.

Lemma decode_unfold {np : Numpy} (arr : Tensor) (conf_thres : Q) (img_in_wh img_out_wh : Z * Z)
    (target_class_id : option Z) (iou_thres : Q) :
  columns arr <> [] -> (5 <= cdim arr)%Z ->
  decode_yolov11 (Some arr) conf_thres img_in_wh img_out_wh target_class_id
    iou_thres =
  let kept := filter (passes arr conf_thres target_class_id) (columns arr) in
  match kept with
  | [] => Ok []
  | _ :: _ =>
      if (fst img_in_wh =? 0)%Z || (snd img_in_wh =? 0)%Z
      then Raised "ZeroDivisionError"
      else
        let sx := inject_Z (fst img_out_wh) / inject_Z (fst img_in_wh) in
        let sy := inject_Z (snd img_out_wh) / inject_Z (snd img_in_wh) in
        let boxes :=
          map (fun c => {| bx1 := (cx c - cw c / 2) * sx;
                           by1 := (cy c - ch c / 2) * sy;
                           bx2 := (cx c + cw c / 2) * sx;
                           by2 := (cy c + ch c / 2) * sy |}) kept in
        Ok (map (fun i => {| box := nth i boxes zero_box;
                             score := nth i (map conf kept) 0;
                             class_id := nth i (map (cls_id arr) kept) 0%Z |})
                (nms_xyxy boxes (map conf kept) iou_thres))
  end.
Proof.
  intros Hne H5. unfold decode_yolov11, passes.
  destruct (columns arr) as [| c cs] eqn:Ecols; [contradiction |].
  replace (cdim arr <? 5)%Z with false by (symmetry; apply Z.ltb_ge; exact H5).
  cbv zeta. rewrite !inject_Z_zero.
  destruct (filter _ (c :: cs)); reflexivity.
Qed.

(** X10.  What [decode_yolov11] returns, case by case: no output tensor or
    a tensor without columns gives no detection; a tensor with columns but
    fewer than five rows raises IndexError; otherwise, when no column
    passes the confidence and class filters the result is empty, when one
    passes and the input width or height is zero the division raises
    ZeroDivisionError, and in every other case the result is not empty and
    its first detection has the highest confidence of all the columns that
    pass the filters. *)
Theorem decode_outcome {np : Numpy} (conf_thres : Q)
    (img_in_wh img_out_wh : Z * Z) (target_class_id : option Z)
    (iou_thres : Q) :
  decode_yolov11 None conf_thres img_in_wh img_out_wh target_class_id
    iou_thres = Ok [] /\
  forall arr : Tensor,
    let decoded := decode_yolov11 (Some arr) conf_thres img_in_wh img_out_wh
                     target_class_id iou_thres in
    let kept := filter (passes arr conf_thres target_class_id) (columns arr) in
    (columns arr = [] -> decoded = Ok []) /\
    (columns arr <> [] -> (cdim arr < 5)%Z -> decoded = Raised "IndexError") /\
    (columns arr <> [] -> (5 <= cdim arr)%Z ->
       (kept = [] -> decoded = Ok []) /\
       (kept <> [] -> fst img_in_wh = 0%Z \/ snd img_in_wh = 0%Z ->
          decoded = Raised "ZeroDivisionError") /\
       (kept <> [] -> fst img_in_wh <> 0%Z -> snd img_in_wh <> 0%Z ->
          exists d0 rest,
            decoded = Ok (d0 :: rest) /\
            forall c, In c kept -> conf c <= score d0)).
Proof.
  split; [reflexivity |].
  intros arr decoded kept. split; [| split].
  - intro E. unfold decoded, decode_yolov11. rewrite E. reflexivity.
  - intros Hne Hlt. unfold decoded, decode_yolov11.
    destruct (columns arr); [contradiction |].
    apply Z.ltb_lt in Hlt. rewrite Hlt. reflexivity.
  - intros Hne H5. unfold decoded.
    rewrite (decode_unfold _ _ _ _ _ _ Hne H5). cbv zeta. fold kept.
    split; [| split].
    + intros ->. reflexivity.
    + intros Hk Hz. destruct kept; [contradiction |].
      replace ((fst img_in_wh =? 0)%Z || (snd img_in_wh =? 0)%Z) with true;
        [reflexivity |].
      symmetry. apply orb_true_iff.
      destruct Hz as [Hz | Hz]; [left | right]; apply Z.eqb_eq; exact Hz.
    + intros Hk Hw Hh. destruct kept as [| k ks] eqn:Ek; [contradiction |].
      apply Z.eqb_neq in Hw, Hh. rewrite Hw, Hh. cbn [orb].
      set (boxes := map _ (k :: ks)).
      assert (Hlen : length boxes = length (map conf (k :: ks)))
        by (unfold boxes; rewrite !length_map; reflexivity).
      assert (Hcne : map conf (k :: ks) <> []) by discriminate.
      destruct (nms_head boxes (map conf (k :: ks)) iou_thres Hlen Hcne)
        as (i0 & rest & Hnms & Hmax).
      rewrite Hnms. cbn [map]. eexists _, _. split; [reflexivity |].
      intros c Hc. cbn [score].
      destruct (In_nth _ _ zero_column Hc) as (j & Hj & Hnth).
      rewrite <- Hnth.
      rewrite <- (nth_map_lt conf (k :: ks) j zero_column 0 Hj).
      apply Hmax. rewrite length_map. exact Hj.
Qed.

Lemma decode_outcome_witness :
  exists d0 rest,
    decode_yolov11 (np := stable_numpy) (Some hot_tensor) (1 # 2)
      (640, 640)%Z (640, 480)%Z (Some 0%Z) (45 # 100) = Ok (d0 :: rest) /\
    forall c, In c (filter (passes hot_tensor (1 # 2) (Some 0%Z))
                           (columns hot_tensor)) ->
              conf c <= score d0.
Proof.
  refine (proj2 (proj2 (proj2 (proj2 (proj2
            (decode_outcome (np := stable_numpy) (1 # 2) (640, 640)%Z (640, 480)%Z
               (Some 0%Z) (45 # 100)) hot_tensor)) _ _)) _ _ _).
  - discriminate.
  - vm_compute. discriminate.
  - discriminate.
  - discriminate.
  - discriminate.
Defined.

(** ** The smoke filter of an iteration *)

Lemma running_max (l : list Detection) (m0 : Q) :
  let m := fold_left (fun m d => if Qltb m (score d) then score d else m) l m0 in
  m0 <= m /\
  (forall d, In d l -> score d <= m) /\
  (m = m0 \/ exists d, In d l /\ m = score d).
Proof.
  revert m0. induction l as [| a l IH]; intro m0; cbn [fold_left].
  - split; [apply Qle_refl |]. split; [intros d [] | left; reflexivity].
  - destruct (IH (if Qltb m0 (score a) then score a else m0)) as (Hge & Hall & Hatt).
    destruct (Qltb m0 (score a)) eqn:E.
    + apply Qltb_lt in E. split; [lra |]. split.
      * intros d [<- | Hd]; [exact Hge | apply Hall; exact Hd].
      * right. destruct Hatt as [-> | (d & Hd & ->)].
        -- exists a. split; [left |]; reflexivity.
        -- exists d. split; [right; exact Hd | reflexivity].
    + apply Qltb_ge in E. split; [exact Hge |]. split.
      * intros d [<- | Hd]; [lra | apply Hall; exact Hd].
      * destruct Hatt as [-> | (d & Hd & ->)]; [left; reflexivity |].
        right. exists d. split; [right; exact Hd | reflexivity].
Qed.

Section SmokeProofs.
Context {Image : Type} {cv : Cv2 Image}.

Lemma iter_smoke_fields (args : Args.t) (st : LoopState) (tk : Tick) (H W : Z) :
  shape (frame tk) = (H, W) ->
  let o := snd (run_loop_iter args st tk) in
  let fs := filter_smoke (Args.smoke_min_area args) W H (dets tk) in
  smoke_max o = snd fs /\
  smoke_boxes o = Z.of_nat (length (fst fs)) /\
  has_smoke o = negb (length (fst fs) =? 0)%nat.
Proof.
  intro Hs. unfold run_loop_iter. rewrite Hs.
  repeat match goal with
         | |- context [match ?e with pair _ _ => _ end] =>
             match e with
             | (_, _) => fail 1
             | _ => destruct e eqn:?
             end
         end.
  cbn [snd fst smoke_max smoke_boxes has_smoke]. repeat split; reflexivity.
Qed.
End SmokeProofs.

(** X11.  The smoke figures that an iteration reports: the box count is
    the number of detections whose clipped area reaches the minimum, the
    maximal confidence is never negative, is at least the score of each of
    them, and is either 0 or the score of one of them; when no detection
    reaches the minimum area both figures are 0. *)
Theorem smoke_figures {Image : Type} {cv : Cv2 Image} (args : Args.t)
    (st : LoopState) (tk : Tick) (H W : Z) :
  shape (frame tk) = (H, W) ->
  let o := snd (run_loop_iter args st tk) in
  let kept :=
    filter (fun d =>
              Qle_bool (Args.smoke_min_area args * inject_Z (W * H))
                (Qmax 0 (bx2 (box d) - bx1 (box d)) *
                 Qmax 0 (by2 (box d) - by1 (box d))))
           (dets tk) in
  smoke_boxes o = Z.of_nat (length kept) /\
  0 <= smoke_max o /\
  (forall d, In d kept -> score d <= smoke_max o) /\
  (smoke_max o = 0 \/ exists d, In d kept /\ smoke_max o = score d) /\
  (has_smoke o = false -> smoke_boxes o = 0%Z /\ smoke_max o = 0).
Proof.
  intros Hs o kept.
  destruct (iter_smoke_fields args st tk H W Hs) as (Hmax & Hboxes & Hhas).
  fold o in Hmax, Hboxes, Hhas.
  unfold filter_smoke in Hmax, Hboxes, Hhas. cbn [fst snd] in Hmax, Hboxes, Hhas.
  fold kept in Hmax, Hboxes, Hhas.
  destruct (running_max kept 0) as (Hge & Hall & Hatt).
  rewrite Hmax, Hboxes.
  split; [reflexivity |]. split; [exact Hge |]. split; [exact Hall |].
  split; [exact Hatt |].
  intro Hno. rewrite Hhas in Hno. apply negb_false_iff, Nat.eqb_eq in Hno.
  destruct kept; [| discriminate]. split; reflexivity.
Qed.

Lemma smoke_figures_witness :
  let o := snd (run_loop_iter sample_args (init_state None) (smoke_tick 0 [])) in
  smoke_boxes o = 1%Z /\ 0 <= smoke_max o.
Proof.
  intro o.
  destruct (smoke_figures (cv := raw_codec) sample_args (init_state None)
              (smoke_tick 0 []) 480 640 eq_refl) as (Hb & Hm & _).
  split; [exact Hb | exact Hm].
Defined.

(** ** The ring buffer of recent frames *)

Lemma lastn_length {A : Type} (n : nat) (l : list A) :
  length (lastn n l) = Nat.min n (length l).
Proof.
  unfold lastn. rewrite length_skipn. lia.
Qed.

Lemma lastn_all {A : Type} (n : nat) (l : list A) :
  (length l <= n)%nat -> lastn n l = l.
Proof.
  intro Hle. unfold lastn. replace (length l - n)%nat with 0%nat by lia.
  reflexivity.
Qed.

Lemma lastn_app_lastn {A : Type} (n : nat) (l l' : list A) :
  lastn n (lastn n l ++ l') = lastn n (l ++ l').
Proof.
  destruct (Nat.le_gt_cases (length l) n) as [Hle | Hgt].
  - rewrite (lastn_all n l Hle). reflexivity.
  - unfold lastn at 1 3. rewrite !length_app.
    fold (lastn n l). rewrite lastn_length.
    replace (Nat.min n (length l) + length l' - n)%nat with (length l') by lia.
    replace (length l + length l' - n)%nat
      with ((length l - n) + length l')%nat by lia.
    rewrite Nat.add_comm, <- skipn_skipn.
    f_equal. unfold lastn. rewrite skipn_app.
    replace (length l - n - length l)%nat with 0%nat by lia.
    reflexivity.
Qed.

Lemma deque_append_lastn {A : Type} (n : nat) (d : list A) (x : A) :
  (0 < n)%nat -> (length d <= n)%nat ->
  deque_append n d x = lastn n (d ++ [x]).
Proof.
  intros Hn Hle. unfold deque_append, lastn. rewrite length_app. cbn [length].
  destruct (Nat.ltb_spec (length d) n) as [Hlt | Hge].
  - replace (length d + 1 - n)%nat with 0%nat by lia. reflexivity.
  - replace (length d + 1 - n)%nat with 1%nat by lia.
    destruct d as [| a d]; [simpl in Hge; lia | reflexivity].
Qed.

Section RingProofs.
Context {Image : Type} {cv : Cv2 Image}.

Lemma iter_ring_lastn (args : Args.t) (st : LoopState) (tk : Tick) :
  (length (ring st) <= 60)%nat ->
  ring (fst (run_loop_iter args st tk)) = lastn 60 (ring st ++ ring_entry tk).
Proof.
  intro Hle. rewrite iter_ring. unfold ring_entry.
  destruct (imencode 80 (frame tk)) as [jb |].
  - apply deque_append_lastn; [lia | exact Hle].
  - rewrite app_nil_r. symmetry. apply lastn_all. exact Hle.
Qed.

Lemma run_loop_ring (args : Args.t) (st : LoopState) (ticks : list Tick) :
  (length (ring st) <= 60)%nat ->
  ring (fst (run_loop args st ticks))
  = lastn 60 (ring st ++ flat_map ring_entry ticks).
Proof.
  revert st. induction ticks as [| tk rest IH]; intros st Hle.
  - cbn [run_loop fst flat_map]. rewrite app_nil_r. symmetry.
    apply lastn_all. exact Hle.
  - rewrite run_loop_cons. cbn [fst flat_map].
    rewrite IH, (iter_ring_lastn args st tk Hle).
    + rewrite lastn_app_lastn, app_assoc. reflexivity.
    + rewrite (iter_ring_lastn args st tk Hle), lastn_length. lia.
Qed.
End RingProofs.

(** X12.  The ring buffer holds the newest 60 of the encoded frames, in
    the order they were read: after any number of iterations it is the
    last 60 entries of what it held before followed by the JPEG bytes of
    each frame that encoded, so it never holds more than 60 entries and a
    frame that fails to encode leaves no entry. *)
Theorem ring_holds_latest {Image : Type} {cv : Cv2 Image} (args : Args.t)
    (st : LoopState) (ticks : list Tick) :
  (length (ring st) <= 60)%nat ->
  let after := ring (fst (run_loop args st ticks)) in
  after = lastn 60 (ring st ++ flat_map ring_entry ticks) /\
  (length after <= 60)%nat.
Proof.
  intros Hle after. unfold after. rewrite (run_loop_ring args st ticks Hle).
  split; [reflexivity |]. rewrite lastn_length. lia.
Qed.

Lemma ring_holds_latest_witness :
  ring (fst (run_loop sample_args (init_state None)
               [smoke_tick 0 []; blank_tick 1; clear_tick 2 []]))
  = lastn 60 ([] ++ flat_map ring_entry
                      [smoke_tick 0 []; blank_tick 1; clear_tick 2 []]).
Proof.
  apply (ring_holds_latest (cv := raw_codec) sample_args (init_state None)
           [smoke_tick 0 []; blank_tick 1; clear_tick 2 []]).
  simpl. lia.
Defined.

(** ** The notifier over time *)

Lemma send_worker_step_fields (self : TelegramAlerter) (k : Kind) :
  cooldown_of k (_send_worker_step self) = cooldown_of k self /\
  last_time_of k (_send_worker_step self) = last_time_of k self /\
  _queue (_send_worker_step self) = tl (_queue self).
Proof.
  unfold _send_worker_step, get_nowait.
  destruct (_queue self) as [| task rest] eqn:E; destruct k; cbn; auto.
Qed.

Section AlerterProofs.
Context {Image : Type} {cv : Cv2 Image}.

Lemma enqueue_effect (kind : Kind) (self : TelegramAlerter) (now : Q)
    (frame_bgr : Image) (confidence : Q) (num_boxes : Z) (lat lon : option Q) :
  let r := enqueue kind self now frame_bgr confidence num_boxes lat lon in
  (forall k, cooldown_of k (snd r) = cooldown_of k self) /\
  (forall k, Kind_eqb kind k = false ->
             last_time_of k (snd r) = last_time_of k self) /\
  ((fst r = false /\ last_time_of kind (snd r) = last_time_of kind self) \/
   (last_time_of kind (snd r) = now /\
    cooldown_of kind self <= now - last_time_of kind self)) /\
  (if fst r
   then (length (_queue self) < 10)%nat /\
        exists task, _queue (snd r) = _queue self ++ [task]
   else _queue (snd r) = _queue self).
Proof.
  cbv zeta. rewrite enqueue_unfold.
  destruct (enabled self); cbn [negb].
  2: { cbn [fst snd]. repeat split; auto. }
  destruct (Qltb confidence (min_confidence self)).
  { cbn [fst snd]. repeat split; auto. }
  destruct (Qltb (now - last_time_of kind self) (cooldown_of kind self)) eqn:Et.
  { cbn [fst snd]. repeat split; auto. }
  apply Qltb_ge in Et.
  destruct (imencode (quality_of kind) frame_bgr) as [jpeg |];
    [destruct (length (_queue self) <? 10)%nat eqn:Eq |]; cbn [fst snd].
  - apply Nat.ltb_lt in Eq.
    split; [intro k; destruct kind, k; reflexivity |].
    split; [intros k Hk; destruct kind, k; try discriminate; reflexivity |].
    split; [right; split; [destruct kind; reflexivity | exact Et] |].
    split; [exact Eq |]. destruct kind; cbn; eexists; reflexivity.
  - split; [intro k; destruct kind, k; reflexivity |].
    split; [intros k Hk; destruct kind, k; try discriminate; reflexivity |].
    split; [right; split; [destruct kind; reflexivity | exact Et] |].
    destruct kind; reflexivity.
  - split; [intro k; destruct kind, k; reflexivity |].
    split; [intros k Hk; destruct kind, k; try discriminate; reflexivity |].
    split; [right; split; [destruct kind; reflexivity | exact Et] |].
    destruct kind; reflexivity.
Qed.

Lemma run_alerter_alert (self : TelegramAlerter) (kind : Kind) (t : Q)
    (frame_bgr : Image) (confidence : Q) (num_boxes : Z)
    (rest : list AlertEvent) :
  let r := enqueue kind self t frame_bgr confidence num_boxes None None in
  run_alerter self (Alert kind t frame_bgr confidence num_boxes :: rest) =
  (fst (run_alerter (snd r) rest), fst r :: snd (run_alerter (snd r) rest)).
Proof.
  cbn [run_alerter].
  destruct (enqueue kind self t frame_bgr confidence num_boxes None None)
    as [accepted self1].
  cbn [fst snd]. destruct (run_alerter self1 rest). reflexivity.
Qed.

Lemma run_alerter_times (kind : Kind) (events : list AlertEvent)
    (self : TelegramAlerter) :
  0 <= cooldown_of kind self ->
  let times := accepted_times kind events (snd (run_alerter self events)) in
  StronglySorted (fun a b => a + cooldown_of kind self <= b) times /\
  Forall (fun t => last_time_of kind self + cooldown_of kind self <= t) times.
Proof.
  revert self. induction events as [| ev rest IH]; intros self Hcd.
  - split; constructor.
  - destruct ev as [k t frame_bgr confidence num_boxes |].
    + rewrite run_alerter_alert. cbv zeta. cbn [snd accepted_times].
      destruct (enqueue_effect k self t frame_bgr confidence num_boxes None None)
        as (Hcool & Hother & Hsame & _).
      set (r := enqueue k self t frame_bgr confidence num_boxes None None) in *.
      assert (Hcd1 : 0 <= cooldown_of kind (snd r)) by (rewrite Hcool; exact Hcd).
      destruct (IH (snd r) Hcd1) as [Hsorted Hall].
      rewrite Hcool in Hsorted, Hall.
      set (times := accepted_times kind rest (snd (run_alerter (snd r) rest))) in *.
      destruct (Kind_eqb k kind) eqn:Ek.
      * assert (k = kind) by (destruct k, kind; try discriminate; reflexivity).
        subst k.
        destruct Hsame as [[Hf Hlast] | [Hlast Hgap]].
        -- rewrite Hf. cbn [andb app]. rewrite Hlast in Hall.
           split; assumption.
        -- rewrite Hlast in Hall.
           assert (Hall' : Forall (fun u => last_time_of kind self
                                            + cooldown_of kind self <= u) times).
           { eapply Forall_impl; [| exact Hall]. cbv beta. intros u Hu. lra. }
           destruct (fst r); cbn [andb app]; [| split; assumption].
           split; [constructor; assumption |].
           constructor; [lra | exact Hall'].
      * rewrite andb_false_r. cbn [app].
        rewrite (Hother kind Ek) in Hall. split; assumption.
    + cbn [run_alerter accepted_times].
      destruct (send_worker_step_fields self kind) as (Hcool & Hlast & _).
      assert (Hcd1 : 0 <= cooldown_of kind (_send_worker_step self))
        by (rewrite Hcool; exact Hcd).
      destruct (IH (_send_worker_step self) Hcd1) as [Hsorted Hall].
      rewrite Hcool in Hsorted, Hall. rewrite Hlast in Hall.
      split; assumption.
Qed.

Lemma run_alerter_queue (events : list AlertEvent) (self : TelegramAlerter) :
  (length (_queue self) <= 10)%nat ->
  let r := run_alerter self events in
  (length (_queue (fst r)) <= 10)%nat /\
  (length (filter (fun b : bool => b) (snd r)) + length (_queue self)
   <= length (_queue (fst r)) + deliveries events)%nat.
Proof.
  revert self. induction events as [| ev rest IH]; intros self Hle.
  - cbn. lia.
  - destruct ev as [k t frame_bgr confidence num_boxes |].
    + rewrite run_alerter_alert. cbv zeta. cbn [fst snd deliveries].
      destruct (enqueue_effect k self t frame_bgr confidence num_boxes None None)
        as (_ & _ & _ & Hq).
      set (r := enqueue k self t frame_bgr confidence num_boxes None None) in *.
      destruct (fst r) eqn:Ef; cbn [filter length].
      * destruct Hq as [Hlt (task & Hq)].
        assert (Hle1 : (length (_queue (snd r)) <= 10)%nat).
        { rewrite Hq, length_app. cbn [length]. lia. }
        destruct (IH (snd r) Hle1) as [Hb Hc].
        rewrite Hq, length_app in Hc. cbn [length] in Hc. lia.
      * assert (Hle1 : (length (_queue (snd r)) <= 10)%nat)
          by (rewrite Hq; exact Hle).
        destruct (IH (snd r) Hle1) as [Hb Hc]. rewrite Hq in Hc. lia.
    + cbn [run_alerter deliveries].
      destruct (send_worker_step_fields self Smoke) as (_ & _ & Hq).
      assert (Htl : (length (_queue self) <= S (length (tl (_queue self))))%nat)
        by (destruct (_queue self); simpl; lia).
      assert (Hle1 : (length (_queue (_send_worker_step self)) <= 10)%nat).
      { rewrite Hq. destruct (_queue self); simpl in *; lia. }
      destruct (IH (_send_worker_step self) Hle1) as [Hb Hc].
      rewrite Hq in Hc. lia.
Qed.
End AlerterProofs.

(** X13.  Accepted alerts of one kind are at least that kind's cooldown
    apart: over any sequence of calls of the two alert methods and rounds
    of the sender thread, when the kind's cooldown is not negative, the
    clock readings of the calls of that kind that returned true each
    exceed the one before by at least the cooldown, and the first exceeds
    the kind's time stamp at the start by as much; calls of the other kind
    do not matter. *)
Theorem alerts_cooldown_apart {Image : Type} {cv : Cv2 Image} (kind : Kind)
    (self : TelegramAlerter) (events : list AlertEvent) :
  0 <= cooldown_of kind self ->
  let times := accepted_times kind events (snd (run_alerter self events)) in
  StronglySorted (fun a b => a + cooldown_of kind self <= b) times /\
  Forall (fun t => last_time_of kind self + cooldown_of kind self <= t) times.
Proof.
  exact (run_alerter_times kind events self).
Qed.

Lemma alerts_cooldown_apart_witness :
  StronglySorted (fun a b => a + 15 <= b)
    (accepted_times Smoke
       [Alert Smoke 20 one_byte (9 # 10) 1;
        Alert Fire 21 one_byte (9 # 10) 1;
        Alert Smoke 25 one_byte (9 # 10) 1;
        Delivery;
        Alert Smoke 40 one_byte (9 # 10) 1]
       [true; true; false; true]).
Proof.
  apply (proj1 (alerts_cooldown_apart (cv := raw_codec) Smoke sample_alerter
                  [Alert Smoke 20 one_byte (9 # 10) 1;
                   Alert Fire 21 one_byte (9 # 10) 1;
                   Alert Smoke 25 one_byte (9 # 10) 1;
                   Delivery;
                   Alert Smoke 40 one_byte (9 # 10) 1]
                  ltac:(apply Qle_bool_iff; reflexivity))).
Defined.

(** X14.  The alert queue never holds more than 10 tasks, and the alerter
    accepts no more alerts than the room in the queue at the start plus
    the number of rounds the sender thread made: the number of calls that
    returned true plus the initial queue length is at most 10 plus the
    number of rounds. *)
Theorem alert_queue_bounded {Image : Type} {cv : Cv2 Image}
    (self : TelegramAlerter) (events : list AlertEvent) :
  (length (_queue self) <= 10)%nat ->
  let r := run_alerter self events in
  (length (_queue (fst r)) <= 10)%nat /\
  (length (filter (fun b : bool => b) (snd r)) + length (_queue self)
   <= 10 + deliveries events)%nat.
Proof.
  intros Hle r. destruct (run_alerter_queue events self Hle) as [Hb Hc].
  fold r in Hb, Hc. split; [exact Hb | lia].
Qed.

Lemma alert_queue_bounded_witness :
  (length (filter (fun b : bool => b)
             (snd (run_alerter (alerter_with_queue 9)
                     [Alert Smoke 20 one_byte (9 # 10) 1;
                      Alert Fire 21 one_byte (9 # 10) 1;
                      Delivery;
                      Alert Fire 40 one_byte (9 # 10) 1])))
   + length (_queue (alerter_with_queue 9)) <= 10 + 1)%nat.
Proof.
  apply (proj2 (alert_queue_bounded (cv := raw_codec) (alerter_with_queue 9)
                  [Alert Smoke 20 one_byte (9 # 10) 1;
                   Alert Fire 21 one_byte (9 # 10) 1;
                   Delivery;
                   Alert Fire 40 one_byte (9 # 10) 1]
                  ltac:(simpl; lia))).
Defined.

(** ** The smoke alert of the main loop *)

Section SmokeAlertProofs.
Context {Image : Type} {cv : Cv2 Image}.

Lemma iter_alerter (args : Args.t) (st : LoopState) (tk : Tick) (H W : Z) :
  shape (frame tk) = (H, W) ->
  let r := run_loop_iter args st tk in
  let o := snd r in
  let kept := fst (filter_smoke (Args.smoke_min_area args) W H (dets tk)) in
  let a0 := option_map (Nat.iter (alerts_sent tk) _send_worker_step)
              (telegram_alerter st) in
  let flag0 := if has_smoke o then smoke_alert_sent st else false in
  (telegram_alerter (fst r), smoke_alert_sent (fst r),
   last_smoke_telegram (fst r)) =
  match a0 with
  | Some a =>
      if smoke_confirmed o && negb flag0
      then
        let res :=
          send_smoke_alert a (t_alert tk)
            (draw_smoke (frame tk) kept (smoke_max o)) (smoke_max o)
            (smoke_boxes o) None None in
        if fst res then (Some (snd res), true, now tk)
        else (Some (snd res), flag0, last_smoke_telegram st)
      else (a0, flag0, last_smoke_telegram st)
  | None => (None, flag0, last_smoke_telegram st)
  end.
Proof.
  intro Hs. unfold run_loop_iter. rewrite Hs. unfold confirmation_gate.
  destruct (filter_smoke (Args.smoke_min_area args) W H (dets tk))
    as [smoke_dets smoke_max0] eqn:Efs.
  cbn [fst snd].
  destruct (negb (length smoke_dets =? 0)%nat) eqn:Ehas.
  all: destruct (option_map _ (telegram_alerter st)) as [a |] eqn:Ea.
  all: repeat match goal with
         | |- context [match ?e with pair _ _ => _ end] =>
             match e with
             | (_, _) => fail 1
             | _ => destruct e eqn:?
             end
         end.
  all: cbn [fst snd telegram_alerter smoke_alert_sent last_smoke_telegram
            has_smoke smoke_confirmed smoke_max smoke_boxes].
  all: try match goal with
           | Hp : _ = (?o, ?b, ?q) |- (?o, ?b, ?q) = _ => rewrite <- Hp
           end.
  all: cbv zeta.
  all: repeat match goal with
         | |- context [if ?c then _ else _] =>
             match c with
             | fst _ => fail 1
             | _ => destruct c
             end
         end.
  all: try destruct (send_smoke_alert _ _ _ _ _ _ _) as [[|] a'].
  all: reflexivity.
Qed.
End SmokeAlertProofs.

Section SmokeAlertRun.
Context {Image : Type} {cv : Cv2 Image}.

Lemma iter_alert_quiet (args : Args.t) (st : LoopState) (tk : Tick) :
  smoke_alert_sent st = true ->
  qualifying args tk = true ->
  let r := run_loop_iter args st tk in
  smoke_alert_sent (fst r) = true /\
  last_smoke_telegram (fst r) = last_smoke_telegram st /\
  telegram_alerter (fst r) =
  option_map (Nat.iter (alerts_sent tk) _send_worker_step) (telegram_alerter st).
Proof.
  intros Hflag Hq r.
  destruct (shape (frame tk)) as [H W] eqn:Hs.
  pose proof (iter_alerter args st tk H W Hs) as Hit. cbv zeta in Hit.
  rewrite iter_has_smoke, Hq, Hflag in Hit. cbn [negb] in Hit.
  rewrite andb_false_r in Hit.
  destruct (option_map _ (telegram_alerter st)) as [a |];
    inversion Hit as [[Ha Hf Hl]]; repeat split; reflexivity.
Qed.

Lemma run_loop_alert_quiet (args : Args.t) (ticks : list Tick) (st : LoopState) :
  smoke_alert_sent st = true ->
  forallb (qualifying args) ticks = true ->
  let st' := fst (run_loop args st ticks) in
  smoke_alert_sent st' = true /\
  last_smoke_telegram st' = last_smoke_telegram st /\
  telegram_alerter st' =
  option_map (Nat.iter (list_sum (map alerts_sent ticks)) _send_worker_step)
    (telegram_alerter st).
Proof.
  revert st. induction ticks as [| tk rest IH]; intros st Hflag Hall.
  - cbn. split; [exact Hflag |]. split; [reflexivity |].
    destruct (telegram_alerter st); reflexivity.
  - cbn [forallb] in Hall. apply andb_prop in Hall. destruct Hall as [Hq Hrest].
    destruct (iter_alert_quiet args st tk Hflag Hq) as (Hf1 & Hl1 & Ha1).
    rewrite run_loop_cons. cbn [fst].
    destruct (IH _ Hf1 Hrest) as (Hf & Hl & Ha).
    split; [exact Hf |]. split; [rewrite Hl; exact Hl1 |].
    rewrite Ha, Ha1.
    change (list_sum (map alerts_sent (tk :: rest)))
      with (alerts_sent tk + list_sum (map alerts_sent rest))%nat.
    rewrite (Nat.add_comm (alerts_sent tk)).
    destruct (telegram_alerter st) as [a |]; cbn [option_map];
      [rewrite Nat.iter_add |]; reflexivity.
Qed.

Lemma send_smoke_accepted (self : TelegramAlerter) (t : Q) (frame_bgr : Image)
    (confidence : Q) (num_boxes : Z) :
  let res := send_smoke_alert self t frame_bgr confidence num_boxes None None in
  fst res = true ->
  enabled self = true /\
  min_confidence self <= confidence /\
  _last_smoke_time (snd res) = t /\
  exists jpeg,
    imencode 85 frame_bgr = Some jpeg /\
    _queue (snd res) =
    _queue self ++
    [{| photo_bytes := jpeg;
        caption := {| cap_kind := Smoke; cap_confidence := confidence;
                      cap_num_boxes := num_boxes; cap_location := None |} |}].
Proof.
  cbv zeta.
  change (send_smoke_alert self t frame_bgr confidence num_boxes None None)
    with (enqueue Smoke self t frame_bgr confidence num_boxes None None).
  rewrite enqueue_unfold. cbn [quality_of last_time_of cooldown_of set_last_time].
  destruct (enabled self); cbn [negb]; [| discriminate].
  destruct (Qltb confidence (min_confidence self)) eqn:Ec; [discriminate |].
  apply Qltb_ge in Ec.
  destruct (Qltb _ (smoke_cooldown self)); [discriminate |].
  destruct (imencode 85 frame_bgr) as [jpeg |]; [| discriminate].
  destruct (length (_queue self) <? 10)%nat; [| discriminate].
  cbn [fst snd]. intros _. split; [reflexivity |]. split; [exact Ec |].
  split; [reflexivity |]. exists jpeg. split; reflexivity.
Qed.
End SmokeAlertRun.

(** X15.  After a smoke alert has been accepted no further smoke alert is
    attempted as long as every frame shows smoke: over any number of
    iterations whose frames all qualify, starting with the alert flag set,
    the flag stays set, the time of the last smoke alert is unchanged and
    the alerter changes only by the deliveries of its sender thread. *)
Theorem smoke_alert_once {Image : Type} {cv : Cv2 Image} (args : Args.t)
    (st : LoopState) (ticks : list Tick) :
  smoke_alert_sent st = true ->
  forallb (qualifying args) ticks = true ->
  let st' := fst (run_loop args st ticks) in
  smoke_alert_sent st' = true /\
  last_smoke_telegram st' = last_smoke_telegram st /\
  telegram_alerter st' =
  option_map (Nat.iter (list_sum (map alerts_sent ticks)) _send_worker_step)
    (telegram_alerter st).
Proof.
  exact (run_loop_alert_quiet args ticks st).
Qed.

Lemma smoke_alert_once_witness :
  let st' := fst (run_loop sample_args (confirmed_state [])
                    [smoke_tick 1 []; smoke_tick 2 []]) in
  smoke_alert_sent st' = true /\
  last_smoke_telegram st' = last_smoke_telegram (confirmed_state []).
Proof.
  intro st'.
  destruct (smoke_alert_once (cv := raw_codec) sample_args (confirmed_state [])
              [smoke_tick 1 []; smoke_tick 2 []] eq_refl eq_refl)
    as (Hf & Hl & _).
  split; [exact Hf | exact Hl].
Defined.

(** X16.  The alert flag is set only by an accepted smoke alert: when an
    iteration turns the flag from false to true, smoke is confirmed in
    that iteration, the alerter is enabled, and the alerter's queue has
    grown by one task of kind smoke whose confidence and box count are the
    smoke figures of that frame, and the time of the last smoke alert is
    the iteration's clock reading. *)
Theorem smoke_alert_content {Image : Type} {cv : Cv2 Image} (args : Args.t)
    (st : LoopState) (tk : Tick) :
  let r := run_loop_iter args st tk in
  let o := snd r in
  smoke_alert_sent st = false ->
  smoke_alert_sent (fst r) = true ->
  smoke_confirmed o = true /\
  last_smoke_telegram (fst r) = now tk /\
  exists a a' task,
    option_map (Nat.iter (alerts_sent tk) _send_worker_step)
      (telegram_alerter st) = Some a /\
    telegram_alerter (fst r) = Some a' /\
    enabled a = true /\
    min_confidence a <= smoke_max o /\
    _queue a' = _queue a ++ [task] /\
    _last_smoke_time a' = t_alert tk /\
    cap_kind (caption task) = Smoke /\
    cap_confidence (caption task) = smoke_max o /\
    cap_num_boxes (caption task) = smoke_boxes o.
Proof.
  intros r o Hflag Hset.
  destruct (shape (frame tk)) as [H W] eqn:Hs.
  pose proof (iter_alerter args st tk H W Hs) as Hit. cbv zeta in Hit.
  fold r in Hit. fold o in Hit. rewrite Hflag in Hit.
  assert (Hf0 : (if has_smoke o then false else false) = false)
    by (destruct (has_smoke o); reflexivity).
  rewrite Hf0 in Hit. cbn [negb] in Hit. rewrite andb_true_r in Hit.
  destruct (option_map _ (telegram_alerter st)) as [a |] eqn:Ea.
  2: { inversion Hit as [[Ha Hf Hl]]. congruence. }
  destruct (smoke_confirmed o) eqn:Ec.
  2: { inversion Hit as [[Ha Hf Hl]]. congruence. }
  set (res := send_smoke_alert a _ _ _ _ _ _) in Hit.
  destruct (fst res) eqn:Eres.
  2: { inversion Hit as [[Ha Hf Hl]]. congruence. }
  injection Hit as Ha Hf Hl.
  split; [reflexivity |]. split; [exact Hl |].
  destruct (send_smoke_accepted a _ _ _ _ Eres)
    as (Hen & Hconf & Htime & jpeg & _ & Hq).
  exists a, (snd res). eexists.
  split; [reflexivity |]. split; [exact Ha |].
  split; [exact Hen |]. split; [exact Hconf |].
  split; [exact Hq |]. split; [exact Htime |].
  repeat split; reflexivity.
Qed.

Lemma smoke_alert_content_witness :
  let r := run_loop_iter sample_args alert_ready_state (smoke_tick 20 []) in
  smoke_confirmed (snd r) = true /\ last_smoke_telegram (fst r) = 20.
Proof.
  intro r.
  destruct (smoke_alert_content (cv := raw_codec) sample_args alert_ready_state
              (smoke_tick 20 []) eq_refl ltac:(vm_compute; reflexivity))
    as (Hc & Hl & _).
  split; [exact Hc | exact Hl].
Defined.

(** ** The best detection of a job *)

Lemma fold_max_by_score (rest : list Detection) (top0 : Detection) :
  let top := fold_left (fun top d => if Qltb (score top) (score d) then d else top)
               rest top0 in
  (top = top0 \/ In top rest) /\
  score top0 <= score top /\
  (forall x, In x rest -> score x <= score top).
Proof.
  revert top0. induction rest as [| a rest IH]; intro top0; cbn [fold_left].
  - split; [left; reflexivity |]. split; [apply Qle_refl | intros x []].
  - destruct (IH (if Qltb (score top0) (score a) then a else top0))
      as (Hin & Hge & Hall).
    destruct (Qltb (score top0) (score a)) eqn:E.
    + apply Qltb_lt in E. split; [| split].
      * destruct Hin as [-> | Hin]; right; [left; reflexivity | right; exact Hin].
      * lra.
      * intros x [<- | Hx]; [exact Hge | apply Hall; exact Hx].
    + apply Qltb_ge in E. split; [| split].
      * destruct Hin as [-> | Hin]; [left; reflexivity | right; right; exact Hin].
      * exact Hge.
      * intros x [<- | Hx]; [lra | apply Hall; exact Hx].
Qed.

Lemma max_by_score_spec (d : Detection) (rest : list Detection) :
  In (max_by_score d rest) (d :: rest) /\
  (forall x, In x (d :: rest) -> score x <= score (max_by_score d rest)).
Proof.
  unfold max_by_score.
  destruct (fold_max_by_score rest d) as (Hin & Hge & Hall). split.
  - destruct Hin as [-> | Hin]; [left; reflexivity | right; exact Hin].
  - intros x [<- | Hx]; [exact Hge | apply Hall; exact Hx].
Qed.

Section WorkerBest.
Context {Image : Type} {cv : Cv2 Image} {np : Numpy}.
Variable fire_input : Z.
Variable fire_conf : Q.
Variable snap_count : Z.
Variable iou_thres : Q.
Variable fire_class_id : option Z.
Variable infer : Image -> exc Tensor.

#[local] Abbreviation dets_of :=
  (fire_dets fire_input fire_conf iou_thres fire_class_id infer).
#[local] Abbreviation step :=
  (fire_frame fire_input fire_conf iou_thres fire_class_id infer).
#[local] Abbreviation hit' :=
  (frame_hit fire_input fire_conf iou_thres fire_class_id infer).
#[local] Abbreviation spec_hit' :=
  (hit_as_specified fire_input fire_conf iou_thres fire_class_id infer).

Lemma fire_frame_best (acc : Z * Best) (jb : bytes) :
  let best := snd acc in
  let best' := snd (step acc jb) in
  b_score best <= b_score best' /\
  (forall roi ds d, dets_of jb = Ok (Some (roi, ds)) -> In d ds ->
                    score d <= b_score best') /\
  (best' = best \/
   (b_score best < b_score best' /\
    exists roi ds d,
      dets_of jb = Ok (Some (roi, ds)) /\ In d ds /\
      best' = {| b_score := score d; b_img := Some roi;
                 b_box := Some (box d) |})).
Proof.
  destruct acc as [hits best]. unfold fire_frame. cbn [snd].
  destruct (dets_of jb) as [[[roi [| d rest]] |] | e]; cbn [snd].
  - split; [apply Qle_refl |]. split; [| left; reflexivity].
    intros roi' ds d Heq Hd. inversion Heq; subst. contradiction.
  - destruct (max_by_score_spec d rest) as [Hin Hmax].
    destruct (Qltb (b_score best) (score (max_by_score d rest))) eqn:E.
    + apply Qltb_lt in E. cbn [b_score]. split; [lra |]. split.
      * intros roi' ds x Heq Hx. inversion Heq; subst. apply Hmax. exact Hx.
      * right. split; [exact E |].
        exists roi, (d :: rest), (max_by_score d rest).
        split; [reflexivity |]. split; [exact Hin | reflexivity].
    + apply Qltb_ge in E. split; [apply Qle_refl |]. split; [| left; reflexivity].
      intros roi' ds x Heq Hx. inversion Heq; subst.
      pose proof (Hmax x Hx). lra.
  - split; [apply Qle_refl |]. split; [| left; reflexivity].
    intros roi' ds d Heq. discriminate.
  - split; [apply Qle_refl |]. split; [| left; reflexivity].
    intros roi' ds d Heq. discriminate.
Qed.

Lemma fold_fire_frame_best (burst seen : list bytes) (acc : Z * Best) :
  best_attained dets_of seen (snd acc) ->
  best_dominates dets_of seen (snd acc) ->
  best_attained dets_of (seen ++ burst) (snd (fold_left step burst acc)) /\
  best_dominates dets_of (seen ++ burst) (snd (fold_left step burst acc)).
Proof.
  revert seen acc. induction burst as [| jb rest IH]; intros seen acc Hatt Hdom.
  - rewrite app_nil_r. split; assumption.
  - cbn [fold_left].
    replace (seen ++ jb :: rest) with ((seen ++ [jb]) ++ rest)
      by (rewrite <- app_assoc; reflexivity).
    destruct (fire_frame_best acc jb) as (Hge & Hjb & Hcase).
    apply IH.
    + destruct Hcase as [-> | (Hlt & roi & ds & d & Hd & Hin & Hbest)].
      * destruct Hatt as [Hnone | (Hpos & jb0 & roi & ds & d & Hin0 & Hrest)];
          [left; exact Hnone | right].
        split; [exact Hpos |]. exists jb0, roi, ds, d.
        split; [apply in_or_app; left; exact Hin0 | exact Hrest].
      * right. split.
        -- destruct Hatt as [(Hz & _) | (Hpos & _)]; [rewrite Hz in Hlt |];
             lra.
        -- exists jb, roi, ds, d.
           split; [apply in_or_app; right; left; reflexivity |].
           split; [exact Hd |]. split; [exact Hin | exact Hbest].
    + intros jb0 roi ds d Hin0 Hd Hin.
      apply in_app_or in Hin0. destruct Hin0 as [Hin0 | [<- | []]].
      * pose proof (Hdom jb0 roi ds d Hin0 Hd Hin). lra.
      * exact (Hjb roi ds d Hd Hin).
Qed.

Lemma fire_dets_scores (jb : bytes) (roi : Image) (ds : list Detection)
    (d : Detection) :
  dets_of jb = Ok (Some (roi, ds)) -> In d ds -> fire_conf <= score d.
Proof.
  unfold fire_dets. intros Heq Hd.
  destruct (imdecode jb) as [[img |] | e]; try discriminate.
  destruct (shape img) as [H W].
  destruct (infer img) as [out | e]; try discriminate.
  destruct (decode_yolov11 _ _ _ _ _ _) as [dets | e] eqn:Edec; try discriminate.
  inversion Heq; subst. apply filter_In in Hd. destruct Hd as [Hd _].
  destruct (decode_filters_inv _ _ _ _ _ _ _ Edec) as [Hall _].
  apply (Hall d Hd).
Qed.

Lemma fire_worker_job_best (snap_dir : string) (tg : option TelegramAlerter)
    (job : Job) (clk : WorkerClock) :
  let out :=
    fire_worker_job fire_input fire_conf snap_count iou_thres fire_class_id
      infer snap_dir tg job clk in
  let hits := Z.of_nat (length (filter hit' (rois_jpeg job))) in
  exists best,
    best_dominates dets_of (rois_jpeg job) best /\
    ((b_score best = 0 /\
      out = Ok (ResOk {| fire_hits := hits; best_score := 0; saved := [];
                         res_meta := meta job; t_job := wc_t_job clk;
                         t_done := wc_t_done clk |},
                tg)) \/
     (0 < b_score best /\
      exists jb roi ds d,
        In jb (rois_jpeg job) /\ dets_of jb = Ok (Some (roi, ds)) /\ In d ds /\
        b_score best = score d /\
        out =
        match draw_fire roi (box d) (score d) with
        | Raised e => Raised e
        | Ok img =>
            Ok (ResOk {| fire_hits := hits; best_score := score d;
                         saved := write_snaps snap_count snap_dir img;
                         res_meta := meta job; t_job := wc_t_job clk;
                         t_done := wc_t_done clk |},
                match tg with
                | Some a =>
                    if enabled a
                    then Some (snd (send_fire_alert a (wc_t_alert clk) img
                                      (score d) hits None None))
                    else tg
                | None => None
                end)
        end)).
Proof.
  cbv zeta. unfold fire_worker_job.
  pose proof (fold_fire_frame_hits fire_input fire_conf iou_thres fire_class_id
                infer (rois_jpeg job)
                (0%Z, {| b_score := 0; b_img := None; b_box := None |}))
    as Hhits.
  destruct (fold_fire_frame_best (rois_jpeg job) []
              (0%Z, {| b_score := 0; b_img := None; b_box := None |}))
    as [Hatt Hdom].
  { left. repeat split; reflexivity. }
  { intros jb roi ds d []. }
  cbn [app] in Hatt, Hdom.
  destruct (fold_left step (rois_jpeg job)
              (0%Z, {| b_score := 0; b_img := None; b_box := None |}))
    as [hits best].
  cbn [fst snd] in Hhits, Hatt, Hdom.
  assert (Hh : hits = Z.of_nat (length (filter hit' (rois_jpeg job))))
    by lia.
  rewrite <- Hh. clear Hhits Hh.
  exists best. split; [exact Hdom |].
  destruct Hatt as [(Hz & Hi & Hb) | (Hpos & jb & roi & ds & d & Hin & Hd & Hind & ->)].
  - left. split; [exact Hz |]. rewrite Hi, Hz. reflexivity.
  - right. cbn [b_img b_box b_score] in *. split; [exact Hpos |].
    exists jb, roi, ds, d.
    split; [exact Hin |]. split; [exact Hd |]. split; [exact Hind |].
    split; [reflexivity |].
    destruct (draw_fire roi (box d) (score d)); reflexivity.
Qed.

Lemma frame_hit_dets (jb : bytes) :
  hit' jb = true <->
  exists roi d ds, dets_of jb = Ok (Some (roi, d :: ds)).
Proof.
  unfold frame_hit.
  destruct (dets_of jb) as [[[roi [| d ds]] |] | e]; split;
    try discriminate; try (intros (roi' & d' & ds' & Heq); discriminate).
  - intros _. exists roi, d, ds. reflexivity.
  - reflexivity.
Qed.

Lemma hits_positive (burst : list bytes) :
  (1 <= Z.of_nat (length (filter hit' burst)))%Z <->
  exists jb, In jb burst /\ hit' jb = true.
Proof.
  split.
  - intro Hle. destruct (filter hit' burst) as [| jb rest] eqn:E;
      [simpl in Hle; lia |].
    exists jb. apply filter_In. rewrite E. left. reflexivity.
  - intros (jb & Hjb). apply filter_In in Hjb.
    destruct (filter hit' burst); [contradiction | simpl; lia].
Qed.

Lemma spec_hits_eq (burst : list bytes) :
  filter spec_hit' burst = filter hit' burst.
Proof.
  apply filter_ext. intro jb. symmetry. apply frame_hit_spec.
Qed.

Lemma fire_worker_job_raise_hits (snap_dir : string)
    (tg : option TelegramAlerter) (job : Job) (clk : WorkerClock) (e : string) :
  fire_worker_job fire_input fire_conf snap_count iou_thres fire_class_id
    infer snap_dir tg job clk = Raised e ->
  (1 <= Z.of_nat (length (filter spec_hit' (rois_jpeg job))))%Z.
Proof.
  intro Hout.
  destruct (fire_worker_job_best snap_dir tg job clk)
    as (best & _ & Hcase).
  cbv zeta in Hcase. rewrite Hout in Hcase.
  destruct Hcase as [(_ & Heq) | (_ & jb & roi & ds & d & Hin & Hd & Hind & _)];
    [discriminate Heq |].
  rewrite spec_hits_eq. apply hits_positive.
  exists jb. split; [exact Hin |]. apply frame_hit_dets.
  destruct ds as [| d0 ds]; [contradiction |].
  exists roi, d0, ds. exact Hd.
Qed.

(** X17.  What becomes of a job is decided by the best detection of its
    burst.  When the worker puts a result, its best score is at least the
    score of every detection that counts in any burst frame; either it is
    0, no snapshot is saved and the alerter is untouched, or it is
    positive and is the score of a counting detection of one burst frame,
    the drawing of that detection on that frame went through, the
    snapshots are written from the drawn frame, and an enabled alerter is
    asked to send a fire alert with that score and the hit count.  When
    the worker puts no result, the exception is that of the drawing of a
    counting detection of positive score that no other detection of the
    burst exceeds.  A job none of whose detections can make the drawing
    raise always gets its result. *)
Theorem worker_best_detection (snap_dir : string) (tg : option TelegramAlerter)
    (job : Job) (clk : WorkerClock) :
  let out :=
    fire_worker_job fire_input fire_conf snap_count iou_thres fire_class_id
      infer snap_dir tg job clk in
  let counts jb roi d :=
    exists ds,
      In jb (rois_jpeg job) /\ dets_of jb = Ok (Some (roi, ds)) /\ In d ds in
  match out with
  | Ok (res, tg') =>
      exists r,
        res = ResOk r /\
        (forall jb roi d, counts jb roi d -> score d <= best_score r) /\
        ((best_score r = 0 /\ saved r = [] /\ tg' = tg) \/
         (0 < best_score r /\
          exists jb roi d img,
            counts jb roi d /\
            best_score r = score d /\
            draw_fire roi (box d) (score d) = Ok img /\
            saved r = write_snaps snap_count snap_dir img /\
            tg' =
            match tg with
            | Some a =>
                if enabled a
                then Some (snd (send_fire_alert a (wc_t_alert clk) img
                                  (score d) (fire_hits r) None None))
                else tg
            | None => None
            end))
  | Raised e =>
      exists jb roi d,
        counts jb roi d /\
        0 < score d /\
        (forall jb' roi' d', counts jb' roi' d' -> score d' <= score d) /\
        draw_fire roi (box d) (score d) = Raised e
  end /\
  ((forall jb roi d e,
      counts jb roi d -> draw_fire roi (box d) (score d) <> Raised e) ->
   exists res tg', out = Ok (res, tg')).
Proof.
  intros out counts.
  destruct (fire_worker_job_best snap_dir tg job clk)
    as (best & Hdom & Hcase).
  fold out in Hcase.
  assert (Hdom' : forall jb roi d, counts jb roi d -> score d <= b_score best).
  { intros jb roi d (ds & Hin & Hd & Hind). exact (Hdom jb roi ds d Hin Hd Hind). }
  destruct Hcase as [(Hz & ->) | (Hpos & jb & roi & ds & d & Hin & Hd & Hind & Hs & ->)].
  - split; [| intros _; eexists _, _; reflexivity].
    eexists. split; [reflexivity |]. cbn [best_score saved].
    split; [| left; repeat split; reflexivity].
    intros jb roi d Hc. pose proof (Hdom' jb roi d Hc) as Hle.
    rewrite Hz in Hle. exact Hle.
  - assert (Hc : counts jb roi d) by (exists ds; tauto).
    rewrite Hs in Hpos, Hdom'.
    split.
    + destruct (draw_fire roi (box d) (score d)) as [img | e] eqn:Edraw.
      * eexists. split; [reflexivity |]. cbn [best_score saved fire_hits].
        split; [exact Hdom' |]. right. split; [exact Hpos |].
        exists jb, roi, d, img. split; [exact Hc |].
        repeat split; try reflexivity. exact Edraw.
      * exists jb, roi, d. split; [exact Hc |]. split; [exact Hpos |].
        split; [exact Hdom' | exact Edraw].
    + intro Hsafe.
      destruct (draw_fire roi (box d) (score d)) as [img | e] eqn:Edraw.
      * eexists _, _. reflexivity.
      * exfalso. exact (Hsafe jb roi d e Hc Edraw).
Qed.

(** X18.  With a positive fire confidence threshold the hit count and the
    best score of a result agree.  A job without a hit always gets its
    result, with hit count 0, best score 0 and no snapshot name, and the
    alerter is untouched.  When the worker puts a result for a job, its
    hit count is the number of burst frames with a qualifying detection,
    the hit count is 0 exactly when the best score is 0, and a result
    with at least one hit has a best score of at least the threshold.
    The worker puts no result only for a job with at least one hit. *)
Theorem worker_hits_and_score (snap_dir : string) (tg : option TelegramAlerter)
    (job : Job) (clk : WorkerClock) :
  0 < fire_conf ->
  let out :=
    fire_worker_job fire_input fire_conf snap_count iou_thres fire_class_id
      infer snap_dir tg job clk in
  let hits := Z.of_nat (length (filter spec_hit' (rois_jpeg job))) in
  (hits = 0%Z ->
   out = Ok (ResOk {| fire_hits := 0; best_score := 0; saved := [];
                      res_meta := meta job; t_job := wc_t_job clk;
                      t_done := wc_t_done clk |},
             tg)) /\
  match out with
  | Ok (res, tg') =>
      exists r,
        res = ResOk r /\
        fire_hits r = hits /\
        (fire_hits r = 0%Z <-> best_score r = 0) /\
        ((1 <= fire_hits r)%Z -> fire_conf <= best_score r) /\
        (fire_hits r = 0%Z -> saved r = [] /\ tg' = tg)
  | Raised _ => (1 <= hits)%Z
  end.
Proof.
  intros Hconf out hits.
  destruct (fire_worker_job_best snap_dir tg job clk)
    as (best & Hdom & Hcase).
  fold out in Hcase. cbv zeta in Hcase.
  rewrite <- spec_hits_eq in Hcase. fold hits in Hcase.
  assert (Hhit : forall jb roi ds d,
             In jb (rois_jpeg job) -> dets_of jb = Ok (Some (roi, ds)) ->
             In d ds -> (1 <= hits)%Z /\ fire_conf <= score d).
  { intros jb roi ds d Hin Hd Hind. split.
    - unfold hits. rewrite spec_hits_eq. apply hits_positive.
      exists jb. split; [exact Hin |]. apply frame_hit_dets.
      destruct ds as [| d0 ds]; [contradiction |].
      exists roi, d0, ds. exact Hd.
    - exact (fire_dets_scores jb roi ds d Hd Hind). }
  assert (Hzero : hits = 0%Z -> b_score best = 0).
  { intro Hz.
    destruct Hcase as [(Hb & _) | (_ & jb & roi & ds & d & Hin & Hd & Hind & _)];
      [exact Hb | exfalso].
    destruct (Hhit jb roi ds d Hin Hd Hind) as [Hone _]. lia. }
  destruct Hcase as [(Hz & Hout) | (Hpos & jb & roi & ds & d & Hin & Hd & Hind & Hs & Hout)].
  - assert (Hnone : hits = 0%Z).
    { assert (Hnn : (0 <= hits)%Z) by (unfold hits; lia).
      destruct (Z.eq_dec hits 0) as [He | Hne]; [exact He | exfalso].
      assert (Hone : (1 <= hits)%Z) by lia.
      unfold hits in Hone. rewrite spec_hits_eq in Hone.
      apply hits_positive in Hone. destruct Hone as (jb & Hin & Hh).
      apply frame_hit_dets in Hh. destruct Hh as (roi & d & ds & Hd).
      destruct (Hhit jb roi (d :: ds) d Hin Hd (or_introl eq_refl)) as [_ Hc].
      pose proof (Hdom jb roi (d :: ds) d Hin Hd (or_introl eq_refl)) as Hle.
      rewrite Hz in Hle. lra. }
    rewrite Hout, Hnone. split; [intros _; reflexivity |].
    eexists. split; [reflexivity |]. cbn [fire_hits best_score saved].
    split; [reflexivity |]. split; [split; reflexivity |].
    split; [lia |]. intros _. split; reflexivity.
  - destruct (Hhit jb roi ds d Hin Hd Hind) as [Hone Hc].
    split; [intro Hz; lia |].
    rewrite Hout.
    destruct (draw_fire roi (box d) (score d)) as [img | e]; [| exact Hone].
    eexists. split; [reflexivity |]. cbn [fire_hits best_score saved].
    split; [reflexivity |]. split.
    + split; intro Hz; exfalso; [lia |].
      rewrite Hs, Hz in Hpos. exact (Qlt_irrefl 0 Hpos).
    + split; [intros _; exact Hc | intro Hz; exfalso; lia].
Qed.
End WorkerBest.

(** A burst with one hit: the result carries the score 0.9 of its
    detection. *)
Lemma worker_best_detection_witness :
  exists r tg',
    fire_worker_job (Image := bytes) (np := stable_numpy) 640 (1 # 2) 3
      (45 # 100) (Some 0%Z) hot_infer "snaps" None sample_job sample_clock
    = Ok (ResOk r, tg') /\
    9 # 10 <= best_score r.
Proof.
  assert (E : exists r tg',
             fire_worker_job (Image := bytes) (np := stable_numpy) 640 (1 # 2)
               3 (45 # 100) (Some 0%Z) hot_infer "snaps" None sample_job
               sample_clock
             = Ok (ResOk r, tg'))
    by (eexists _, _; vm_compute; reflexivity).
  destruct E as (r & tg' & E).
  pose proof (worker_best_detection (np := stable_numpy) 640 (1 # 2) 3
                (45 # 100) (Some 0%Z) hot_infer "snaps" None sample_job
                sample_clock) as Hall.
  cbv zeta in Hall. rewrite E in Hall. destruct Hall as [Hbest _].
  destruct Hbest as (r' & Hr & Hdom & _). injection Hr as <-.
  exists r, tg'. split; [exact E |].
  apply (Hdom one_byte one_byte
           {| box := {| bx1 := 345600 # 1280; by1 := 259200 # 1280;
                        bx2 := 473600 # 1280; by2 := 355200 # 1280 |};
              score := 9 # 10; class_id := 0 |}).
  eexists. split; [left; reflexivity |].
  split; [vm_compute; reflexivity | left; reflexivity].
Defined.

(** A burst whose one frame has a hit, with the threshold 0.5. *)
Lemma worker_hits_and_score_witness :
  exists r tg',
    fire_worker_job (Image := bytes) (np := stable_numpy) 640 (1 # 2) 3
      (45 # 100) (Some 0%Z) hot_infer "snaps" None sample_job sample_clock
    = Ok (ResOk r, tg') /\
    fire_hits r = 1%Z /\
    1 # 2 <= best_score r.
Proof.
  assert (E : exists r tg',
             fire_worker_job (Image := bytes) (np := stable_numpy) 640 (1 # 2)
               3 (45 # 100) (Some 0%Z) hot_infer "snaps" None sample_job
               sample_clock
             = Ok (ResOk r, tg'))
    by (eexists _, _; vm_compute; reflexivity).
  destruct E as (r & tg' & E).
  pose proof (worker_hits_and_score (np := stable_numpy) 640 (1 # 2) 3
                (45 # 100) (Some 0%Z) hot_infer "snaps" None sample_job
                sample_clock ltac:(reflexivity)) as Hall.
  cbv zeta in Hall. rewrite E in Hall. destruct Hall as [_ Hhits].
  destruct Hhits as (r' & Hr & Hn & _ & Hbig & _). injection Hr as <-.
  exists r, tg'. split; [exact E |].
  assert (Hone : fire_hits r = 1%Z) by (rewrite Hn; vm_compute; reflexivity).
  split; [exact Hone |]. apply Hbig. lia.
Defined.

(** ** The snapshot files of a job *)

Lemma str_length_app (s t : string) :
  String.length (s ++ t) = (String.length s + String.length t)%nat.
Proof.
  induction s as [| c s IH]; simpl; [reflexivity | rewrite IH; reflexivity].
Qed.

Lemma str_app_inj_r (s1 s2 t : string) :
  (s1 ++ t)%string = (s2 ++ t)%string -> s1 = s2.
Proof.
  revert s2. induction s1 as [| c s1 IH]; intros [| c2 s2] Heq; simpl in Heq.
  - reflexivity.
  - apply (f_equal String.length) in Heq. simpl in Heq.
    rewrite str_length_app in Heq. lia.
  - apply (f_equal String.length) in Heq. simpl in Heq.
    rewrite str_length_app in Heq. lia.
  - injection Heq as Hc Hs. rewrite Hc, (IH s2 Hs). reflexivity.
Qed.

Lemma snap_name_inj (i j : nat) : snap_name i = snap_name j -> i = j.
Proof.
  unfold snap_name. intro Heq.
  cbn [String.append] in Heq. injection Heq as Heq.
  apply str_app_inj_r in Heq.
  apply (f_equal DecimalString.NilEmpty.uint_of_string) in Heq.
  rewrite !DecimalString.NilEmpty.usu in Heq. injection Heq as Heq.
  apply (f_equal Nat.of_uint) in Heq.
  rewrite !DecimalNat.Unsigned.of_to in Heq. exact Heq.
Qed.

Section SnapProofs.
Context {Image : Type} {cv : Cv2 Image}.
Variable snap_dir : string.
Variable img : Image.

#[local] Abbreviation written i :=
  (match imwrite (String.append snap_dir (String.append "/" (snap_name i))) img with
   | Ok _ => [snap_name i]
   | Raised _ => []
   end).

Lemma written_in (fn : string) (l : list nat) :
  In fn (flat_map (fun i => written i) l) <->
  exists i, In i l /\ fn = snap_name i /\
            exists ok, imwrite (snap_dir ++ "/" ++ fn)%string img = Ok ok.
Proof.
  rewrite in_flat_map. split.
  - intros (i & Hi & Hfn).
    destruct (imwrite (snap_dir ++ "/" ++ snap_name i)%string img) as [ok | e] eqn:E;
      [| contradiction].
    destruct Hfn as [<- | []]. exists i. split; [exact Hi |].
    split; [reflexivity |]. exists ok. exact E.
  - intros (i & Hi & -> & ok & Hok). exists i. split; [exact Hi |].
    rewrite Hok. left. reflexivity.
Qed.

Lemma written_nodup (l : list nat) :
  NoDup l -> NoDup (flat_map (fun i => written i) l).
Proof.
  induction l as [| a l IH]; intro Hnd; cbn [flat_map]; [constructor |].
  inversion Hnd as [| ? ? Hnotin Hnd']; subst.
  destruct (imwrite (snap_dir ++ "/" ++ snap_name a)%string img);
    cbn [app]; [| apply IH; exact Hnd'].
  constructor; [| apply IH; exact Hnd'].
  intro Hin. apply written_in in Hin. destruct Hin as (i & Hi & Heq & _).
  apply snap_name_inj in Heq. subst i. contradiction.
Qed.

Lemma written_length (l : list nat) :
  (length (flat_map (fun i => written i) l) <= length l)%nat.
Proof.
  induction l as [| a l IH]; cbn [flat_map]; [cbn [length]; lia |].
  rewrite length_app.
  destruct (imwrite (snap_dir ++ "/" ++ snap_name a)%string img);
    cbn [length]; lia.
Qed.

Lemma written_all (l : list nat) :
  (forall i, In i l ->
   exists ok, imwrite (snap_dir ++ "/" ++ snap_name i)%string img = Ok ok) ->
  flat_map (fun i => written i) l = map snap_name l.
Proof.
  induction l as [| a l IH]; intro Hall; cbn [flat_map map]; [reflexivity |].
  destruct (Hall a (or_introl eq_refl)) as [ok Hok]. rewrite Hok. cbn [app].
  rewrite IH; [reflexivity |]. intros i Hi. apply Hall. right. exact Hi.
Qed.
End SnapProofs.

(** X19.  The snapshot names of a job: a name is recorded exactly for the
    writes that did not raise, whether or not the write reports success;
    the names are distinct, there are at most [snap_count] of them, each
    is [snap_i.jpg] for an [i] below [snap_count], and when no write
    raises they are [snap_0.jpg] to [snap_(n-1).jpg] in this order. *)
Theorem snapshot_names {Image : Type} {cv : Cv2 Image} (snap_count : Z)
    (snap_dir : string) (img : Image) :
  let saved := write_snaps snap_count snap_dir img in
  NoDup saved /\
  (Z.of_nat (length saved) <= Z.max 0 snap_count)%Z /\
  (forall fn,
     In fn saved <->
     exists i, (Z.of_nat i < snap_count)%Z /\ fn = snap_name i /\
               exists ok, imwrite (snap_dir ++ "/" ++ fn)%string img = Ok ok) /\
  ((forall i, (Z.of_nat i < snap_count)%Z ->
      exists ok, imwrite (snap_dir ++ "/" ++ snap_name i)%string img = Ok ok) ->
   saved = map snap_name (seq 0 (Z.to_nat snap_count))).
Proof.
  intro saved. unfold saved, write_snaps.
  split; [apply written_nodup, seq_NoDup |].
  split.
  - pose proof (written_length snap_dir img (seq 0 (Z.to_nat snap_count))) as Hlen.
    rewrite length_seq in Hlen. lia.
  - split.
    + intro fn. rewrite written_in. split.
      * intros (i & Hi & Hrest). apply in_seq in Hi. exists i.
        split; [lia | exact Hrest].
      * intros (i & Hi & Hrest). exists i. split; [| exact Hrest].
        apply in_seq. lia.
    + intro Hall. apply written_all. intros i Hi. apply in_seq in Hi.
      apply Hall. lia.
Qed.

Lemma snapshot_names_witness :
  write_snaps (Image := bytes) 3 "snaps" one_byte
  = map snap_name (seq 0 (Z.to_nat 3)).
Proof.
  apply (proj2 (proj2 (proj2 (snapshot_names (cv := raw_codec) 3 "snaps"
                                one_byte)))).
  intros i _. exists true. reflexivity.
Defined.

(** ** From the job of the main loop to the result of the worker *)

Section JobToResult.
Context {Image : Type} {cv : Cv2 Image} {np : Numpy}.
Variable fire_input : Z.
Variable fire_conf : Q.
Variable snap_count : Z.
Variable iou_thres : Q.
Variable fire_class_id : option Z.
Variable infer : Image -> exc Tensor.

#[local] Abbreviation job_hits job :=
  (Z.of_nat
     (length (filter (hit_as_specified fire_input fire_conf iou_thres
                        fire_class_id infer)
                     (rois_jpeg job)))).

Lemma job_burst_bound (args : Args.t) (st : LoopState) (tk : Tick) (job : Job) :
  fire_check (snd (run_loop_iter args st tk)) = Some job ->
  (Z.of_nat (length (rois_jpeg job)) <= Z.max 1 (Args.burst_frames args))%Z /\
  ts (meta job) = now tk.
Proof.
  intro Hjob.
  destruct (shape (frame tk)) as [H W] eqn:Hs.
  destruct (iter_job_fields args st tk job H W Hjob Hs) as (Hburst & _ & Hts & _).
  split; [| exact Hts].
  pose proof (burst_length args (ring (fst (run_loop_iter args st tk)))
                (frame tk)
                (fst (filter_smoke (Args.smoke_min_area args) W H (dets tk))))
    as Hlen.
  rewrite <- Hburst in Hlen. exact Hlen.
Qed.

(** X20.  A job that the main loop submits can yield at most as many hits
    as the burst is long: for the job of an iteration that no exception
    leaves, the number of burst frames with a qualifying detection is
    between 0 and the larger of 1 and [burst_frames].  When the worker
    puts a result for the job, its hit count is that number and it
    carries the time of the iteration; so when [fire_confirm] exceeds the
    bound the result never confirms fire.  The worker puts no result only
    for a job with at least one hit. *)
Theorem job_hits_bounded (args : Args.t) (st : LoopState) (tk : Tick)
    (r : LoopState * TickOut) (job : Job) (snap_dir : string)
    (tg : option TelegramAlerter) (clk : WorkerClock) :
  run_loop_step args st tk = Ok r ->
  fire_check (snd r) = Some job ->
  (0 <= job_hits job <= Z.max 1 (Args.burst_frames args))%Z /\
  match fire_worker_job fire_input fire_conf snap_count iou_thres
          fire_class_id infer snap_dir tg job clk with
  | Ok (res, _) =>
      exists fr,
        res = ResOk fr /\
        fire_hits fr = job_hits job /\
        ts (res_meta fr) = now tk /\
        ((Z.max 1 (Args.burst_frames args) < Args.fire_confirm args)%Z ->
         confirming args (ResOk fr) = false)
  | Raised _ => (1 <= job_hits job)%Z
  end.
Proof.
  intros Hstep Hjob. apply run_loop_step_ok in Hstep. subst r.
  destruct (job_burst_bound args st tk job Hjob) as [Hlen Hts].
  pose proof (filter_length_le
                (hit_as_specified fire_input fire_conf iou_thres fire_class_id
                   infer)
                (rois_jpeg job)) as Hle.
  split; [lia |].
  pose proof (fire_worker_job_result fire_input fire_conf snap_count iou_thres
                fire_class_id infer snap_dir tg job clk) as Hres.
  destruct (fire_worker_job fire_input fire_conf snap_count iou_thres
              fire_class_id infer snap_dir tg job clk)
    as [[res tg'] | e] eqn:Hout.
  - destruct Hres as (fr & -> & Hhits & Hmeta & _).
    exists fr. split; [reflexivity |]. split; [exact Hhits |].
    split; [rewrite Hmeta; exact Hts |].
    intro Hbig. cbn [confirming]. apply Z.leb_gt. lia.
  - exact (fire_worker_job_raise_hits fire_input fire_conf snap_count
             iou_thres fire_class_id infer snap_dir tg job clk e Hout).
Qed.
End JobToResult.

(** The job of a check at t = 0 on an empty ring buffer: its burst is the
    live frame, and the result has one hit. *)
Lemma job_hits_bounded_witness :
  exists r job fr tg',
    run_loop_step sample_args (confirmed_state []) (smoke_tick 0 []) = Ok r /\
    fire_check (snd r) = Some job /\
    fire_worker_job (np := stable_numpy) 640 (1 # 2) 3 (45 # 100) (Some 0%Z)
      hot_infer "snaps" None job sample_clock = Ok (ResOk fr, tg') /\
    (0 <= fire_hits fr <= 6)%Z.
Proof.
  destruct (run_loop_step sample_args (confirmed_state []) (smoke_tick 0 []))
    as [r | e] eqn:Es; [| vm_compute in Es; discriminate Es].
  pose proof (run_loop_step_ok _ _ _ _ Es) as Hr.
  destruct (fire_check (snd r)) as [job |] eqn:Ef;
    [| rewrite Hr in Ef; vm_compute in Ef; discriminate Ef].
  pose proof (job_hits_bounded (np := stable_numpy) 640 (1 # 2) 3 (45 # 100)
                (Some 0%Z) hot_infer sample_args (confirmed_state [])
                (smoke_tick 0 []) r job "snaps" None sample_clock Es Ef)
    as [Hbound Hres].
  destruct (fire_worker_job (np := stable_numpy) 640 (1 # 2) 3 (45 # 100)
              (Some 0%Z) hot_infer "snaps" None job sample_clock)
    as [[res tg'] | e] eqn:Eo.
  - destruct Hres as (fr & -> & Hhits & _).
    exists r, job, fr, tg'. split; [reflexivity |]. split; [exact Ef |].
    split; [exact Eo |]. rewrite Hhits. exact Hbound.
  - exfalso. rewrite Hr in Ef. vm_compute in Ef. injection Ef as <-.
    vm_compute in Eo. discriminate Eo.
Defined.

(** ** Fire is reported only after a confirmation *)

Section FireOrigin.
Context {Image : Type} {cv : Cv2 Image}.

Lemma run_loop_hold_origin (args : Args.t) (ticks : list Tick) (st : LoopState) :
  fire_hold_until (fst (run_loop args st ticks)) = fire_hold_until st \/
  exists tk,
    In tk ticks /\ existsb (confirming args) (out_q tk) = true /\
    fire_hold_until (fst (run_loop args st ticks))
    = now tk + Args.fire_hold args.
Proof.
  revert st. induction ticks as [| tk rest IH]; intro st.
  - left. reflexivity.
  - rewrite run_loop_cons. cbn [fst].
    destruct (IH (fst (run_loop_iter args st tk)))
      as [Hsame | (tk' & Hin & Hconf & Hhold)].
    + rewrite Hsame, iter_hold.
      destruct (existsb (confirming args) (out_q tk)) eqn:E.
      * right. exists tk. split; [left; reflexivity |].
        split; [exact E | reflexivity].
      * left. reflexivity.
    + right. exists tk'. split; [right; exact Hin |].
      split; [exact Hconf | exact Hhold].
Qed.

Lemma has_fire_origin (args : Args.t) (alerter : option TelegramAlerter)
    (pre : list Tick) (tk : Tick) :
  0 <= now tk ->
  let st := fst (run_loop args (init_state alerter) pre) in
  has_fire (snd (run_loop_iter args st tk)) = true ->
  exists tk' res,
    In tk' (pre ++ [tk]) /\ In res (out_q tk') /\
    confirming args res = true /\
    now tk < now tk' + Args.fire_hold args.
Proof.
  intros Hnow st Hfire.
  rewrite iter_has_fire, Qltb_lt, iter_hold in Hfire.
  destruct (existsb (confirming args) (out_q tk)) eqn:E.
  - apply existsb_exists in E. destruct E as (res & Hres & Hconf).
    exists tk, res. split; [apply in_or_app; right; left; reflexivity |].
    split; [exact Hres |]. split; [exact Hconf | exact Hfire].
  - unfold st in Hfire.
    destruct (run_loop_hold_origin args pre (init_state alerter))
      as [Hsame | (tk' & Hin & Hconf & Hhold)].
    + rewrite Hsame in Hfire. cbn [init_state fire_hold_until] in Hfire. lra.
    + rewrite Hhold in Hfire. apply existsb_exists in Hconf.
      destruct Hconf as (res & Hres & Hconf).
      exists tk', res. split; [apply in_or_app; left; exact Hin |].
      split; [exact Hres |]. split; [exact Hconf | exact Hfire].
Qed.
End FireOrigin.

(** X21.  Fire is never reported without a confirmation: started from the
    initial state, whenever an iteration at a clock reading that is not
    negative reports [has_fire], that iteration or an earlier one drained
    a success result whose hit count reached [fire_confirm], less than
    [fire_hold] seconds before. *)
Theorem no_fire_unconfirmed {Image : Type} {cv : Cv2 Image} (args : Args.t)
    (alerter : option TelegramAlerter) (pre : list Tick) (tk : Tick) :
  0 <= now tk ->
  let st := fst (run_loop args (init_state alerter) pre) in
  has_fire (snd (run_loop_iter args st tk)) = true ->
  exists tk' res,
    In tk' (pre ++ [tk]) /\ In res (out_q tk') /\
    confirming args res = true /\
    now tk < now tk' + Args.fire_hold args.
Proof.
  exact (has_fire_origin args alerter pre tk).
Qed.

Lemma no_fire_unconfirmed_witness :
  exists tk' res,
    In tk' ([smoke_tick 10 [sample_result 2 []]; smoke_tick 11 []]
            ++ [smoke_tick 12 []]) /\
    In res (out_q tk') /\
    confirming sample_args res = true /\
    now (smoke_tick 12 []) < now tk' + Args.fire_hold sample_args.
Proof.
  apply (no_fire_unconfirmed (cv := raw_codec) sample_args None
           [smoke_tick 10 [sample_result 2 []]; smoke_tick 11 []]
           (smoke_tick 12 [])).
  - apply Qle_bool_iff. reflexivity.
  - vm_compute. reflexivity.
Defined.

(** ** The fire figures of the status *)

Lemma last_ok_from (results : list Result) (found : option FireResult) :
  fold_left (fun found res =>
               match res with
               | ResOk r => Some r
               | ResErr _ => found
               end)
            results found
  = match last_ok results with
    | Some r => Some r
    | None => found
    end.
Proof.
  unfold last_ok. revert found.
  induction results as [| res rest IH]; intro found; cbn [fold_left].
  - reflexivity.
  - destruct res as [r | e].
    + rewrite (IH (Some r)).
      destruct (fold_left _ rest None); reflexivity.
    + apply IH.
Qed.

Lemma fold_drain_figures (args : Args.t) (now : Q) (results : list Result)
    (acc : LoopState * (Z * Q)) :
  snd (fold_left (drain_result args now) results acc)
  = match last_ok results with
    | Some r => (fire_hits r, best_score r)
    | None => snd acc
    end.
Proof.
  revert acc. induction results as [| res rest IH]; intro acc.
  - reflexivity.
  - cbn [fold_left]. rewrite IH. unfold last_ok at 2. cbn [fold_left].
    destruct res as [r | e].
    + rewrite last_ok_from. cbn [drain_result snd].
      destruct (last_ok rest); reflexivity.
    + reflexivity.
Qed.

(** X22.  The fire figures that an iteration reports are those of the
    last success result it drained: hit count and best score of that
    result, whatever failure results come after it; an iteration that
    drains no success result reports 0 for both, so the figures of a
    result are reported in one iteration only. *)
Theorem fire_figures {Image : Type} {cv : Cv2 Image} (args : Args.t)
    (st : LoopState) (tk : Tick) :
  let o := snd (run_loop_iter args st tk) in
  (fire_hit o, fire_best o)
  = match last_ok (out_q tk) with
    | Some r => (fire_hits r, best_score r)
    | None => (0%Z, 0)
    end.
Proof.
  intro o. destruct (iter_drained args st tk) as (_ & _ & _ & Hhit & Hbest).
  cbv zeta in Hhit, Hbest. fold o in Hhit, Hbest. rewrite Hhit, Hbest.
  rewrite <- surjective_pairing. unfold drain. apply fold_drain_figures.
Qed.

(** ** The MJPEG frame queue *)

Lemma push_frame_lastn {A : Type} (frame_queue : list A) (frame : A) :
  (length frame_queue <= 2)%nat ->
  push_frame frame_queue frame = lastn 2 (frame_queue ++ [frame]).
Proof.
  intro Hle. unfold push_frame, put_nowait, get_nowait, lastn.
  destruct frame_queue as [| a [| b [| c rest]]]; cbn in *; try reflexivity.
  lia.
Qed.

Lemma fold_push_frame {A : Type} (frames frame_queue : list A) :
  (length frame_queue <= 2)%nat ->
  fold_left push_frame frames frame_queue = lastn 2 (frame_queue ++ frames).
Proof.
  revert frame_queue. induction frames as [| f rest IH]; intros q Hle.
  - cbn [fold_left]. rewrite app_nil_r. symmetry. apply lastn_all. exact Hle.
  - cbn [fold_left]. rewrite (push_frame_lastn q f Hle), IH.
    + rewrite lastn_app_lastn, <- app_assoc. reflexivity.
    + rewrite lastn_length. lia.
Qed.

(** X23.  The MJPEG queue keeps the two newest frames: pushing frames
    onto a queue of at most two, with no reader in between, leaves the
    last two of the queued and pushed frames in their order, so the queue
    never exceeds two frames, the newest frame always enters, and the
    frame dropped is the oldest. *)
Theorem frame_queue_keeps_newest {A : Type} (frame_queue frames : list A) :
  (length frame_queue <= 2)%nat ->
  let after := fold_left push_frame frames frame_queue in
  after = lastn 2 (frame_queue ++ frames) /\
  (length after <= 2)%nat /\
  (forall f rest, frames = rest ++ [f] -> exists older, after = older ++ [f]).
Proof.
  intros Hle after. unfold after. rewrite (fold_push_frame frames _ Hle).
  split; [reflexivity |]. split; [rewrite lastn_length; lia |].
  intros f rest ->. rewrite app_assoc.
  set (l := frame_queue ++ rest). unfold lastn. rewrite length_app. cbn [length].
  rewrite skipn_app.
  replace (length l + 1 - 2 - length l)%nat with 0%nat by lia.
  cbn [skipn]. eexists. reflexivity.
Qed.

Lemma frame_queue_keeps_newest_witness :
  fold_left push_frame [3%Z; 4%Z; 5%Z] [1%Z; 2%Z] = [4%Z; 5%Z].
Proof.
  apply (proj1 (frame_queue_keeps_newest [1%Z; 2%Z] [3%Z; 4%Z; 5%Z]
                  ltac:(simpl; lia))).
Defined.

(** ** An alerter without credentials *)

Lemma validate_false (HAS_REQUESTS : bool) (token chat : option string) :
  HAS_REQUESTS = false \/
  falsy token = true \/ contains "YOUR" (upper (str token)) = true \/
  falsy chat = true \/ contains "YOUR" (upper (str chat)) = true ->
  _validate HAS_REQUESTS token chat = false.
Proof.
  unfold _validate. intro Hcase.
  destruct HAS_REQUESTS; cbn [negb]; [| reflexivity].
  destruct (falsy token); cbn [orb]; [reflexivity |].
  destruct (contains "YOUR" (upper (str token))); [reflexivity |].
  destruct (falsy chat); cbn [orb]; [reflexivity |].
  destruct (contains "YOUR" (upper (str chat))); [reflexivity |].
  repeat destruct Hcase as [Hcase | Hcase]; discriminate.
Qed.

Section DisabledProofs.
Context {Image : Type} {cv : Cv2 Image}.

Lemma run_alerter_disabled (events : list AlertEvent) (self : TelegramAlerter) :
  enabled self = false -> _queue self = [] ->
  fst (run_alerter self events) = self /\
  Forall (fun b => b = false) (snd (run_alerter self events)).
Proof.
  intros Hen Hq. induction events as [| ev rest IH].
  - split; [reflexivity | constructor].
  - destruct ev as [k t frame_bgr confidence num_boxes |].
    + rewrite run_alerter_alert. cbv zeta.
      rewrite enqueue_unfold, Hen. cbn [negb fst snd].
      destruct IH as [Hself Hall]. split; [exact Hself |].
      constructor; [reflexivity | exact Hall].
    + cbn [run_alerter]. unfold _send_worker_step. rewrite Hq.
      cbn [get_nowait]. exact IH.
Qed.
End DisabledProofs.

(** X24.  An alerter without usable credentials does nothing: when the
    requests library is missing, or the token or the chat id is absent,
    empty or contains the placeholder YOUR in any letter case, every call
    of either alert method returns false, and the alerter stays as it was
    built, with an empty queue and both time stamps at 0. *)
Theorem disabled_alerter_inert {Image : Type} {cv : Cv2 Image}
    (HAS_REQUESTS : bool) (token chat : option string)
    (smoke_cd fire_cd min_conf : Q) (events : list AlertEvent) :
  HAS_REQUESTS = false \/
  falsy token = true \/ contains "YOUR" (upper (str token)) = true \/
  falsy chat = true \/ contains "YOUR" (upper (str chat)) = true ->
  let self := TelegramAlerter_init HAS_REQUESTS token chat smoke_cd fire_cd
                min_conf in
  let r := run_alerter self events in
  Forall (fun b => b = false) (snd r) /\
  fst r = self /\
  _queue (fst r) = [] /\
  _last_smoke_time (fst r) = 0 /\ _last_fire_time (fst r) = 0.
Proof.
  intros Hcase self r.
  destruct (run_alerter_disabled events self) as [Hself Hall].
  - unfold self. cbn [enabled TelegramAlerter_init].
    apply validate_false. exact Hcase.
  - reflexivity.
  - fold r in Hself, Hall. split; [exact Hall |]. split; [exact Hself |].
    rewrite Hself. repeat split; reflexivity.
Qed.

Lemma disabled_alerter_inert_witness :
  Forall (fun b => b = false)
    (snd (run_alerter
            (TelegramAlerter_init true (Some "Your_Token"%string)
               (Some "42"%string) 10 5 (3 # 10))
            [Alert Smoke 20 one_byte (9 # 10) 1; Delivery;
             Alert Fire 40 one_byte (9 # 10) 1])).
Proof.
  apply (proj1 (disabled_alerter_inert (cv := raw_codec) true
                  (Some "Your_Token"%string) (Some "42"%string) 10 5 (3 # 10)
                  [Alert Smoke 20 one_byte (9 # 10) 1; Delivery;
                   Alert Fire 40 one_byte (9 # 10) 1]
                  ltac:(right; right; left; reflexivity))).
Defined.

(** ** The hold deadline and the last confirmation *)

Lemma fold_drain_confirm (args : Args.t) (now : Q) (results : list Result)
    (acc : LoopState * (Z * Q)) :
  last_fire_confirm (fst (fold_left (drain_result args now) results acc)) =
  if existsb (confirming args) results then now
  else last_fire_confirm (fst acc).
Proof.
  revert acc. induction results as [| res rest IH]; intro acc.
  - reflexivity.
  - cbn [fold_left existsb]. rewrite IH.
    destruct (existsb (confirming args) rest); [rewrite orb_true_r; reflexivity |].
    rewrite orb_false_r.
    destruct res as [r | e]; cbn [drain_result confirming fst]; [| reflexivity].
    destruct (Args.fire_confirm args <=? fire_hits r)%Z; [| reflexivity].
    destruct (saved r); reflexivity.
Qed.

Section DeadlineProofs.
Context {Image : Type} {cv : Cv2 Image}.

Lemma iter_confirm (args : Args.t) (st : LoopState) (tk : Tick) :
  last_fire_confirm (fst (run_loop_iter args st tk)) =
  if existsb (confirming args) (out_q tk) then now tk
  else last_fire_confirm st.
Proof.
  destruct (iter_drained args st tk) as (_ & Hc & _). cbv zeta in Hc.
  rewrite Hc. unfold drain. apply fold_drain_confirm.
Qed.

Lemma iter_deadline (args : Args.t) (st : LoopState) (tk : Tick) :
  (fire_hold_until st = 0 /\ last_fire_confirm st = 0) \/
  fire_hold_until st = last_fire_confirm st + Args.fire_hold args ->
  let st' := fst (run_loop_iter args st tk) in
  (fire_hold_until st' = 0 /\ last_fire_confirm st' = 0) \/
  fire_hold_until st' = last_fire_confirm st' + Args.fire_hold args.
Proof.
  intros Hinv st'. unfold st'. rewrite iter_hold, iter_confirm.
  destruct (existsb (confirming args) (out_q tk)); [right; reflexivity |].
  exact Hinv.
Qed.

Lemma run_loop_deadline (args : Args.t) (ticks : list Tick) (st : LoopState) :
  (fire_hold_until st = 0 /\ last_fire_confirm st = 0) \/
  fire_hold_until st = last_fire_confirm st + Args.fire_hold args ->
  let st' := fst (run_loop args st ticks) in
  (fire_hold_until st' = 0 /\ last_fire_confirm st' = 0) \/
  fire_hold_until st' = last_fire_confirm st' + Args.fire_hold args.
Proof.
  revert st. induction ticks as [| tk rest IH]; intros st Hinv.
  - exact Hinv.
  - rewrite run_loop_cons. cbv zeta. cbn [fst].
    apply IH, iter_deadline, Hinv.
Qed.
End DeadlineProofs.

(** X25.  The hold deadline is the last confirmation plus the hold: in
    every state reached from the initial one, either no result has
    confirmed fire and both [fire_hold_until] and [last_fire_confirm] are
    0, or [fire_hold_until] is [last_fire_confirm] plus [fire_hold]; so
    while an iteration at a clock reading that is not negative reports
    [has_fire], the last confirmation is less than [fire_hold] seconds
    old. *)
Theorem hold_deadline {Image : Type} {cv : Cv2 Image} (args : Args.t)
    (alerter : option TelegramAlerter) (pre : list Tick) (tk : Tick) :
  let st := fst (run_loop args (init_state alerter) pre) in
  let r := run_loop_iter args st tk in
  ((fire_hold_until (fst r) = 0 /\ last_fire_confirm (fst r) = 0) \/
   fire_hold_until (fst r)
   = last_fire_confirm (fst r) + Args.fire_hold args) /\
  (0 <= now tk -> has_fire (snd r) = true ->
   now tk < last_fire_confirm (fst r) + Args.fire_hold args).
Proof.
  intros st r.
  assert (Hinv : (fire_hold_until (fst r) = 0 /\ last_fire_confirm (fst r) = 0) \/
                 fire_hold_until (fst r)
                 = last_fire_confirm (fst r) + Args.fire_hold args).
  { apply iter_deadline, run_loop_deadline. left. split; reflexivity. }
  split; [exact Hinv |].
  intros Hnow Hfire. unfold r in Hfire. rewrite iter_has_fire, Qltb_lt in Hfire.
  fold r in Hfire.
  destruct Hinv as [[Hh _] | Hd].
  - rewrite Hh in Hfire. lra.
  - rewrite Hd in Hfire. exact Hfire.
Qed.

Lemma hold_deadline_witness :
  let st := fst (run_loop sample_args (init_state None)
                   [smoke_tick 10 [sample_result 2 []]; smoke_tick 11 []]) in
  let r := run_loop_iter sample_args st (smoke_tick 12 []) in
  now (smoke_tick 12 []) < last_fire_confirm (fst r) + Args.fire_hold sample_args.
Proof.
  intros st r.
  apply (proj2 (hold_deadline (cv := raw_codec) sample_args None
                  [smoke_tick 10 [sample_result 2 []]; smoke_tick 11 []]
                  (smoke_tick 12 []))).
  - apply Qle_bool_iff. reflexivity.
  - vm_compute. reflexivity.
Defined.
